(** * Minesweeper knowledge-base agent: a shallow embedding and its properties

    The development follows [src/minesweeper/minesweeper.py].  The three
    Python classes are embedded as follows.

    - [Minesweeper] (the board) is a record holding the dimensions and the
      set of mined cells; only [is_mine] and [nearby_mines] are needed.
    - [Sentence] is a record of a finite set of cells and an integer count.
      Python sentences are mutable objects that are shared between the
      knowledge list, its shallow copies and local variables, so sentences
      live in an object store ([heap]) and lists hold references to them.
    - [MinesweeperAI] is a record of the fields of the Python object,
      together with the object store.

    Loops that Python runs until a flag stays false ([while flag], the
    recursion of [extract_from_problem]) take a fuel argument; running out
    of fuel is a result of its own ([OutOfFuel]), distinct from a Python
    exception escaping the method ([Raised]). *)

From stdpp Require Import gmap list.
From Stdlib Require Import ZArith Lia Wellfounded.

Open Scope Z_scope.

#[local] Set Warnings "-level-tolerance,-clear-no-such-hyp".

(** ** Cells and ranges *)

Abbreviation Cell := (Z * Z)%type.

(** Python's [range(a, b)]. *)
Definition zrange (a b : Z) : list Z :=
  (λ k : nat, a + Z.of_nat k) <$> seq 0 (Z.to_nat (b - a)).

(** The nested loop [for i in range(r - 1, r + 2): for j in range(c - 1, c + 2)]
    visits these cells, in this order. *)
Definition square (cell : Cell) : list Cell :=
  i ← zrange (cell.1 - 1) (cell.1 + 2);
  j ← zrange (cell.2 - 1) (cell.2 + 2);
  [(i, j)].

(** [0 <= i < height and 0 <= j < width] *)
Definition in_bounds (h w : Z) (c : Cell) : Prop :=
  (0 ≤ c.1 ∧ c.1 < h) ∧ (0 ≤ c.2 ∧ c.2 < w).

Global Instance in_bounds_dec h w c : Decision (in_bounds h w c).
Proof. unfold in_bounds. apply _. Defined.

(** ** Results of effectful code *)

Inductive res (A : Type) : Type :=
  | Done (a : A)
  | Raised
  | OutOfFuel.
Arguments Done {A} a.
Arguments Raised {A}.
Arguments OutOfFuel {A}.

Global Instance res_ret : MRet res := λ A a, Done a.

Global Instance res_bind : MBind res := λ A B f m,
  match m with
  | Done a => f a
  | Raised => Raised
  | OutOfFuel => OutOfFuel
  end.

(** [for x in l: body(x)] over a state, stopping at the first exception. *)
Fixpoint for_each {A S : Type} (body : A → S → res S) (l : list A) (s : S) : res S :=
  match l with
  | [] => Done s
  | x :: l' => s' ← body x s; for_each body l' s'
  end.

(** ** The board: class [Minesweeper] *)

Module Minesweeper.

Record t : Type := mk {
  height : Z;
  width : Z;
  mines : gset Cell
}.

(** [self.board[i][j]] is [True] exactly for the cells of [self.mines]. *)
Definition is_mine (b : t) (cell : Cell) : bool := bool_decide (cell ∈ mines b).

(** The loop of [nearby_mines]: skip the cell itself, count the cells in
    bounds that hold a mine. *)
Definition nearby_mines (b : t) (cell : Cell) : Z :=
  foldl (λ count c,
           if decide (c = cell) then count
           else if decide (in_bounds (height b) (width b) c)
                then (if is_mine b c then count + 1 else count)
                else count)
        0 (square cell).

End Minesweeper.

(** ** Class [Sentence] *)

Record Sentence : Type := mkSentence {
  cells : gset Cell;
  count : Z
}.

(** [__eq__] compares the cell sets and the counts. *)
Global Instance Sentence_eq_dec : EqDecision Sentence.
Proof. solve_decision. Defined.

Global Instance Sentence_inhabited : Inhabited Sentence :=
  populate (mkSentence ∅ 0).

Module Sent.

(** [tuple(self.cells)] when [len(self.cells) == self.count], else [None].
    The order of the tuple is the iteration order of the set. *)
Definition known_mines (s : Sentence) : option (list Cell) :=
  if decide (Z.of_nat (size (cells s)) = count s)
  then Some (elements (cells s))
  else None.

Definition known_safes (s : Sentence) : option (list Cell) :=
  if decide (count s = 0)
  then Some (elements (cells s))
  else None.

Definition mark_mine (cell : Cell) (s : Sentence) : Sentence :=
  if decide (cell ∈ cells s)
  then mkSentence (cells s ∖ {[cell]}) (count s - 1)
  else s.

Definition mark_safe (cell : Cell) (s : Sentence) : Sentence :=
  if decide (cell ∈ cells s)
  then mkSentence (cells s ∖ {[cell]}) (count s)
  else s.

End Sent.

(** Python truthiness of the value returned by [known_mines]/[known_safes]:
    [None] and the empty tuple are false. *)
Definition truthy (o : option (list Cell)) : bool :=
  match o with
  | Some (_ :: _) => true
  | _ => false
  end.

(** The tuple a [for] loop ranges over ([for mine in mines]); the loop is
    only entered when the value is truthy. *)
Definition tuple_of (o : option (list Cell)) : list Cell := default [] o.

(** ** Class [MinesweeperAI] *)

(** A reference to a [Sentence] object: its index in the object store. *)
Abbreviation ref := nat.

Record MinesweeperAI : Type := mkAI {
  height : Z;
  width : Z;
  moves_made : gset Cell;
  mines : gset Cell;
  safes : gset Cell;
  knowledge : list ref;
  (** the [Sentence] objects allocated so far *)
  heap : list Sentence
}.

Global Instance MinesweeperAI_eq_dec : EqDecision MinesweeperAI.
Proof. solve_decision. Defined.

Definition set_moves_made (m : gset Cell) (ai : MinesweeperAI) : MinesweeperAI :=
  mkAI (height ai) (width ai) m (mines ai) (safes ai) (knowledge ai) (heap ai).
Definition set_mines (m : gset Cell) (ai : MinesweeperAI) : MinesweeperAI :=
  mkAI (height ai) (width ai) (moves_made ai) m (safes ai) (knowledge ai) (heap ai).
Definition set_safes (m : gset Cell) (ai : MinesweeperAI) : MinesweeperAI :=
  mkAI (height ai) (width ai) (moves_made ai) (mines ai) m (knowledge ai) (heap ai).
Definition set_knowledge (k : list ref) (ai : MinesweeperAI) : MinesweeperAI :=
  mkAI (height ai) (width ai) (moves_made ai) (mines ai) (safes ai) k (heap ai).
Definition set_heap (h : list Sentence) (ai : MinesweeperAI) : MinesweeperAI :=
  mkAI (height ai) (width ai) (moves_made ai) (mines ai) (safes ai) (knowledge ai) h.

(** [MinesweeperAI(height, width)] *)
Definition init (h w : Z) : MinesweeperAI := mkAI h w ∅ ∅ ∅ [] [].

(** The object a reference denotes. *)
Definition deref (h : list Sentence) (r : ref) : Sentence := h !!! r.

(** The sentences of the knowledge list, by value. *)
Definition sentences (ai : MinesweeperAI) : list Sentence :=
  deref (heap ai) <$> knowledge ai.

(** [for sentence in self.knowledge: sentence.m(cell)] for a method [m] that
    updates the sentence in place. *)
Definition update_all (f : Sentence → Sentence) (k : list ref) (h : list Sentence)
  : list Sentence :=
  foldl (λ h r, alter f r h) h k.

(** [self.knowledge.append(Sentence(cells, count))]: a new object. *)
Definition append_sentence (s : Sentence) (ai : MinesweeperAI) : MinesweeperAI :=
  set_knowledge (knowledge ai ++ [length (heap ai)]) (set_heap (heap ai ++ [s]) ai).

(** [list.remove(x)]: drop the first element equal to [x] (by [__eq__]);
    [None] stands for the [ValueError] raised when there is none. *)
Fixpoint list_remove_first (h : list Sentence) (s : Sentence) (k : list ref)
  : option (list ref) :=
  match k with
  | [] => None
  | r :: k' =>
      if decide (deref h r = s) then Some k'
      else (r ::.) <$> list_remove_first h s k'
  end.

(** [self.knowledge.remove(sentence)] *)
Definition knowledge_remove (sentence : ref) (ai : MinesweeperAI) : res MinesweeperAI :=
  match list_remove_first (heap ai) (deref (heap ai) sentence) (knowledge ai) with
  | Some k => Done (set_knowledge k ai)
  | None => Raised
  end.

Definition mark_mine (cell : Cell) (ai : MinesweeperAI) : MinesweeperAI :=
  let ai := set_mines ({[cell]} ∪ mines ai) ai in
  set_heap (update_all (Sent.mark_mine cell) (knowledge ai) (heap ai)) ai.

Definition mark_safe (cell : Cell) (ai : MinesweeperAI) : MinesweeperAI :=
  if decide (cell ∈ safes ai) then ai
  else
    let ai := set_safes ({[cell]} ∪ safes ai) ai in
    set_heap (update_all (Sent.mark_safe cell) (knowledge ai) (heap ai)) ai.

(** One step of the scan of [add_neighbour_mines_knowledge]; the accumulator
    is [(neighbour_cells, count)]. *)
Definition scan (ai : MinesweeperAI) (acc : list Cell * Z) (current_cell : Cell)
  : list Cell * Z :=
  if decide (in_bounds (height ai) (width ai) current_cell) then
    if decide (current_cell ∈ mines ai) then (acc.1, acc.2 - 1)
    else if decide (current_cell ∈ moves_made ai ∪ safes ai) then acc
    else (acc.1 ++ [current_cell], acc.2)
  else acc.

Definition add_neighbour_mines_knowledge (cell : Cell) (count : Z) (ai : MinesweeperAI)
  : MinesweeperAI :=
  let '(neighbour_cells, count) := foldl (scan ai) ([], count) (square cell) in
  append_sentence (mkSentence (list_to_set neighbour_cells) count) ai.

(** The body of the [for] loop inside the [while] loop of
    [mark_safe_and_mine]; the state is the AI and the flag. *)
Definition resolve (sentence : ref) (st : MinesweeperAI * bool)
  : res (MinesweeperAI * bool) :=
  let '(ai, flag) := st in
  let mines := Sent.known_mines (deref (heap ai) sentence) in
  let safes := Sent.known_safes (deref (heap ai) sentence) in
  '(ai, flag) ← (if truthy mines || truthy safes
                  then ai' ← knowledge_remove sentence ai; Done (ai', true)
                  else Done (ai, flag));
  let ai := if truthy mines then foldl (λ a mine, mark_mine mine a) ai (tuple_of mines)
            else ai in
  let ai := if truthy safes then foldl (λ a safe, mark_safe safe a) ai (tuple_of safes)
            else ai in
  Done (ai, flag).

(** [while flag: flag = False; for sentence in self.knowledge.copy(): ...] *)
Fixpoint resolution_loop (fuel : nat) (ai : MinesweeperAI) : res MinesweeperAI :=
  match fuel with
  | O => OutOfFuel
  | S fuel' =>
      '(ai', flag) ← for_each resolve (knowledge ai) (ai, false);
      if flag : bool then resolution_loop fuel' ai' else Done ai'
  end.

(** The body of the final loop of [mark_safe_and_mine]. *)
Definition purge (sentence : ref) (ai : MinesweeperAI) : res MinesweeperAI :=
  if decide (cells (deref (heap ai) sentence) = ∅)
  then knowledge_remove sentence ai
  else Done ai.

Definition mark_safe_and_mine (fuel : nat) (ai : MinesweeperAI) : res MinesweeperAI :=
  ai ← resolution_loop fuel ai;
  for_each purge (knowledge ai) ai.

(** [sentence in l], by [__eq__]. *)
Definition sentence_in (h : list Sentence) (sentence : ref) (l : list ref) : bool :=
  bool_decide (deref h sentence ∈ (deref h <$> l)).

Definition remove_same_sentence (ai : MinesweeperAI) : MinesweeperAI :=
  let new_knowledge :=
    foldl (λ new sentence,
             if sentence_in (heap ai) sentence new then new else new ++ [sentence])
          [] (knowledge ai) in
  set_knowledge new_knowledge ai.

(** [itertools.permutations(l, 2)]: the pairs of elements at distinct
    positions, in lexicographic order of the positions. *)
Definition permutations2 {A : Type} (l : list A) : list (A * A) :=
  ix ← imap pair l;
  jy ← imap pair l;
  if decide (ix.1 = jy.1) then [] else [(ix.2, jy.2)].

(** The pairs collected by the first loop of [extract_from_problem]. *)
Definition subset_pairs (ai : MinesweeperAI) : list (ref * ref) :=
  filter (λ p, cells (deref (heap ai) p.1) ⊆ cells (deref (heap ai) p.2))
         (permutations2 (knowledge ai)).

(** The body of the second loop: [self.knowledge.append(Sentence(s, c))]. *)
Definition derive (ai : MinesweeperAI) (p : ref * ref) : MinesweeperAI :=
  let k1 := deref (heap ai) p.1 in
  let k2 := deref (heap ai) p.2 in
  append_sentence (mkSentence (cells k2 ∖ cells k1) (count k2 - count k1)) ai.

(** The body of the third loop: [if sentence in self.knowledge:
    self.knowledge.remove(sentence)].  The guard holds exactly when [remove]
    finds an element, so no exception can escape. *)
Definition discard (ai : MinesweeperAI) (sentence : ref) : MinesweeperAI :=
  if sentence_in (heap ai) sentence (knowledge ai) then
    match list_remove_first (heap ai) (deref (heap ai) sentence) (knowledge ai) with
    | Some k => set_knowledge k ai
    | None => ai
    end
  else ai.

Fixpoint extract_from_problem (fuel : nat) (ai : MinesweeperAI) : res MinesweeperAI :=
  match fuel with
  | O => OutOfFuel
  | S fuel' =>
      let ai := remove_same_sentence ai in
      let knowledge_subset_list := subset_pairs ai in
      let remove_sentence := knowledge_subset_list.*2 in
      let flag := negb (bool_decide (knowledge_subset_list = [])) in
      let ai := foldl derive ai knowledge_subset_list in
      let ai := foldl discard ai remove_sentence in
      if flag then
        ai ← mark_safe_and_mine fuel' ai;
        extract_from_problem fuel' ai
      else Done ai
  end.

Definition add_knowledge (fuel : nat) (cell : Cell) (count : Z) (ai : MinesweeperAI)
  : res MinesweeperAI :=
  let ai := set_moves_made ({[cell]} ∪ moves_made ai) ai in
  let ai := mark_safe cell ai in
  let ai := add_neighbour_mines_knowledge cell count ai in
  ai ← mark_safe_and_mine fuel ai;
  extract_from_problem fuel ai.

(** [s.pop()] on a set: some element of [s], chosen by the set's internal
    layout, which [pick] stands for; [None] stands for [KeyError]. *)
Definition set_pop (pick : nat) (s : gset Cell) : option (Cell * gset Cell) :=
  match elements s !! (pick `mod` length (elements s))%nat with
  | Some c => Some (c, s ∖ {[c]})
  | None => None
  end.

(** [make_safe_move] pops from the temporary set [self.safes - self.moves_made];
    the result is the returned value and the AI afterwards. *)
Definition make_safe_move (pick : nat) (ai : MinesweeperAI)
  : option Cell * MinesweeperAI :=
  let tmp := safes ai ∖ moves_made ai in
  match set_pop pick tmp with
  | Some (c, _) => (Some c, ai)
  | None => (None, ai)
  end.

(** Python's [range(n)] *)
Definition range (n : Z) : list Z := zrange 0 n.

(** The list [choice] built by [make_random_move]. *)
Definition random_choices (ai : MinesweeperAI) : list Cell :=
  i ← range (height ai);
  j ← range (width ai);
  if decide ((i, j) ∉ mines ai ∧ (i, j) ∉ moves_made ai) then [(i, j)] else [].

(** [random.choice(choice)] returns [choice[k]] for an index [k] drawn below
    [len(choice)]; [rnd] is the draw.  On an empty list it raises, which the
    bare [except] turns into [None]. *)
Definition make_random_move (rnd : nat) (ai : MinesweeperAI) : option Cell :=
  let choice := random_choices ai in
  choice !! (rnd `mod` length choice)%nat.

(** A game: [add_knowledge] for each observation in turn. *)
Fixpoint observe_all (fuel : nat) (obs : list (Cell * Z)) (ai : MinesweeperAI)
  : res MinesweeperAI :=
  match obs with
  | [] => Done ai
  | (cell, count) :: obs' =>
      ai' ← add_knowledge fuel cell count ai;
      observe_all fuel obs' ai'
  end.


(** ** Predicates on states *)

(** Every reference of the knowledge list denotes an allocated object. *)
Definition valid (ai : MinesweeperAI) : Prop :=
  ∀ r, r ∈ knowledge ai → (r < length (heap ai))%nat.

(** No sentence of the knowledge list has an empty cell set. *)
Definition no_empty (ai : MinesweeperAI) : Prop :=
  ∀ s, s ∈ sentences ai → cells s ≠ ∅.

(** No sentence of the knowledge list mentions a cell already known to be a
    mine or to be safe. *)
Definition purged (ai : MinesweeperAI) : Prop :=
  ∀ s, s ∈ sentences ai → cells s ## mines ai ∪ safes ai.

(** The knowledge list is normalised: purged, free of duplicates (by
    value), free of empty sentences. *)
Definition normalized (ai : MinesweeperAI) : Prop :=
  purged ai ∧ NoDup (sentences ai) ∧ no_empty ai.

(** The AI plays on the [h] by [w] board: these are its dimensions, and
    every cell of every sentence, and every known mine, lies on the board. *)
Definition on_board (h w : Z) (ai : MinesweeperAI) : Prop :=
  (height ai = h ∧ width ai = w)
  ∧ (∀ s, s ∈ sentences ai → ∀ c, c ∈ cells s → in_bounds h w c)
  ∧ (∀ c, c ∈ mines ai → in_bounds h w c).

(** The observations a board produces: each reveals a cell that is not a
    mine, with the board's count of the mines around it. *)
Definition truthful (b : Minesweeper.t) (obs : list (Cell * Z)) : Prop :=
  Forall (λ o, Minesweeper.is_mine b o.1 = false
               ∧ o.2 = Minesweeper.nearby_mines b o.1) obs.

(** What the AI holds is true of the board [b]: the AI has the board's
    dimensions, each sentence counts the mines among its cells, known mines
    are mines, and known safes and moves are not. *)
Definition sound (b : Minesweeper.t) (ai : MinesweeperAI) : Prop :=
  (height ai = Minesweeper.height b ∧ width ai = Minesweeper.width b)
  ∧ (∀ s, s ∈ sentences ai →
          count s = Z.of_nat (size (cells s ∩ Minesweeper.mines b)))
  ∧ mines ai ⊆ Minesweeper.mines b
  ∧ safes ai ## Minesweeper.mines b
  ∧ moves_made ai ## Minesweeper.mines b.

(** ** A termination measure

    The knowledge list is measured by the multiset of the sizes of its
    sentences; multisets of numbers are compared at the largest size on
    which they differ. *)

Definition weight (s : Sentence) : nat := size (cells s).

Definition weights (ai : MinesweeperAI) : list nat := weight <$> sentences ai.

(** The number of occurrences of [j] in [l]. *)
Definition cnt (j : nat) (l : list nat) : nat := length (filter (j =.) l).

Definition lt_ms (l' l : list nat) : Prop :=
  ∃ m, (cnt m l' < cnt m l)%nat ∧ ∀ j, (m < j)%nat → cnt j l' = cnt j l.

Definition le_ms (l' l : list nat) : Prop :=
  lt_ms l' l ∨ ∀ j, cnt j l' = cnt j l.

(** [dominated l' l]: [l'] is obtained from [l] by dropping elements and
    lowering others. *)
Inductive dominated : list nat → list nat → Prop :=
  | dominated_nil : dominated [] []
  | dominated_shrink x' x l' l :
      (x' ≤ x)%nat → dominated l' l → dominated (x' :: l') (x :: l)
  | dominated_drop x l' l :
      dominated l' l → dominated l' (x :: l).

(** [shrunk ai0 ai]: the knowledge list of [ai] holds some of the objects
    of the list of [ai0], and no object has gained cells. *)
Definition shrunk (ai0 ai : MinesweeperAI) : Prop :=
  knowledge ai `sublist_of` knowledge ai0
  ∧ ∀ r, cells (deref (heap ai) r) ⊆ cells (deref (heap ai0) r).

(** [l.remove(s)] on a list of sentence values, doing nothing when [s] is
    not in the list. *)
Fixpoint remove_first_value (s : Sentence) (l : list Sentence) : list Sentence :=
  match l with
  | [] => []
  | x :: l' => if decide (x = s) then l' else x :: remove_first_value s l'
  end.

(** The sentence [extract_from_problem] derives from a pair. *)
Definition difference (h : list Sentence) (p : ref * ref) : Sentence :=
  mkSentence (cells (deref h p.2) ∖ cells (deref h p.1))
             (count (deref h p.2) - count (deref h p.1)).

(** The cells [add_neighbour_mines_knowledge] collects around [cell], and
    the neighbours it finds among the known mines. *)
Definition neighbour_cells (cell : Cell) (ai : MinesweeperAI) : list Cell :=
  filter (λ c, in_bounds (height ai) (width ai) c
               ∧ c ∉ mines ai ∧ c ∉ moves_made ai ∪ safes ai) (square cell).

Definition known_neighbour_mines (cell : Cell) (ai : MinesweeperAI) : list Cell :=
  filter (λ c, in_bounds (height ai) (width ai) c ∧ c ∈ mines ai) (square cell).

(** Known mines and known safes are kept apart, in the sentences too. *)
Definition apart (ai : MinesweeperAI) : Prop :=
  purged ai ∧ mines ai ## safes ai.

(** [grows ai0 ai]: the three sets of [ai] contain those of [ai0]. *)
Definition grows (ai0 ai : MinesweeperAI) : Prop :=
  mines ai0 ⊆ mines ai ∧ safes ai0 ⊆ safes ai ∧ moves_made ai0 ⊆ moves_made ai.

(** The states of a game on an [h] by [w] board in which no observation
    reveals a cell the AI already holds to be a mine; the counts observed
    are arbitrary. *)
Inductive played (h w : Z) : MinesweeperAI → Prop :=
  | played_init : played h w (init h w)
  | played_observe (ai ai' : MinesweeperAI) (fuel : nat) (cell : Cell) (n : Z) :
      played h w ai →
      cell ∉ mines ai →
      add_knowledge fuel cell n ai = Done ai' →
      played h w ai'.

(** ** The sentences of the worked example of the subset rule *)

Definition sentence_A : Sentence := mkSentence {[ (0, 0); (0, 1); (0, 2) ]} 1.

Definition sentence_B : Sentence :=
  mkSentence {[ (0, 0); (0, 1); (0, 2); (1, 0); (1, 1) ]} 2.

Definition sentence_B_minus_A : Sentence := mkSentence {[ (1, 0); (1, 1) ]} 1.

(** ** Building the board: [Minesweeper.__init__] *)

(** [random.randrange(n)]: the number below [n] that the draw selects; it
    raises [ValueError] when [n] is not positive. *)
Definition randrange (n : Z) (draw : nat) : res Z :=
  if decide (0 < n) then Done (Z.of_nat draw `mod` n) else Raised.

(** The loop [while len(self.mines) != mines] of [__init__]: each round
    draws a row and a column and mines the cell unless it is mined already.
    The list of draws is the fuel of the loop. *)
Fixpoint place_mines (height width mines : Z) (draws : list (nat * nat))
    (placed : gset Cell) : res (gset Cell) :=
  match draws with
  | [] => if decide (Z.of_nat (size placed) = mines) then Done placed else OutOfFuel
  | d :: draws' =>
      if decide (Z.of_nat (size placed) = mines) then Done placed
      else
        i ← randrange height d.1;
        j ← randrange width d.2;
        place_mines height width mines draws'
                    (if decide ((i, j) ∈ placed) then placed else {[ (i, j) ]} ∪ placed)
  end.

(** [Minesweeper(height, width, mines)] *)
Definition Minesweeper_init (height width mines : Z) (draws : list (nat * nat))
  : res Minesweeper.t :=
  placed ← place_mines height width mines draws ∅;
  Done (Minesweeper.mk height width placed).

(** The cells within one row and one column of [cell]. *)
Definition adjacent (cell c : Cell) : Prop :=
  (cell.1 - 1 ≤ c.1 ∧ c.1 ≤ cell.1 + 1) ∧ (cell.2 - 1 ≤ c.2 ∧ c.2 ≤ cell.2 + 1).

Global Instance adjacent_dec cell c : Decision (adjacent cell c).
Proof. unfold adjacent. apply _. Defined.

(** ** Saturation *)

(** A sentence from which nothing can be concluded directly: it has cells,
    and its count is neither zero nor the number of its cells. *)
Definition unresolved (s : Sentence) : Prop :=
  cells s ≠ ∅ ∧ count s ≠ 0 ∧ count s ≠ Z.of_nat (size (cells s)).

(** Neither of the two deductions applies to the knowledge list any more. *)
Definition saturated (ai : MinesweeperAI) : Prop :=
  (∀ s, s ∈ sentences ai → unresolved s)
  ∧ (∀ s1 s2, s1 ∈ sentences ai → s2 ∈ sentences ai → s1 ≠ s2 →
              ¬ cells s1 ⊆ cells s2).

(** A sentence is true of the mine set [M]. *)
Definition holds_of (M : gset Cell) (s : Sentence) : Prop :=
  count s = Z.of_nat (size (cells s ∩ M)).

(** The moves made are the cells of [X], and all of them are known to be
    safe. *)
Definition recorded (X : gset Cell) (ai : MinesweeperAI) : Prop :=
  moves_made ai = X ∧ X ⊆ safes ai.

(** Neither query of the sentence yields a cell. *)
Definition quiet (s : Sentence) : Prop :=
  truthy (Sent.known_mines s) = false ∧ truthy (Sent.known_safes s) = false.

(** No sentence has more than eight cells. *)
Definition small (ai : MinesweeperAI) : Prop :=
  ∀ s, s ∈ sentences ai → (size (cells s) ≤ 8)%nat.

(** ** The steps of direct resolution *)

(** What one sentence of the knowledge list lets [mark_safe_and_mine] do:
    when all its cells are mines, or none is, drop a sentence of that value
    from the list and mark the cells; when it has no cells, drop it. *)
Inductive resolution_step : MinesweeperAI → MinesweeperAI → Prop :=
  | resolve_mines_step (ai : MinesweeperAI) (k1 k2 : list ref) (r : ref) :
      knowledge ai = k1 ++ r :: k2 →
      Z.of_nat (size (cells (deref (heap ai) r))) = count (deref (heap ai) r) →
      resolution_step ai
        (foldl (λ a mine, mark_mine mine a) (set_knowledge (k1 ++ k2) ai)
               (elements (cells (deref (heap ai) r))))
  | resolve_safes_step (ai : MinesweeperAI) (k1 k2 : list ref) (r : ref) :
      knowledge ai = k1 ++ r :: k2 →
      count (deref (heap ai) r) = 0 →
      resolution_step ai
        (foldl (λ a safe, mark_safe safe a) (set_knowledge (k1 ++ k2) ai)
               (elements (cells (deref (heap ai) r))))
  | purge_step (ai : MinesweeperAI) (k1 k2 : list ref) (r : ref) :
      knowledge ai = k1 ++ r :: k2 →
      cells (deref (heap ai) r) = ∅ →
      resolution_step ai (set_knowledge (k1 ++ k2) ai).

(** [accounted ai0 ai]: the sets have grown, and every cell a sentence
    object has lost since [ai0] is a known mine or a known safe. *)
Definition accounted (ai0 ai : MinesweeperAI) : Prop :=
  grows ai0 ai
  ∧ ∀ r, cells (deref (heap ai0) r)
         ⊆ cells (deref (heap ai) r) ∪ (mines ai ∪ safes ai).

(** [settled ai0 ai]: moreover, every cell of a sentence that has left the
    knowledge list since [ai0] is a known mine or a known safe. *)
Definition settled (ai0 ai : MinesweeperAI) : Prop :=
  accounted ai0 ai
  ∧ ∀ r, r ∈ knowledge ai0 → r ∉ knowledge ai →
         cells (deref (heap ai0) r) ⊆ mines ai ∪ safes ai.

(** [tracked ai c]: the AI still has the cell [c] in view, as a known mine,
    a known safe, or a cell of some sentence of the knowledge list. *)
Definition tracked (ai : MinesweeperAI) (c : Cell) : Prop :=
  c ∈ mines ai ∨ c ∈ safes ai ∨ ∃ s, s ∈ sentences ai ∧ c ∈ cells s.
(** * Properties *)

(** ** Ranges *)

Lemma elem_of_zrange (a b x : Z) : x ∈ zrange a b ↔ a ≤ x ∧ x < b.
Proof.
  unfold zrange. rewrite list_elem_of_fmap. split.
  - intros (k & -> & Hk). apply elem_of_seq in Hk. lia.
  - intros [Ha Hb]. exists (Z.to_nat (x - a)). split; [lia|].
    apply elem_of_seq. lia.
Qed.

Lemma NoDup_zrange (a b : Z) : NoDup (zrange a b).
Proof.
  unfold zrange. apply NoDup_fmap_2; [|apply NoDup_seq].
  intros x y. lia.
Qed.

Lemma elem_of_random_choices (ai : MinesweeperAI) (c : Cell) :
  c ∈ random_choices ai ↔
  in_bounds (height ai) (width ai) c ∧ c ∉ mines ai ∧ c ∉ moves_made ai.
Proof.
  unfold random_choices, range, in_bounds. destruct c as [i j]; simpl.
  rewrite list_elem_of_bind. split.
  - intros (i' & Hin & Hi'). apply list_elem_of_bind in Hin as (j' & Hin & Hj').
    apply elem_of_zrange in Hi', Hj'.
    case_decide; [|by apply elem_of_nil in Hin].
    apply list_elem_of_singleton in Hin. simplify_eq.
    destruct H as [Hm Hv]. repeat split; (done || lia).
  - intros ([Hi Hj] & Hm & Hv). exists i. split; [|apply elem_of_zrange; lia].
    apply list_elem_of_bind. exists j. split; [|apply elem_of_zrange; lia].
    rewrite decide_True by done. by apply list_elem_of_singleton.
Qed.

(** Indexing a list at a position reduced modulo its length fails only on
    the empty list. *)
Lemma lookup_mod_None {A : Type} (l : list A) (n : nat) :
  l !! (n `mod` length l)%nat = None ↔ l = [].
Proof.
  split; [|by intros ->].
  intros H. destruct l as [|x l]; [done|]. apply lookup_ge_None in H.
  pose proof (Nat.mod_upper_bound n (length (x :: l))) as Hb.
  simpl in *. lia.
Qed.

(** ** Sentence queries *)

(** C6: [known_mines] returns the cells of the sentence exactly when the
    count equals the number of cells, and [None] ("unknown") otherwise;
    [known_safes] returns the cells exactly when the count is zero, and
    [None] otherwise.  The value returned lists each cell of the sentence
    once.  Both queries are functions of the sentence alone: the methods
    assign to no field, so there is no sentence afterwards other than the
    one they were called on. *)
Theorem known_mines_known_safes_spec (s : Sentence) :
  (Sent.known_mines s = Some (elements (cells s)) ↔
     count s = Z.of_nat (size (cells s)))
  ∧ (count s ≠ Z.of_nat (size (cells s)) → Sent.known_mines s = None)
  ∧ (Sent.known_safes s = Some (elements (cells s)) ↔ count s = 0)
  ∧ (count s ≠ 0 → Sent.known_safes s = None)
  ∧ (∀ l, Sent.known_mines s = Some l ∨ Sent.known_safes s = Some l →
          NoDup l ∧ ∀ c, c ∈ l ↔ c ∈ cells s).
Proof.
  unfold Sent.known_mines, Sent.known_safes. repeat split.
  - case_decide; [done|discriminate].
  - intros H. by rewrite decide_True.
  - intros H. by rewrite decide_False.
  - case_decide; [done|discriminate].
  - intros H. by rewrite decide_True.
  - intros H. by rewrite decide_False.
  - destruct H as [H|H]; case_decide; simplify_eq; apply NoDup_elements.
  - destruct H as [H|H]; case_decide; simplify_eq; by rewrite elem_of_elements.
  - destruct H as [H|H]; case_decide; simplify_eq; by rewrite elem_of_elements.
Qed.

(** ** Move selection *)

Lemma set_pop_None (pick : nat) (s : gset Cell) : set_pop pick s = None ↔ s = ∅.
Proof.
  unfold set_pop.
  destruct (elements s !! (pick `mod` length (elements s))%nat) as [c|] eqn:E.
  - split; [done|]. intros ->. by rewrite elements_empty in E.
  - split; [|done]. intros _. apply lookup_mod_None in E.
    by apply leibniz_equiv, elements_empty_inv.
Qed.

Lemma set_pop_Some (pick : nat) (s s' : gset Cell) (c : Cell) :
  set_pop pick s = Some (c, s') → c ∈ s ∧ s' = s ∖ {[c]}.
Proof.
  unfold set_pop.
  destruct (elements s !! (pick `mod` length (elements s))%nat) as [c'|] eqn:E;
    [|done].
  intros [= <- <-]. split; [|done].
  apply elem_of_elements. eapply list_elem_of_lookup_2, E.
Qed.

(** C7: [make_safe_move] returns a cell of [safes - moves_made] whenever
    that set is not empty and [None] when it is empty; a returned cell is
    never in [moves_made]; and the AI (its three sets, its knowledge list
    and every sentence object) is the same afterwards. *)
Theorem make_safe_move_spec (pick : nat) (ai : MinesweeperAI) :
  (make_safe_move pick ai).2 = ai
  ∧ (safes ai ∖ moves_made ai ≠ ∅ →
     ∃ c, (make_safe_move pick ai).1 = Some c ∧ c ∈ safes ai ∖ moves_made ai)
  ∧ (safes ai ∖ moves_made ai = ∅ → (make_safe_move pick ai).1 = None)
  ∧ (∀ c, (make_safe_move pick ai).1 = Some c → c ∈ safes ai ∧ c ∉ moves_made ai).
Proof.
  unfold make_safe_move.
  destruct (set_pop pick (safes ai ∖ moves_made ai)) as [[c s']|] eqn:E; simpl.
  - apply set_pop_Some in E as [Hc _]. repeat split.
    + intros _. by exists c.
    + intros He. rewrite He in Hc. set_solver.
    + simplify_eq. set_solver.
    + simplify_eq. set_solver.
  - apply set_pop_None in E. repeat split; try done.
Qed.

(** C8: [make_random_move] only returns board cells that are neither in
    [mines] nor in [moves_made]; it returns [None] exactly when every cell
    of the board is in [mines] or in [moves_made]; and whenever some board
    cell is neither, it returns a cell that is not in [moves_made]. *)
Theorem make_random_move_spec (rnd : nat) (ai : MinesweeperAI) :
  (∀ c, make_random_move rnd ai = Some c →
        c ∉ mines ai ∧ c ∉ moves_made ai ∧ in_bounds (height ai) (width ai) c)
  ∧ (make_random_move rnd ai = None ↔
     ∀ c, in_bounds (height ai) (width ai) c → c ∈ mines ai ∨ c ∈ moves_made ai)
  ∧ ((∃ c, in_bounds (height ai) (width ai) c ∧ c ∉ mines ai ∧ c ∉ moves_made ai) →
     ∃ c, make_random_move rnd ai = Some c ∧ c ∉ moves_made ai).
Proof.
  unfold make_random_move. split; [|split].
  - intros c Hc. apply list_elem_of_lookup_2, elem_of_random_choices in Hc.
    tauto.
  - rewrite lookup_mod_None. split.
    + intros He c Hb.
      destruct (decide (c ∈ mines ai)) as [|Hm]; [by left|].
      destruct (decide (c ∈ moves_made ai)) as [|Hv]; [by right|].
      assert (c ∈ random_choices ai) as Hin by by apply elem_of_random_choices.
      rewrite He in Hin. by apply elem_of_nil in Hin.
    + intros Hall. destruct (random_choices ai) as [|c l] eqn:E; [done|].
      assert (c ∈ random_choices ai) as Hin by (rewrite E; left).
      apply elem_of_random_choices in Hin as (Hb & Hm & Hv).
      destruct (Hall c Hb); done.
  - intros (c & Hc). apply elem_of_random_choices in Hc.
    destruct (random_choices ai !! (rnd `mod` length (random_choices ai))%nat)
      as [c'|] eqn:E.
    + exists c'. split; [done|].
      apply list_elem_of_lookup_2, elem_of_random_choices in E. tauto.
    + apply lookup_mod_None in E. rewrite E in Hc. by apply elem_of_nil in Hc.
Qed.

(** ** The object store *)

Lemma mark_mine_idemp (c : Cell) (s : Sentence) :
  Sent.mark_mine c (Sent.mark_mine c s) = Sent.mark_mine c s.
Proof.
  unfold Sent.mark_mine. destruct (decide (c ∈ cells s)); simpl.
  - rewrite decide_False; [done|]. simpl. set_solver.
  - by rewrite decide_False.
Qed.

Lemma mark_safe_idemp (c : Cell) (s : Sentence) :
  Sent.mark_safe c (Sent.mark_safe c s) = Sent.mark_safe c s.
Proof.
  unfold Sent.mark_safe. destruct (decide (c ∈ cells s)); simpl.
  - rewrite decide_False; [done|]. simpl. set_solver.
  - by rewrite decide_False.
Qed.

(** After [for sentence in k: sentence.f()] with an idempotent [f], exactly
    the objects referenced from [k] have been updated, once. *)
Lemma lookup_update_all (f : Sentence → Sentence) (k : list ref) (h : list Sentence)
    (i : ref) :
  (∀ s, f (f s) = f s) →
  update_all f k h !! i = (if decide (i ∈ k) then f else id) <$> h !! i.
Proof.
  intros Hf. unfold update_all. revert h. induction k as [|r k IH]; intros h; simpl.
  - by destruct (h !! i).
  - rewrite IH, list_lookup_alter.
    destruct (decide (r = i)) as [->|Hne].
    + rewrite (decide_True (P := i ∈ i :: k)) by left.
      destruct (h !! i) as [s|]; simpl; [|by case_decide].
      case_decide; simpl; by rewrite ?Hf.
    + destruct (decide (i ∈ k)) as [Hin|Hin].
      * by rewrite decide_True by by right.
      * rewrite decide_False; [done|]. rewrite elem_of_cons. naive_solver.
Qed.

Lemma length_update_all (f : Sentence → Sentence) (k : list ref) (h : list Sentence) :
  length (update_all f k h) = length h.
Proof.
  unfold update_all. revert h. induction k as [|r k IH]; intros h; simpl; [done|].
  by rewrite IH, length_alter.
Qed.

Lemma update_all_idemp (f : Sentence → Sentence) (k : list ref) (h : list Sentence) :
  (∀ s, f (f s) = f s) →
  update_all f k (update_all f k h) = update_all f k h.
Proof.
  intros Hf. apply list_eq. intros i. rewrite !lookup_update_all by done.
  destruct (h !! i) as [s|]; simpl; [|done].
  case_decide; simpl; by rewrite ?Hf.
Qed.

(** C9: the AI-level marking operations are idempotent on every state:
    marking the same cell safe twice in succession leaves the AI (its
    sets, its knowledge list and every sentence object) as after the first
    call, and likewise for marking it as a mine twice. *)
Theorem mark_twice_same (cell : Cell) (ai : MinesweeperAI) :
  mark_safe cell (mark_safe cell ai) = mark_safe cell ai
  ∧ mark_mine cell (mark_mine cell ai) = mark_mine cell ai.
Proof.
  split.
  - unfold mark_safe at 2 3. destruct (decide (cell ∈ safes ai)) as [Hin|Hin].
    + unfold mark_safe. by rewrite decide_True.
    + unfold mark_safe. rewrite decide_True; [done|]. simpl. set_solver.
  - unfold mark_mine, set_heap, set_mines; simpl. f_equal.
    + set_solver.
    + apply update_all_idemp, mark_mine_idemp.
Qed.

Lemma deref_update_all (f : Sentence → Sentence) (k : list ref) (h : list Sentence)
    (r : ref) :
  (∀ s, f (f s) = f s) → f inhabitant = inhabitant →
  deref (update_all f k h) r = if decide (r ∈ k) then f (deref h r) else deref h r.
Proof.
  intros Hf Hi. unfold deref. rewrite !list_lookup_total_alt, lookup_update_all by done.
  destruct (h !! r) as [s|]; simpl; case_decide; done.
Qed.

Lemma deref_app_l (h : list Sentence) (s : Sentence) (r : ref) :
  (r < length h)%nat → deref (h ++ [s]) r = deref h r.
Proof. intros Hr. unfold deref. by rewrite lookup_total_app_l. Qed.

Lemma deref_app_new (h : list Sentence) (s : Sentence) :
  deref (h ++ [s]) (length h) = s.
Proof. unfold deref. by rewrite list_lookup_total_middle. Qed.

Lemma sentences_update_all (f : Sentence → Sentence) (k : list ref) (h : list Sentence) :
  (∀ s, f (f s) = f s) → f inhabitant = inhabitant →
  deref (update_all f k h) <$> k = f <$> (deref h <$> k).
Proof.
  intros Hf Hi. rewrite <- list_fmap_compose. apply list_fmap_ext.
  intros i r Hr. simpl. rewrite deref_update_all by done.
  rewrite decide_True; [done|]. by eapply list_elem_of_lookup_2.
Qed.

Lemma sentences_mark_mine (c : Cell) (ai : MinesweeperAI) :
  sentences (mark_mine c ai) = Sent.mark_mine c <$> sentences ai.
Proof.
  unfold sentences, mark_mine; simpl.
  apply sentences_update_all; [apply mark_mine_idemp|done].
Qed.

Lemma sentences_mark_safe (c : Cell) (ai : MinesweeperAI) :
  c ∉ safes ai →
  sentences (mark_safe c ai) = Sent.mark_safe c <$> sentences ai.
Proof.
  intros Hc. unfold sentences, mark_safe. rewrite decide_False by done. simpl.
  apply sentences_update_all; [apply mark_safe_idemp|done].
Qed.

Lemma mark_safe_known (c : Cell) (ai : MinesweeperAI) :
  c ∈ safes ai → mark_safe c ai = ai.
Proof. intros Hc. unfold mark_safe. by rewrite decide_True. Qed.

Lemma knowledge_mark_mine (c : Cell) (ai : MinesweeperAI) :
  knowledge (mark_mine c ai) = knowledge ai.
Proof. done. Qed.

Lemma knowledge_mark_safe (c : Cell) (ai : MinesweeperAI) :
  knowledge (mark_safe c ai) = knowledge ai.
Proof. unfold mark_safe. by case_decide. Qed.

Lemma knowledge_mark_mines (l : list Cell) (ai : MinesweeperAI) :
  knowledge (foldl (λ a mine, mark_mine mine a) ai l) = knowledge ai.
Proof. revert ai. induction l as [|c l IH]; intros ai; simpl; [done|]. by rewrite IH. Qed.

Lemma knowledge_mark_safes (l : list Cell) (ai : MinesweeperAI) :
  knowledge (foldl (λ a safe, mark_safe safe a) ai l) = knowledge ai.
Proof.
  revert ai. induction l as [|c l IH]; intros ai; simpl; [done|].
  by rewrite IH, knowledge_mark_safe.
Qed.

(** *** Removing from the knowledge list *)

Lemma list_remove_first_sublist (h : list Sentence) (s : Sentence) (k k' : list ref) :
  list_remove_first h s k = Some k' →
  k' `sublist_of` k ∧ S (length k') = length k.
Proof.
  revert k'. induction k as [|r k IH]; intros k'; simpl; [done|].
  case_decide.
  - intros [= ->]. split; [by apply sublist_cons|done].
  - destruct (list_remove_first h s k) as [k''|]; simpl; [|done].
    intros [= <-]. destruct (IH k'' eq_refl) as [Hs Hl].
    split; [by apply sublist_skip|]. simpl. by rewrite Hl.
Qed.

Lemma list_remove_first_is_Some (h : list Sentence) (s : Sentence) (k : list ref) :
  s ∈ deref h <$> k ↔ is_Some (list_remove_first h s k).
Proof.
  induction k as [|r k IH]; simpl.
  - split; [by intros ?%elem_of_nil|by intros [??]].
  - rewrite elem_of_cons. case_decide as Hd.
    + split; [by eexists|by left].
    + rewrite fmap_is_Some, <- IH. naive_solver.
Qed.

Lemma list_remove_first_app_l (h : list Sentence) (s : Sentence) (k1 k2 : list ref) :
  s ∈ deref h <$> k1 →
  list_remove_first h s (k1 ++ k2) = (.++ k2) <$> list_remove_first h s k1.
Proof.
  induction k1 as [|r k1 IH]; simpl.
  - by intros ?%elem_of_nil.
  - rewrite elem_of_cons. intros Hin. case_decide as Hd; [done|].
    rewrite IH by naive_solver.
    by destruct (list_remove_first h s k1).
Qed.

Lemma list_remove_first_app_r (h : list Sentence) (s : Sentence) (k1 k2 : list ref) :
  s ∉ deref h <$> k1 →
  list_remove_first h s (k1 ++ k2) = (k1 ++.) <$> list_remove_first h s k2.
Proof.
  induction k1 as [|r k1 IH]; simpl.
  - intros _. by destruct (list_remove_first h s k2).
  - rewrite not_elem_of_cons. intros [Hne Hin]. rewrite decide_False by done.
    rewrite IH by done. by destruct (list_remove_first h s k2).
Qed.

(** Removing the value of a reference that is in the list always succeeds,
    and the element dropped is that reference or one before it. *)
Lemma list_remove_first_own (h : list Sentence) (kept rest : list ref) (r : ref) :
  ∃ kept', list_remove_first h (deref h r) (kept ++ r :: rest) = Some (kept' ++ rest)
           ∧ kept' `sublist_of` kept ++ [r] ∧ length kept' = length kept.
Proof.
  assert (deref h r ∈ deref h <$> (kept ++ [r])) as Hin.
  { rewrite fmap_app. apply elem_of_app. right. simpl. left. }
  pose proof Hin as Hs. apply list_remove_first_is_Some in Hs as [kept' Hk].
  exists kept'. rewrite (assoc_L _ kept [r] rest : kept ++ r :: rest = (kept ++ [r]) ++ rest).
  rewrite list_remove_first_app_l, Hk by done.
  apply list_remove_first_sublist in Hk as [Hsub Hl].
  rewrite length_app in Hl. simpl in Hl. split; [done|]. split; [done|lia].
Qed.

(** ** More fuel does not change a result *)

Lemma resolution_loop_mono (fuel fuel' : nat) (ai ai' : MinesweeperAI) :
  resolution_loop fuel ai = Done ai' → (fuel ≤ fuel')%nat →
  resolution_loop fuel' ai = Done ai'.
Proof.
  revert fuel' ai. induction fuel as [|fuel IH]; intros fuel' ai; [done|].
  intros H Hle. destruct fuel' as [|fuel']; [lia|]. cbn [resolution_loop] in *.
  destruct (for_each resolve (knowledge ai) (ai, false)) as [[ai1 [|]]| |];
    simpl in *; try done.
  apply IH; [done|lia].
Qed.

Lemma mark_safe_and_mine_mono (fuel fuel' : nat) (ai ai' : MinesweeperAI) :
  mark_safe_and_mine fuel ai = Done ai' → (fuel ≤ fuel')%nat →
  mark_safe_and_mine fuel' ai = Done ai'.
Proof.
  unfold mark_safe_and_mine. intros H Hle.
  destruct (resolution_loop fuel ai) as [ai1| |] eqn:E; simpl in H; try done.
  by rewrite (resolution_loop_mono _ _ _ _ E Hle).
Qed.

Lemma extract_from_problem_mono (fuel fuel' : nat) (ai ai' : MinesweeperAI) :
  extract_from_problem fuel ai = Done ai' → (fuel ≤ fuel')%nat →
  extract_from_problem fuel' ai = Done ai'.
Proof.
  revert fuel' ai. induction fuel as [|fuel IH]; intros fuel' ai; [done|].
  intros H Hle. destruct fuel' as [|fuel']; [lia|]. cbn [extract_from_problem] in *.
  destruct (negb _); [|done].
  destruct (mark_safe_and_mine fuel _) as [ai1| |] eqn:E; simpl in H; try done.
  rewrite (mark_safe_and_mine_mono _ fuel' _ _ E) by lia. simpl.
  apply IH; [done|lia].
Qed.

Lemma add_knowledge_mono (fuel fuel' : nat) (cell : Cell) (n : Z)
    (ai ai' : MinesweeperAI) :
  add_knowledge fuel cell n ai = Done ai' → (fuel ≤ fuel')%nat →
  add_knowledge fuel' cell n ai = Done ai'.
Proof.
  unfold add_knowledge. intros H Hle.
  destruct (mark_safe_and_mine fuel _) as [ai1| |] eqn:E; simpl in H; try done.
  rewrite (mark_safe_and_mine_mono _ fuel' _ _ E) by lia. simpl.
  by apply (extract_from_problem_mono fuel).
Qed.

Lemma observe_all_mono (fuel fuel' : nat) (obs : list (Cell * Z))
    (ai ai' : MinesweeperAI) :
  observe_all fuel obs ai = Done ai' → (fuel ≤ fuel')%nat →
  observe_all fuel' obs ai = Done ai'.
Proof.
  revert ai. induction obs as [|[cell n] obs IH]; intros ai H Hle; [done|].
  cbn [observe_all] in *.
  destruct (add_knowledge fuel cell n ai) as [ai1| |] eqn:E; simpl in H; try done.
  rewrite (add_knowledge_mono _ fuel' _ _ _ _ E) by lia. simpl.
  by apply IH.
Qed.

Lemma observe_all_app (fuel : nat) (obs1 obs2 : list (Cell * Z)) (ai : MinesweeperAI) :
  observe_all fuel (obs1 ++ obs2) ai
  = ai' ← observe_all fuel obs1 ai; observe_all fuel obs2 ai'.
Proof.
  revert ai. induction obs1 as [|[cell n] obs1 IH]; intros ai; [done|].
  cbn [observe_all app].
  destruct (add_knowledge fuel cell n ai) as [ai1| |]; simpl; [|done..].
  apply IH.
Qed.

(** ** Direct resolution: [mark_safe_and_mine] *)

Lemma truthy_known_mines (s : Sentence) :
  truthy (Sent.known_mines s) = true →
  Z.of_nat (size (cells s)) = count s
  ∧ Sent.known_mines s = Some (elements (cells s))
  ∧ cells s ≠ ∅.
Proof.
  unfold Sent.known_mines. case_decide; [|done]. simpl.
  destruct (elements (cells s)) eqn:E; [done|]. intros _.
  split; [done|]. split; [done|]. intros He. rewrite He, elements_empty in E. done.
Qed.

Lemma truthy_known_safes (s : Sentence) :
  truthy (Sent.known_safes s) = true →
  count s = 0
  ∧ Sent.known_safes s = Some (elements (cells s))
  ∧ cells s ≠ ∅.
Proof.
  unfold Sent.known_safes. case_decide; [|done]. simpl.
  destruct (elements (cells s)) eqn:E; [done|]. intros _.
  split; [done|]. split; [done|]. intros He. rewrite He, elements_empty in E. done.
Qed.

(** A sentence cannot yield mines and safes at once. *)
Lemma truthy_exclusive (s : Sentence) :
  truthy (Sent.known_mines s) = true → truthy (Sent.known_safes s) = true → False.
Proof.
  intros (Hm & _ & Hne)%truthy_known_mines (Hs & _ & _)%truthy_known_safes.
  apply Hne, leibniz_equiv, size_empty_inv. lia.
Qed.

Section resolution.

(** A property of the AI that survives dropping sentences from the
    knowledge list and resolving a sentence of the list, survives
    [mark_safe_and_mine]. *)
Variable Inv : MinesweeperAI → Prop.

Hypothesis Inv_drop : ∀ ai k',
  Inv ai → k' `sublist_of` knowledge ai → Inv (set_knowledge k' ai).

Hypothesis Inv_mines : ∀ ai r k',
  Inv ai → r ∈ knowledge ai →
  Z.of_nat (size (cells (deref (heap ai) r))) = count (deref (heap ai) r) →
  k' `sublist_of` knowledge ai →
  Inv (foldl (λ a mine, mark_mine mine a) (set_knowledge k' ai)
             (elements (cells (deref (heap ai) r)))).

Hypothesis Inv_safes : ∀ ai r k',
  Inv ai → r ∈ knowledge ai →
  count (deref (heap ai) r) = 0 →
  k' `sublist_of` knowledge ai →
  Inv (foldl (λ a safe, mark_safe safe a) (set_knowledge k' ai)
             (elements (cells (deref (heap ai) r)))).

Lemma resolve_spec (kept rest : list ref) (r : ref) (ai : MinesweeperAI) (flag : bool) :
  knowledge ai = kept ++ r :: rest → Inv ai →
  ∃ ai' flag' kept',
    resolve r (ai, flag) = Done (ai', flag')
    ∧ knowledge ai' = kept' ++ rest
    ∧ Inv ai'
    ∧ ((flag' = flag ∧ kept' = kept ++ [r])
       ∨ (flag' = true ∧ length kept' = length kept)).
Proof.
  intros Hk HI.
  assert (r ∈ knowledge ai) as Hr by (rewrite Hk; set_solver).
  destruct (list_remove_first_own (heap ai) kept rest r) as (kept' & Hrm & Hsub & Hlen).
  assert (kept' ++ rest `sublist_of` knowledge ai) as Hsub'.
  { rewrite Hk, (assoc_L _ kept [r] rest : kept ++ r :: rest = (kept ++ [r]) ++ rest).
    by apply sublist_app. }
  unfold resolve, knowledge_remove. rewrite Hk, Hrm.
  destruct (truthy (Sent.known_mines (deref (heap ai) r))) eqn:Em;
    destruct (truthy (Sent.known_safes (deref (heap ai) r))) eqn:Es; simpl.
  - destruct (truthy_exclusive _ Em Es).
  - apply truthy_known_mines in Em as (Hc & -> & _). simpl.
    eexists _, true, kept'. split; [done|].
    rewrite knowledge_mark_mines. split; [done|]. split; [|by right].
    by apply Inv_mines.
  - apply truthy_known_safes in Es as (Hc & -> & _). simpl.
    eexists _, true, kept'. split; [done|].
    rewrite knowledge_mark_safes. split; [done|]. split; [|by right].
    by apply Inv_safes.
  - eexists ai, flag, (kept ++ [r]). split; [done|].
    rewrite Hk, <- (assoc_L _ kept [r] rest). split; [done|]. split; [done|by left].
Qed.

Lemma for_each_resolve_spec (rest : list ref) :
  ∀ (kept : list ref) (ai : MinesweeperAI) (flag : bool),
    knowledge ai = kept ++ rest → Inv ai →
    ∃ ai' flag',
      for_each resolve rest (ai, flag) = Done (ai', flag')
      ∧ Inv ai'
      ∧ ((flag' = flag ∧ length (knowledge ai') = length (knowledge ai))
         ∨ (flag' = true ∧ (length (knowledge ai') < length (knowledge ai))%nat)).
Proof.
  induction rest as [|r rest IH]; intros kept ai flag Hk HI; cbn [for_each].
  - exists ai, flag. split; [done|]. split; [done|by left].
  - destruct (resolve_spec kept rest r ai flag Hk HI)
      as (ai1 & flag1 & kept1 & -> & Hk1 & HI1 & Hcase). simpl.
    destruct (IH kept1 ai1 flag1 Hk1 HI1) as (ai2 & flag2 & -> & HI2 & Hcase2).
    exists ai2, flag2. split; [done|]. split; [done|].
    assert ((flag1 = flag ∧ length (knowledge ai1) = length (knowledge ai))
            ∨ (flag1 = true ∧ length (knowledge ai1) < length (knowledge ai))%nat)
      as Hl1.
    { rewrite Hk, Hk1, !length_app. simpl.
      destruct Hcase as [[-> ->]|[-> Hl]]; [left|right].
      - rewrite length_app. simpl. split; [done|lia].
      - split; [done|lia]. }
    destruct Hl1 as [[-> Hl1]|[-> Hl1]], Hcase2 as [[-> Hl2]|[-> Hl2]].
    + left. split; [done|lia].
    + right. split; [done|lia].
    + right. split; [done|lia].
    + right. split; [done|lia].
Qed.

(** The [while] loop stops within as many rounds as there are sentences,
    plus one: every round that sets the flag drops a sentence. *)
Lemma resolution_loop_spec (fuel : nat) :
  ∀ ai, (length (knowledge ai) < fuel)%nat → Inv ai →
    ∃ ai', resolution_loop fuel ai = Done ai' ∧ Inv ai'.
Proof.
  induction fuel as [|fuel IH]; intros ai Hf HI; [lia|]. cbn [resolution_loop].
  destruct (for_each_resolve_spec (knowledge ai) [] ai false eq_refl HI)
    as (ai1 & flag1 & -> & HI1 & Hcase). simpl.
  destruct Hcase as [[-> Hl]|[-> Hl]].
  - by exists ai1.
  - apply IH; [lia|done].
Qed.

(** The final loop drops exactly the sentences without cells. *)
Lemma for_each_purge_spec (rest : list ref) :
  ∀ (kept : list ref) (ai : MinesweeperAI),
    knowledge ai = kept ++ rest →
    (∀ r, r ∈ kept → cells (deref (heap ai) r) ≠ ∅) →
    Inv ai →
    ∃ ai', for_each purge rest ai = Done ai' ∧ Inv ai' ∧ no_empty ai'.
Proof.
  induction rest as [|r rest IH]; intros kept ai Hk Hkept HI; cbn [for_each].
  - exists ai. split; [done|]. split; [done|].
    intros s Hs. unfold sentences in Hs. rewrite Hk, app_nil_r in Hs.
    apply list_elem_of_fmap in Hs as (r & -> & Hr). by apply Hkept.
  - destruct (decide (cells (deref (heap ai) r) = ∅)) as [He|He].
    + assert (purge r ai = Done (set_knowledge (kept ++ rest) ai)) as ->.
      { unfold purge, knowledge_remove. rewrite decide_True, Hk by done.
        rewrite list_remove_first_app_r; simpl.
        - by rewrite decide_True.
        - intros (r' & Heq & Hr')%list_elem_of_fmap.
          apply (Hkept r' Hr'). by rewrite <- Heq. }
      simpl. apply (IH kept); [done|done|].
      apply Inv_drop; [done|]. rewrite Hk.
      apply sublist_app; [done|by apply sublist_cons].
    + assert (purge r ai = Done ai) as ->.
      { unfold purge. by rewrite decide_False. }
      simpl. apply (IH (kept ++ [r])).
      * by rewrite Hk, <- (assoc_L _ kept [r] rest).
      * intros r' [Hr'|Hr']%elem_of_app; [by apply Hkept|].
        apply list_elem_of_singleton in Hr'. by subst.
      * done.
Qed.

Lemma mark_safe_and_mine_spec (fuel : nat) (ai : MinesweeperAI) :
  (length (knowledge ai) < fuel)%nat → Inv ai →
  ∃ ai', mark_safe_and_mine fuel ai = Done ai' ∧ Inv ai' ∧ no_empty ai'.
Proof.
  intros Hf HI. unfold mark_safe_and_mine.
  destruct (resolution_loop_spec fuel ai Hf HI) as (ai1 & -> & HI1). simpl.
  apply (for_each_purge_spec (knowledge ai1) []); [done| |done].
  by intros r ?%elem_of_nil.
Qed.

Lemma mark_safe_and_mine_preserves (fuel : nat) (ai ai' : MinesweeperAI) :
  mark_safe_and_mine fuel ai = Done ai' → Inv ai → Inv ai' ∧ no_empty ai'.
Proof.
  intros Hrun HI.
  destruct (mark_safe_and_mine_spec (fuel `max` S (length (knowledge ai))) ai)
    as (ai'' & Hrun' & HI' & Hne); [lia|done|].
  rewrite (mark_safe_and_mine_mono _ _ _ _ Hrun) in Hrun' by lia.
  by simplify_eq.
Qed.

End resolution.

(** ** Marking several cells *)

Lemma foldl_mark_mine_ind (P : MinesweeperAI → Prop) (ok : Cell → Prop)
    (l : list Cell) (ai : MinesweeperAI) :
  (∀ a c, P a → ok c → P (mark_mine c a)) →
  Forall ok l → P ai → P (foldl (λ a mine, mark_mine mine a) ai l).
Proof.
  intros Hstep Hl. revert ai. induction Hl as [|c l Hc Hl IH]; intros ai HP; simpl.
  - done.
  - by apply IH, Hstep.
Qed.

Lemma foldl_mark_safe_ind (P : MinesweeperAI → Prop) (ok : Cell → Prop)
    (l : list Cell) (ai : MinesweeperAI) :
  (∀ a c, P a → ok c → P (mark_safe c a)) →
  Forall ok l → P ai → P (foldl (λ a safe, mark_safe safe a) ai l).
Proof.
  intros Hstep Hl. revert ai. induction Hl as [|c l Hc Hl IH]; intros ai HP; simpl.
  - done.
  - by apply IH, Hstep.
Qed.

Lemma Forall_elements_cells (ok : Cell → Prop) (s : Sentence) :
  (∀ c, c ∈ cells s → ok c) → Forall ok (elements (cells s)).
Proof. intros H. apply Forall_forall. intros c Hc. by apply H, elem_of_elements. Qed.

(** ** References stay valid *)

Lemma valid_drop (ai : MinesweeperAI) (k' : list ref) :
  valid ai → k' `sublist_of` knowledge ai → valid (set_knowledge k' ai).
Proof. intros Hv Hs r Hr. apply Hv. by eapply elem_of_sublist. Qed.

Lemma valid_mark_mine (c : Cell) (ai : MinesweeperAI) :
  valid ai → valid (mark_mine c ai).
Proof.
  intros Hv r Hr. unfold mark_mine; simpl. rewrite length_update_all. by apply Hv.
Qed.

Lemma valid_mark_safe (c : Cell) (ai : MinesweeperAI) :
  valid ai → valid (mark_safe c ai).
Proof.
  intros Hv. unfold mark_safe. case_decide; [done|].
  intros r Hr. simpl. rewrite length_update_all. by apply Hv.
Qed.

Lemma valid_append (s : Sentence) (ai : MinesweeperAI) :
  valid ai → valid (append_sentence s ai).
Proof.
  intros Hv r. unfold append_sentence; simpl. rewrite length_app; simpl.
  intros [Hr|Hr]%elem_of_app.
  - apply Hv in Hr. lia.
  - apply list_elem_of_singleton in Hr. lia.
Qed.

Lemma sentences_append (s : Sentence) (ai : MinesweeperAI) :
  valid ai → sentences (append_sentence s ai) = sentences ai ++ [s].
Proof.
  intros Hv. unfold sentences, append_sentence; simpl.
  rewrite fmap_app; simpl. rewrite deref_app_new. f_equal.
  apply list_fmap_ext. intros i r Hr. apply deref_app_l, Hv.
  by eapply list_elem_of_lookup_2.
Qed.

Lemma valid_resolve_mines (ai : MinesweeperAI) (k' : list ref) (l : list Cell) :
  valid ai → k' `sublist_of` knowledge ai →
  valid (foldl (λ a mine, mark_mine mine a) (set_knowledge k' ai) l).
Proof.
  intros Hv Hs.
  apply (foldl_mark_mine_ind valid (λ _, True)); [by auto using valid_mark_mine| |].
  - by apply Forall_true.
  - by apply valid_drop.
Qed.

Lemma valid_resolve_safes (ai : MinesweeperAI) (k' : list ref) (l : list Cell) :
  valid ai → k' `sublist_of` knowledge ai →
  valid (foldl (λ a safe, mark_safe safe a) (set_knowledge k' ai) l).
Proof.
  intros Hv Hs.
  apply (foldl_mark_safe_ind valid (λ _, True)); [by auto using valid_mark_safe| |].
  - by apply Forall_true.
  - by apply valid_drop.
Qed.

Lemma valid_mark_safe_and_mine (fuel : nat) (ai ai' : MinesweeperAI) :
  mark_safe_and_mine fuel ai = Done ai' → valid ai → valid ai' ∧ no_empty ai'.
Proof.
  apply mark_safe_and_mine_preserves.
  - apply valid_drop.
  - intros a r k' Hv _ _ Hs. by apply valid_resolve_mines.
  - intros a r k' Hv _ _ Hs. by apply valid_resolve_safes.
Qed.

(** ** Removing duplicates *)

Lemma dedupe_spec (h : list Sentence) (k : list ref) :
  ∀ new : list ref,
    NoDup (deref h <$> new) →
    ∃ add,
      foldl (λ new sentence,
               if sentence_in h sentence new then new else new ++ [sentence]) new k
      = new ++ add
      ∧ add `sublist_of` k
      ∧ NoDup (deref h <$> new ++ add).
Proof.
  induction k as [|r k IH]; intros new Hnd; simpl.
  - exists []. rewrite app_nil_r. split; [done|]. split; [done|done].
  - unfold sentence_in at 2. case_bool_decide as Hin.
    + destruct (IH new Hnd) as (add & -> & Hs & Hnd'). exists add.
      split; [done|]. split; [by apply sublist_cons|done].
    + destruct (IH (new ++ [r])) as (add & -> & Hs & Hnd').
      { rewrite fmap_app. apply NoDup_app. split; [done|]. split.
        - intros s Hs [->|[]%elem_of_nil]%elem_of_cons. done.
        - apply NoDup_singleton. }
      exists (r :: add). rewrite <- (assoc_L _ new [r] add) in *.
      split; [done|]. split; [by apply sublist_skip|done].
Qed.

Lemma knowledge_remove_same_sentence (ai : MinesweeperAI) :
  knowledge (remove_same_sentence ai) `sublist_of` knowledge ai
  ∧ NoDup (sentences (remove_same_sentence ai)).
Proof.
  unfold remove_same_sentence, sentences; simpl.
  destruct (dedupe_spec (heap ai) (knowledge ai) []) as (add & -> & Hs & Hnd).
  { simpl. apply NoDup_nil_2. }
  done.
Qed.

Lemma remove_same_sentence_eq (ai : MinesweeperAI) :
  remove_same_sentence ai = set_knowledge (knowledge (remove_same_sentence ai)) ai.
Proof. done. Qed.

(** ** Pairs of sentences *)

Lemma elem_of_permutations2 {A : Type} (l : list A) (x y : A) :
  (x, y) ∈ permutations2 l → x ∈ l ∧ y ∈ l.
Proof.
  unfold permutations2. intros ([i x'] & Hin & Hx)%list_elem_of_bind.
  apply list_elem_of_bind in Hin as ([j y'] & Hin & Hy). simpl in Hin.
  case_decide; [by apply elem_of_nil in Hin|].
  apply list_elem_of_singleton in Hin. simplify_eq.
  apply elem_of_lookup_imap in Hx as (i' & x'' & ? & Hx).
  apply elem_of_lookup_imap in Hy as (j' & y'' & ? & Hy). simplify_eq.
  split; by eapply list_elem_of_lookup_2.
Qed.

Lemma elem_of_subset_pairs (ai : MinesweeperAI) (p : ref * ref) :
  p ∈ subset_pairs ai →
  p.1 ∈ knowledge ai ∧ p.2 ∈ knowledge ai
  ∧ cells (deref (heap ai) p.1) ⊆ cells (deref (heap ai) p.2).
Proof.
  unfold subset_pairs. intros [Hsub Hin]%list_elem_of_filter.
  destruct p as [r1 r2]. apply elem_of_permutations2 in Hin as [??]. done.
Qed.

(** ** Subset deduction: [extract_from_problem] *)

Lemma set_knowledge_same (ai : MinesweeperAI) : set_knowledge (knowledge ai) ai = ai.
Proof. by destruct ai. Qed.

Lemma discard_drop (ai : MinesweeperAI) (r : ref) :
  ∃ k', discard ai r = set_knowledge k' ai ∧ k' `sublist_of` knowledge ai.
Proof.
  unfold discard. destruct (sentence_in _ _ _).
  - destruct (list_remove_first _ _ _) as [k'|] eqn:E.
    + exists k'. split; [done|]. by apply list_remove_first_sublist in E as [??].
    + exists (knowledge ai). by rewrite set_knowledge_same.
  - exists (knowledge ai). by rewrite set_knowledge_same.
Qed.

Lemma valid_derive (ai : MinesweeperAI) (p : ref * ref) :
  valid ai → valid (derive ai p).
Proof. apply valid_append. Qed.

Section extraction.

(** A property that moreover survives adding the difference of two
    sentences of the list, one included in the other, survives
    [extract_from_problem]. *)
Variable Inv : MinesweeperAI → Prop.

Hypothesis Inv_drop : ∀ ai k',
  Inv ai → k' `sublist_of` knowledge ai → Inv (set_knowledge k' ai).

Hypothesis Inv_mines : ∀ ai r k',
  Inv ai → r ∈ knowledge ai →
  Z.of_nat (size (cells (deref (heap ai) r))) = count (deref (heap ai) r) →
  k' `sublist_of` knowledge ai →
  Inv (foldl (λ a mine, mark_mine mine a) (set_knowledge k' ai)
             (elements (cells (deref (heap ai) r)))).

Hypothesis Inv_safes : ∀ ai r k',
  Inv ai → r ∈ knowledge ai →
  count (deref (heap ai) r) = 0 →
  k' `sublist_of` knowledge ai →
  Inv (foldl (λ a safe, mark_safe safe a) (set_knowledge k' ai)
             (elements (cells (deref (heap ai) r)))).

Hypothesis Inv_derive : ∀ ai p,
  valid ai → Inv ai →
  p.1 ∈ knowledge ai → p.2 ∈ knowledge ai →
  cells (deref (heap ai) p.1) ⊆ cells (deref (heap ai) p.2) →
  Inv (derive ai p).

Lemma foldl_derive_preserves (pairs : list (ref * ref)) :
  ∀ ai, valid ai → Inv ai →
    (∀ p, p ∈ pairs →
          p.1 ∈ knowledge ai ∧ p.2 ∈ knowledge ai
          ∧ cells (deref (heap ai) p.1) ⊆ cells (deref (heap ai) p.2)) →
    valid (foldl derive ai pairs) ∧ Inv (foldl derive ai pairs).
Proof using Inv_derive.
  induction pairs as [|p pairs IH]; intros ai Hv HI Hp; simpl; [done|].
  destruct (Hp p) as (H1 & H2 & Hsub); [left|].
  apply IH; [by apply valid_derive|by apply Inv_derive|].
  intros q Hq. destruct (Hp q) as (Hq1 & Hq2 & Hqs); [by right|].
  unfold derive, append_sentence; simpl.
  rewrite !deref_app_l by by apply Hv.
  split; [|split]; [apply elem_of_app; by left..|done].
Qed.

Lemma foldl_discard_preserves (rs : list ref) :
  ∀ ai, valid ai → Inv ai → valid (foldl discard ai rs) ∧ Inv (foldl discard ai rs).
Proof using Inv_drop.
  induction rs as [|r rs IH]; intros ai Hv HI; simpl; [done|].
  destruct (discard_drop ai r) as (k' & -> & Hs).
  apply IH; [by apply valid_drop|by apply Inv_drop].
Qed.

Lemma extract_from_problem_preserves (fuel : nat) :
  ∀ ai ai', extract_from_problem fuel ai = Done ai' →
    valid ai → Inv ai → valid ai' ∧ Inv ai'.
Proof.
  induction fuel as [|fuel IH]; intros ai ai' Hrun Hv HI; [done|].
  cbn [extract_from_problem] in Hrun.
  destruct (knowledge_remove_same_sentence ai) as [Hsub _].
  assert (valid (remove_same_sentence ai)) as Hv0
    by (rewrite remove_same_sentence_eq; by apply valid_drop).
  assert (Inv (remove_same_sentence ai)) as HI0
    by (rewrite remove_same_sentence_eq; by apply Inv_drop).
  destruct (foldl_derive_preserves (subset_pairs (remove_same_sentence ai))
              (remove_same_sentence ai) Hv0 HI0) as [Hv1 HI1].
  { intros p. apply elem_of_subset_pairs. }
  destruct (foldl_discard_preserves
              ((subset_pairs (remove_same_sentence ai)).*2) _ Hv1 HI1) as [Hv2 HI2].
  destruct (negb _).
  - destruct (mark_safe_and_mine fuel _) as [ai3| |] eqn:E; simpl in Hrun; try done.
    apply IH in Hrun; [done| |].
    + by eapply valid_mark_safe_and_mine.
    + by eapply (mark_safe_and_mine_preserves Inv).
  - by simplify_eq.
Qed.

Lemma add_knowledge_preserves (fuel : nat) (cell : Cell) (n : Z)
    (ai ai' : MinesweeperAI) :
  add_knowledge fuel cell n ai = Done ai' →
  valid ai →
  Inv (add_neighbour_mines_knowledge cell n
         (mark_safe cell (set_moves_made ({[cell]} ∪ moves_made ai) ai))) →
  valid ai' ∧ Inv ai'.
Proof.
  unfold add_knowledge. intros Hrun Hv HI.
  destruct (mark_safe_and_mine fuel _) as [ai1| |] eqn:E; simpl in Hrun; try done.
  apply extract_from_problem_preserves in Hrun; [done| |].
  - eapply valid_mark_safe_and_mine; [done|].
    unfold add_neighbour_mines_knowledge. destruct (foldl _ _ _) as [cs n'].
    by apply valid_append, valid_mark_safe.
  - by eapply (mark_safe_and_mine_preserves Inv).
Qed.

End extraction.

(** ** The order on multisets of sizes is well founded *)

Lemma cnt_nil (j : nat) : cnt j [] = 0%nat.
Proof. done. Qed.

Lemma cnt_cons (j x : nat) (l : list nat) :
  cnt j (x :: l) = ((if decide (j = x) then 1 else 0) + cnt j l)%nat.
Proof. unfold cnt. rewrite filter_cons. by case_decide. Qed.

Lemma cnt_app (j : nat) (l1 l2 : list nat) :
  cnt j (l1 ++ l2) = (cnt j l1 + cnt j l2)%nat.
Proof. unfold cnt. by rewrite filter_app, length_app. Qed.

Lemma cnt_pos (j : nat) (l : list nat) : (0 < cnt j l)%nat ↔ j ∈ l.
Proof.
  induction l as [|x l IH].
  - rewrite cnt_nil. split; [lia|by intros ?%elem_of_nil].
  - rewrite cnt_cons, elem_of_cons. case_decide; [naive_solver lia|].
    rewrite <- IH. naive_solver lia.
Qed.

Lemma cnt_zero (j : nat) (l : list nat) : j ∉ l → cnt j l = 0%nat.
Proof. rewrite <- cnt_pos. lia. Qed.

Lemma cnt_filter_below (K j : nat) (l : list nat) :
  cnt j (filter (λ x, x < K)%nat l) = if decide (j < K)%nat then cnt j l else 0%nat.
Proof.
  induction l as [|x l IH]; [by case_decide|].
  rewrite filter_cons. destruct (decide (x < K)%nat) as [Hx|Hx].
  - rewrite !cnt_cons, IH. repeat case_decide; lia.
  - rewrite cnt_cons, IH. repeat case_decide; lia.
Qed.

Lemma lt_ms_bounded (K : nat) (l' l : list nat) :
  lt_ms l' l → (∀ x, x ∈ l → x < K)%nat → ∀ x, x ∈ l' → (x < K)%nat.
Proof.
  intros (m & Hm & Hhi) Hl x Hx.
  destruct (decide (x < K)%nat) as [|Hge]; [done|]. exfalso.
  assert (m ∈ l) as Hml by (apply cnt_pos; lia).
  apply Hl in Hml. apply cnt_pos in Hx.
  rewrite Hhi in Hx by lia. apply cnt_pos, Hl in Hx. lia.
Qed.

Lemma lt_ms_acc_bounded (K : nat) :
  ∀ l, (∀ x, x ∈ l → x < K)%nat → Acc lt_ms l.
Proof.
  induction K as [|K IHK]; intros l Hl.
  - constructor. intros l' (m & Hm & _).
    assert (m ∈ l) as Hml by (apply cnt_pos; lia). apply Hl in Hml. lia.
  - assert (∀ n l0, Acc lt_ms l0 → (∀ x, x ∈ l0 → x < K)%nat →
            ∀ l, (∀ x, x ∈ l → x < S K)%nat → cnt K l = n →
                 (∀ j, j < K → cnt j l = cnt j l0)%nat → Acc lt_ms l) as Haux.
    { clear l Hl. intros n. induction n as [n IHn] using lt_wf_ind.
      intros l0 Hacc. induction Hacc as [l0 _ IHacc].
      intros Hl0 l Hl Hn Hlow. constructor. intros l' Hlt.
      pose proof (lt_ms_bounded _ _ _ Hlt Hl) as Hl'.
      destruct Hlt as (m & Hm & Hhi).
      assert (∀ x, x ∈ filter (λ x, x < K)%nat l' → x < K)%nat as Hf
        by (by intros x [??]%list_elem_of_filter).
      destruct (lt_eq_lt_dec m K) as [[Hlt| ->]|Hgt].
      - apply (IHacc (filter (λ x, x < K)%nat l')); [|done|done| |].
        + exists m. split.
          * rewrite cnt_filter_below, decide_True, <- Hlow by done. done.
          * intros j Hj. rewrite cnt_filter_below. case_decide.
            -- rewrite <- Hlow by done. by apply Hhi.
            -- symmetry. apply cnt_zero. intros ?%Hl0. lia.
        + rewrite <- Hn. by apply Hhi.
        + intros j Hj. by rewrite cnt_filter_below, decide_True.
      - apply (IHn (cnt K l') ltac:(lia) (filter (λ x, x < K)%nat l'));
          [by apply IHK|done|done|done|].
        intros j Hj. by rewrite cnt_filter_below, decide_True.
      - assert (m ∈ l) as Hml by (apply cnt_pos; lia). apply Hl in Hml. lia. }
    apply (Haux (cnt K l) (filter (λ x, x < K)%nat l)); [| |done|done|].
    + apply IHK. by intros x [??]%list_elem_of_filter.
    + by intros x [??]%list_elem_of_filter.
    + intros j Hj. by rewrite cnt_filter_below, decide_True.
Qed.

Lemma lt_ms_wf : well_founded lt_ms.
Proof.
  intros l. apply (lt_ms_acc_bounded (S (max_list l))).
  intros x Hx. apply max_list_elem_of_le in Hx. lia.
Qed.

Lemma lt_ms_trans (l1 l2 l3 : list nat) : lt_ms l1 l2 → lt_ms l2 l3 → lt_ms l1 l3.
Proof.
  intros (m1 & H1 & Hhi1) (m2 & H2 & Hhi2).
  destruct (lt_eq_lt_dec m1 m2) as [[Hlt| ->]|Hgt].
  - exists m2. split; [rewrite Hhi1 by done; done|].
    intros j Hj. rewrite Hhi1, Hhi2 by lia. done.
  - exists m2. split; [lia|]. intros j Hj. rewrite Hhi1, Hhi2 by lia. done.
  - exists m1. split; [rewrite <- Hhi2 by done; done|].
    intros j Hj. rewrite Hhi1, Hhi2 by lia. done.
Qed.

Lemma le_lt_ms (l1 l2 l3 : list nat) : le_ms l1 l2 → lt_ms l2 l3 → lt_ms l1 l3.
Proof.
  intros [Hlt|Heq] H; [by eapply lt_ms_trans|].
  destruct H as (m & Hm & Hhi). exists m. rewrite Heq. split; [done|].
  intros j Hj. rewrite Heq. by apply Hhi.
Qed.

Lemma lt_le_ms (l1 l2 l3 : list nat) : lt_ms l1 l2 → le_ms l2 l3 → lt_ms l1 l3.
Proof.
  intros H [Hlt|Heq]; [by eapply lt_ms_trans|].
  destruct H as (m & Hm & Hhi). exists m. rewrite <- Heq. split; [done|].
  intros j Hj. rewrite <- Heq. by apply Hhi.
Qed.

Lemma le_ms_trans (l1 l2 l3 : list nat) : le_ms l1 l2 → le_ms l2 l3 → le_ms l1 l3.
Proof.
  intros H1 [Hlt|Heq].
  - left. by eapply le_lt_ms.
  - destruct H1 as [H1|H1].
    + left. eapply lt_le_ms; [done|]. by right.
    + right. intros j. by rewrite H1.
Qed.

Lemma le_ms_refl (l : list nat) : le_ms l l.
Proof. by right. Qed.

Lemma le_ms_cons (x : nat) (l' l : list nat) : le_ms l' l → le_ms (x :: l') (x :: l).
Proof.
  intros [(m & Hm & Hhi)|Heq].
  - left. exists m. rewrite !cnt_cons. split; [lia|].
    intros j Hj. rewrite !cnt_cons, Hhi by done. done.
  - right. intros j. by rewrite !cnt_cons, Heq.
Qed.

Lemma le_ms_shrink (x' x : nat) (l : list nat) :
  (x' ≤ x)%nat → le_ms (x' :: l) (x :: l).
Proof.
  intros Hx. destruct (decide (x' = x)) as [->|Hne]; [apply le_ms_refl|].
  left. exists x. rewrite !cnt_cons. split.
  - repeat case_decide; lia.
  - intros j Hj. rewrite !cnt_cons, !decide_False by lia. done.
Qed.

Lemma le_ms_drop (x : nat) (l : list nat) : le_ms l (x :: l).
Proof.
  left. exists x. rewrite cnt_cons. split.
  - rewrite decide_True by done. lia.
  - intros j Hj. rewrite cnt_cons, decide_False by lia. done.
Qed.

Lemma dominated_le_ms (l' l : list nat) : dominated l' l → le_ms l' l.
Proof.
  induction 1 as [|x' x l' l Hx _ IH|x l' l _ IH].
  - apply le_ms_refl.
  - eapply le_ms_trans; [by apply le_ms_cons|by apply le_ms_shrink].
  - eapply le_ms_trans; [done|apply le_ms_drop].
Qed.

(** ** Direct resolution only shrinks the knowledge list *)

Lemma cells_mark_mine_subseteq (c : Cell) (s : Sentence) :
  cells (Sent.mark_mine c s) ⊆ cells s.
Proof. unfold Sent.mark_mine. case_decide; simpl; set_solver. Qed.

Lemma cells_mark_safe_subseteq (c : Cell) (s : Sentence) :
  cells (Sent.mark_safe c s) ⊆ cells s.
Proof. unfold Sent.mark_safe. case_decide; simpl; set_solver. Qed.

Lemma shrunk_refl (ai : MinesweeperAI) : shrunk ai ai.
Proof. split; [done|]. intros r. done. Qed.

Lemma shrunk_drop (ai0 ai : MinesweeperAI) (k' : list ref) :
  shrunk ai0 ai → k' `sublist_of` knowledge ai → shrunk ai0 (set_knowledge k' ai).
Proof. intros [Hk Hc] Hs. split; [|done]. simpl. by etrans. Qed.

Lemma shrunk_mark_mine (ai0 ai : MinesweeperAI) (c : Cell) :
  shrunk ai0 ai → shrunk ai0 (mark_mine c ai).
Proof.
  intros [Hk Hc]. split; [done|]. intros r. unfold mark_mine; simpl.
  rewrite deref_update_all; [|apply mark_mine_idemp|done].
  case_decide; [|done]. etrans; [apply cells_mark_mine_subseteq|done].
Qed.

Lemma shrunk_mark_safe (ai0 ai : MinesweeperAI) (c : Cell) :
  shrunk ai0 ai → shrunk ai0 (mark_safe c ai).
Proof.
  intros [Hk Hc]. unfold mark_safe. case_decide; [done|].
  split; [done|]. intros r. simpl.
  rewrite deref_update_all; [|apply mark_safe_idemp|done].
  case_decide; [|done]. etrans; [apply cells_mark_safe_subseteq|done].
Qed.

Lemma shrunk_mark_safe_and_mine (fuel : nat) (ai ai' : MinesweeperAI) :
  mark_safe_and_mine fuel ai = Done ai' → shrunk ai ai'.
Proof.
  intros Hrun.
  apply (mark_safe_and_mine_preserves (shrunk ai)) in Hrun as [??];
    [done| | | |apply shrunk_refl].
  - apply shrunk_drop.
  - intros a r k' Hs _ _ Hsub.
    apply (foldl_mark_mine_ind (shrunk ai) (λ _, True));
      [by auto using shrunk_mark_mine|by apply Forall_true|by apply shrunk_drop].
  - intros a r k' Hs _ _ Hsub.
    apply (foldl_mark_safe_ind (shrunk ai) (λ _, True));
      [by auto using shrunk_mark_safe|by apply Forall_true|by apply shrunk_drop].
Qed.

Lemma dominated_refl (l : list nat) : dominated l l.
Proof. induction l; constructor; done. Qed.

Lemma dominated_fmap (f g : ref → nat) (k k0 : list ref) :
  k `sublist_of` k0 → (∀ r, f r ≤ g r)%nat → dominated (f <$> k) (g <$> k0).
Proof.
  intros Hs Hfg. induction Hs as [|r k k0 _ IH|r k k0 _ IH]; simpl.
  - constructor.
  - by constructor.
  - by constructor.
Qed.

Lemma shrunk_weights (ai0 ai : MinesweeperAI) :
  shrunk ai0 ai → le_ms (weights ai) (weights ai0).
Proof.
  intros [Hk Hc]. apply dominated_le_ms. unfold weights, sentences.
  rewrite <- !list_fmap_compose. apply dominated_fmap; [done|].
  intros r. simpl. unfold weight. by apply subseteq_size.
Qed.

(** ** One round of subset deduction, by value *)

Lemma derive_eq (ai : MinesweeperAI) (p : ref * ref) :
  derive ai p = append_sentence (difference (heap ai) p) ai.
Proof. done. Qed.

Lemma difference_app_l (h : list Sentence) (s : Sentence) (p : ref * ref) :
  (p.1 < length h)%nat → (p.2 < length h)%nat →
  difference (h ++ [s]) p = difference h p.
Proof. intros H1 H2. unfold difference. by rewrite !deref_app_l. Qed.

Lemma sentences_foldl_derive (pairs : list (ref * ref)) :
  ∀ ai, valid ai →
    (∀ p, p ∈ pairs → p.1 < length (heap ai) ∧ p.2 < length (heap ai))%nat →
    sentences (foldl derive ai pairs)
    = sentences ai ++ (difference (heap ai) <$> pairs).
Proof.
  induction pairs as [|p pairs IH]; intros ai Hv Hp; simpl.
  - by rewrite app_nil_r.
  - rewrite IH.
    + rewrite derive_eq, sentences_append by done.
      rewrite <- (assoc_L _ (sentences ai) [_] _). simpl. do 2 f_equal.
      apply list_fmap_ext. intros i q Hq. simpl.
      destruct (Hp q) as [??]; [right; by eapply list_elem_of_lookup_2|].
      by apply difference_app_l.
    + by apply valid_derive.
    + intros q Hq. destruct (Hp q) as [??]; [by right|].
      simpl. rewrite length_app. simpl. lia.
Qed.

Lemma remove_first_value_fmap (h : list Sentence) (s : Sentence) (k : list ref) :
  deref h <$> default k (list_remove_first h s k)
  = remove_first_value s (deref h <$> k).
Proof.
  induction k as [|r k IH]; simpl; [done|].
  case_decide; [done|].
  destruct (list_remove_first h s k) as [k'|]; simpl in *; by f_equal.
Qed.

Lemma remove_first_value_absent (s : Sentence) (l : list Sentence) :
  s ∉ l → remove_first_value s l = l.
Proof.
  induction l as [|x l IH]; simpl; [done|].
  rewrite not_elem_of_cons. intros [Hne Hin].
  rewrite decide_False by done. by rewrite IH.
Qed.

Lemma sentences_discard (ai : MinesweeperAI) (r : ref) :
  sentences (discard ai r) = remove_first_value (deref (heap ai) r) (sentences ai)
  ∧ heap (discard ai r) = heap ai.
Proof.
  unfold discard, sentence_in, sentences. case_bool_decide as Hin.
  - pose proof (remove_first_value_fmap (heap ai) (deref (heap ai) r) (knowledge ai))
      as Hrm.
    destruct (list_remove_first _ _ _) as [k'|]; simpl in *; by rewrite <- Hrm.
  - by rewrite remove_first_value_absent.
Qed.

Lemma sentences_foldl_discard (rs : list ref) :
  ∀ ai, sentences (foldl discard ai rs)
        = foldl (λ l v, remove_first_value v l) (sentences ai) (deref (heap ai) <$> rs)
        ∧ heap (foldl discard ai rs) = heap ai.
Proof.
  induction rs as [|r rs IH]; intros ai; simpl; [done|].
  destruct (sentences_discard ai r) as [Hs Hh].
  destruct (IH (discard ai r)) as [-> ->]. by rewrite Hs, Hh.
Qed.

(** *** Counting sizes through [remove] *)

Lemma cnt_remove_other (j : nat) (v : Sentence) (l : list Sentence) :
  weight v ≠ j →
  cnt j (weight <$> remove_first_value v l) = cnt j (weight <$> l).
Proof.
  intros Hv. induction l as [|x l IH]; cbn [remove_first_value]; [done|].
  rewrite fmap_cons, cnt_cons. case_decide as Hx.
  - subst x. rewrite decide_False by done. done.
  - by rewrite fmap_cons, cnt_cons, IH.
Qed.

Lemma cnt_remove_le (j : nat) (v : Sentence) (l : list Sentence) :
  (cnt j (weight <$> remove_first_value v l) ≤ cnt j (weight <$> l))%nat.
Proof.
  induction l as [|x l IH]; cbn [remove_first_value]; [done|].
  rewrite fmap_cons, cnt_cons. case_decide as Hx.
  - lia.
  - rewrite fmap_cons, cnt_cons. lia.
Qed.

Lemma cnt_remove_present (v : Sentence) (l : list Sentence) :
  v ∈ l →
  S (cnt (weight v) (weight <$> remove_first_value v l)) = cnt (weight v) (weight <$> l).
Proof.
  induction l as [|x l IH]; cbn [remove_first_value]; [by intros ?%elem_of_nil|].
  rewrite elem_of_cons, fmap_cons, cnt_cons. intros Hin. case_decide as Hx.
  - subst x. rewrite decide_True by done. done.
  - rewrite fmap_cons, cnt_cons, <- IH by naive_solver. lia.
Qed.

Lemma elem_of_remove_other (v v' : Sentence) (l : list Sentence) :
  v' ∈ l → v' ≠ v → v' ∈ remove_first_value v l.
Proof.
  intros Hin Hne. induction l as [|x l IH]; simpl; [done|].
  apply elem_of_cons in Hin. case_decide as Hx.
  - destruct Hin as [->|Hin]; done.
  - destruct Hin as [->|Hin]; [left|right; by apply IH].
Qed.

Lemma cnt_foldl_remove_other (j : nat) (vs : list Sentence) :
  ∀ l, (∀ v, v ∈ vs → weight v ≠ j) →
    cnt j (weight <$> foldl (λ l v, remove_first_value v l) l vs)
    = cnt j (weight <$> l).
Proof.
  induction vs as [|v vs IH]; intros l Hvs; simpl; [done|].
  rewrite IH by (intros; apply Hvs; by right).
  apply cnt_remove_other, Hvs. left.
Qed.

Lemma cnt_foldl_remove_le (j : nat) (vs : list Sentence) :
  ∀ l, (cnt j (weight <$> foldl (λ l v, remove_first_value v l) l vs)
        ≤ cnt j (weight <$> l))%nat.
Proof.
  induction vs as [|v vs IH]; intros l; simpl; [done|].
  etrans; [apply IH|apply cnt_remove_le].
Qed.

Lemma cnt_foldl_remove_lt (v : Sentence) (vs : list Sentence) :
  ∀ l, v ∈ vs → v ∈ l →
    (cnt (weight v) (weight <$> foldl (λ l v, remove_first_value v l) l vs)
     < cnt (weight v) (weight <$> l))%nat.
Proof.
  induction vs as [|v' vs IH]; intros l Hvs Hl; simpl; [by apply elem_of_nil in Hvs|].
  destruct (decide (v' = v)) as [->|Hne].
  - pose proof (cnt_foldl_remove_le (weight v) vs (remove_first_value v l)).
    pose proof (cnt_remove_present v l Hl). lia.
  - apply elem_of_cons in Hvs as [->|Hvs]; [done|].
    pose proof (IH (remove_first_value v' l) Hvs
                  (elem_of_remove_other v' v l Hl ltac:(done))).
    pose proof (cnt_remove_le (weight v) v' l). lia.
Qed.

(** *** A round that finds a pair lowers the measure *)

Lemma deref_foldl_derive (pairs : list (ref * ref)) :
  ∀ ai r, (r < length (heap ai))%nat →
    deref (heap (foldl derive ai pairs)) r = deref (heap ai) r.
Proof.
  induction pairs as [|p pairs IH]; intros ai r Hr; simpl; [done|].
  rewrite IH.
  - unfold derive, append_sentence; simpl. by apply deref_app_l.
  - unfold derive, append_sentence; simpl. rewrite length_app. lia.
Qed.

Lemma exists_heaviest (l : list Sentence) :
  l ≠ [] → ∃ v, v ∈ l ∧ ∀ v', v' ∈ l → (weight v' ≤ weight v)%nat.
Proof.
  induction l as [|x l IH]; [done|]. intros _.
  destruct l as [|y l].
  - exists x. split; [left|]. by intros v' ->%list_elem_of_singleton.
  - destruct IH as (v & Hv & Hmax); [done|].
    destruct (decide (weight x ≤ weight v)%nat) as [Hle|Hgt].
    + exists v. split; [by right|].
      intros v' [->|Hv']%elem_of_cons; [done|by apply Hmax].
    + exists x. split; [left|].
      intros v' [->|Hv']%elem_of_cons; [done|]. apply Hmax in Hv'. lia.
Qed.

Lemma no_empty_drop (ai : MinesweeperAI) (k' : list ref) :
  no_empty ai → k' `sublist_of` knowledge ai → no_empty (set_knowledge k' ai).
Proof.
  intros Hne Hs s Hin. apply Hne. unfold sentences in *. simpl in Hin.
  eapply elem_of_sublist; [done|]. by apply fmap_sublist.
Qed.

Lemma weight_difference (h : list Sentence) (p : ref * ref) :
  cells (deref h p.1) ⊆ cells (deref h p.2) → cells (deref h p.1) ≠ ∅ →
  (weight (difference h p) < weight (deref h p.2))%nat.
Proof.
  intros Hsub Hne. unfold weight, difference; simpl.
  rewrite size_difference by done.
  assert (size (cells (deref h p.1)) ≠ 0%nat).
  { apply size_non_empty_iff. intros He. by apply Hne, leibniz_equiv. }
  pose proof (subseteq_size _ _ Hsub). lia.
Qed.

Lemma round_decreases (ai : MinesweeperAI) :
  valid ai → no_empty ai →
  subset_pairs (remove_same_sentence ai) ≠ [] →
  lt_ms (weights (foldl discard
                    (foldl derive (remove_same_sentence ai)
                           (subset_pairs (remove_same_sentence ai)))
                    (subset_pairs (remove_same_sentence ai)).*2))
        (weights ai).
Proof.
  intros Hv Hne Hpairs.
  destruct (knowledge_remove_same_sentence ai) as [Hsub _].
  assert (valid (remove_same_sentence ai)) as Hv0
    by (by apply (valid_drop ai (knowledge (remove_same_sentence ai)))).
  assert (no_empty (remove_same_sentence ai)) as Hne0
    by (by apply (no_empty_drop ai (knowledge (remove_same_sentence ai)))).
  assert (le_ms (weights (remove_same_sentence ai)) (weights ai)) as Hle0.
  { apply shrunk_weights. split; [done|]. by intros r. }
  eapply lt_le_ms; [|exact Hle0]. clear Hle0 Hsub Hv Hne.
  generalize dependent (remove_same_sentence ai). clear ai. intros ai0 Hpairs Hv0 Hne0.
  set (pairs := subset_pairs ai0) in *.
  assert (∀ p, p ∈ pairs →
               (p.1 < length (heap ai0))%nat ∧ (p.2 < length (heap ai0))%nat
               ∧ deref (heap ai0) p.1 ∈ sentences ai0
               ∧ deref (heap ai0) p.2 ∈ sentences ai0
               ∧ cells (deref (heap ai0) p.1) ⊆ cells (deref (heap ai0) p.2))
    as Hp.
  { intros p (H1 & H2 & Hs)%elem_of_subset_pairs.
    split; [by apply Hv0|]. split; [by apply Hv0|].
    split; [by apply list_elem_of_fmap_2|]. split; [by apply list_elem_of_fmap_2|done]. }
  destruct (sentences_foldl_discard pairs.*2 (foldl derive ai0 pairs)) as [Hs _].
  unfold weights at 1. rewrite Hs, sentences_foldl_derive by naive_solver.
  assert (deref (heap (foldl derive ai0 pairs)) <$> pairs.*2
          = deref (heap ai0) <$> pairs.*2) as ->.
  { apply list_fmap_ext. intros i r Hr. simpl. apply deref_foldl_derive.
    apply list_elem_of_lookup_2, list_elem_of_fmap in Hr as (p & -> & Hin).
    by apply Hp. }
  destruct (exists_heaviest (deref (heap ai0) <$> pairs.*2)) as (v & Hvin & Hmax).
  { destruct pairs; done. }
  assert (v ∈ sentences ai0) as Hv_in.
  { apply list_elem_of_fmap in Hvin as (r & -> & Hr).
    apply list_elem_of_fmap in Hr as (p & -> & Hin). by apply Hp. }
  assert (∀ d, d ∈ difference (heap ai0) <$> pairs → (weight d < weight v)%nat) as Hd.
  { intros d (p & -> & Hin)%list_elem_of_fmap.
    destruct (Hp p Hin) as (_ & _ & H1 & _ & Hsubset).
    pose proof (weight_difference (heap ai0) p Hsubset (Hne0 _ H1)).
    assert (weight (deref (heap ai0) p.2) ≤ weight v)%nat; [|lia].
    apply Hmax. apply list_elem_of_fmap. exists p.2. split; [done|].
    apply list_elem_of_fmap. by exists p. }
  assert (∀ j, (weight v ≤ j)%nat →
               cnt j (weight <$> sentences ai0 ++ (difference (heap ai0) <$> pairs))
               = cnt j (weights ai0)) as Hcnt.
  { intros j Hj. rewrite fmap_app, cnt_app. unfold weights.
    rewrite (cnt_zero j (weight <$> (difference (heap ai0) <$> pairs))); [lia|].
    intros (d & -> & Hin)%list_elem_of_fmap. apply Hd in Hin. lia. }
  exists (weight v). split.
  - rewrite <- Hcnt by done. apply cnt_foldl_remove_lt; [done|].
    apply elem_of_app. by left.
  - intros j Hj. rewrite <- Hcnt by lia. apply cnt_foldl_remove_other.
    intros v' Hv'. apply Hmax in Hv'. lia.
Qed.

(** ** Termination *)

Lemma mark_safe_and_mine_total (ai : MinesweeperAI) :
  valid ai →
  ∃ ai', mark_safe_and_mine (S (length (knowledge ai))) ai = Done ai'
         ∧ valid ai' ∧ no_empty ai' ∧ shrunk ai ai'.
Proof.
  intros Hv.
  destruct (mark_safe_and_mine_spec (λ _, True) ltac:(done) ltac:(done) ltac:(done)
              (S (length (knowledge ai))) ai) as (ai' & Hrun & _ & Hne); [lia|done|].
  exists ai'. split; [done|].
  split; [by eapply valid_mark_safe_and_mine|].
  split; [done|by eapply shrunk_mark_safe_and_mine].
Qed.

(** The recursion of [extract_from_problem] ends: a call that finds a pair
    hands a smaller multiset of sentence sizes to the next call. *)
Lemma extract_from_problem_terminates (ai : MinesweeperAI) :
  valid ai → no_empty ai →
  ∃ fuel ai', extract_from_problem fuel ai = Done ai'.
Proof.
  remember (weights ai) as w eqn:Hw. revert ai Hw.
  induction (lt_ms_wf w) as [w _ IH]. intros ai -> Hv Hne.
  destruct (decide (subset_pairs (remove_same_sentence ai) = [])) as [He|Hpairs].
  - exists 1%nat, (remove_same_sentence ai). cbn [extract_from_problem].
    by rewrite He.
  - pose proof (round_decreases ai Hv Hne Hpairs) as Hlt.
    destruct (knowledge_remove_same_sentence ai) as [Hsub _].
    assert (valid (remove_same_sentence ai)) as Hv0
      by (by apply (valid_drop ai (knowledge (remove_same_sentence ai)))).
    destruct (foldl_derive_preserves (λ _, True) ltac:(done)
                (subset_pairs (remove_same_sentence ai))
                (remove_same_sentence ai) Hv0 I) as [Hv1 _].
    { intros p. apply elem_of_subset_pairs. }
    destruct (foldl_discard_preserves (λ _, True) ltac:(done)
                ((subset_pairs (remove_same_sentence ai)).*2) _ Hv1 I) as [Hv2 _].
    destruct (mark_safe_and_mine_total _ Hv2) as (ai3 & Hrun3 & Hv3 & Hne3 & Hsh).
    apply shrunk_weights in Hsh.
    destruct (IH (weights ai3) (le_lt_ms _ _ _ Hsh Hlt) ai3 eq_refl Hv3 Hne3)
      as (fuel & ai' & Hrun).
    eexists (S (fuel `max` _)), ai'. cbn [extract_from_problem].
    rewrite bool_decide_eq_false_2 by done. simpl.
    rewrite (mark_safe_and_mine_mono _ _ _ _ Hrun3) by apply Nat.le_max_r. simpl.
    apply (extract_from_problem_mono _ _ _ _ Hrun). apply Nat.le_max_l.
Qed.

Lemma valid_observe (cell : Cell) (n : Z) (ai : MinesweeperAI) :
  valid ai →
  valid (add_neighbour_mines_knowledge cell n
           (mark_safe cell (set_moves_made ({[cell]} ∪ moves_made ai) ai))).
Proof.
  intros Hv. unfold add_neighbour_mines_knowledge. destruct (foldl _ _ _) as [cs n'].
  by apply valid_append, valid_mark_safe.
Qed.

Lemma add_knowledge_total (cell : Cell) (n : Z) (ai : MinesweeperAI) :
  valid ai →
  ∃ fuel ai', add_knowledge fuel cell n ai = Done ai' ∧ valid ai'.
Proof.
  intros Hv. unfold add_knowledge.
  destruct (mark_safe_and_mine_total _ (valid_observe cell n ai Hv))
    as (ai1 & Hrun1 & Hv1 & Hne1 & _).
  destruct (extract_from_problem_terminates ai1 Hv1 Hne1) as (fuel & ai' & Hrun).
  eexists (fuel `max` _)%nat, ai'.
  rewrite (mark_safe_and_mine_mono _ _ _ _ Hrun1) by apply Nat.le_max_r. simpl.
  rewrite (extract_from_problem_mono _ _ _ _ Hrun) by apply Nat.le_max_l.
  split; [done|].
  by apply (extract_from_problem_preserves (λ _, True)) in Hrun as [??].
Qed.

Lemma valid_init (h w : Z) : valid (init h w).
Proof. by intros r ?%elem_of_nil. Qed.

Lemma observe_all_total (obs : list (Cell * Z)) :
  ∀ ai, valid ai → ∃ fuel ai', observe_all fuel obs ai = Done ai' ∧ valid ai'.
Proof.
  induction obs as [|[cell n] obs IH]; intros ai Hv.
  - by exists 0%nat, ai.
  - destruct (add_knowledge_total cell n ai Hv) as (f1 & ai1 & Hrun1 & Hv1).
    destruct (IH ai1 Hv1) as (f2 & ai' & Hrun2 & Hv').
    exists (f1 `max` f2)%nat, ai'. cbn [observe_all].
    rewrite (add_knowledge_mono _ _ _ _ _ _ Hrun1) by apply Nat.le_max_l. simpl.
    rewrite (observe_all_mono _ _ _ _ _ Hrun2) by apply Nat.le_max_r. done.
Qed.

(** ** The sentence built from an observation *)

Lemma scan_eq (ai : MinesweeperAI) (acc : list Cell) (n : Z) (c : Cell) :
  scan ai (acc, n) c
  = (acc ++ (if decide (in_bounds (height ai) (width ai) c
                        ∧ c ∉ mines ai ∧ c ∉ moves_made ai ∪ safes ai)
             then [c] else []),
     n - (if decide (in_bounds (height ai) (width ai) c ∧ c ∈ mines ai)
          then 1 else 0)).
Proof.
  unfold scan. simpl.
  destruct (decide (in_bounds (height ai) (width ai) c)) as [Hb|Hb].
  - destruct (decide (c ∈ mines ai)) as [Hm|Hm].
    + rewrite decide_False by tauto. rewrite decide_True by done.
      by rewrite app_nil_r.
    + rewrite (decide_False (P := _ ∧ c ∈ mines ai)) by tauto.
      destruct (decide (c ∈ moves_made ai ∪ safes ai)) as [Hs|Hs].
      * rewrite decide_False by tauto. rewrite app_nil_r. f_equal. lia.
      * rewrite decide_True by done. f_equal. lia.
  - rewrite !decide_False by tauto. rewrite app_nil_r. f_equal. lia.
Qed.

Lemma foldl_scan (ai : MinesweeperAI) (l : list Cell) :
  ∀ (acc : list Cell) (n : Z),
    foldl (scan ai) (acc, n) l
    = (acc ++ filter (λ c, in_bounds (height ai) (width ai) c
                           ∧ c ∉ mines ai ∧ c ∉ moves_made ai ∪ safes ai) l,
       n - Z.of_nat (length (filter (λ c, in_bounds (height ai) (width ai) c
                                          ∧ c ∈ mines ai) l))).
Proof.
  induction l as [|c l IH]; intros acc n; cbn [foldl].
  - rewrite app_nil_r. f_equal. simpl. lia.
  - rewrite scan_eq, IH, !filter_cons, <- (assoc_L (++)).
    f_equal; [by case_decide|].
    destruct (decide (in_bounds (height ai) (width ai) c ∧ c ∈ mines ai)); simpl; lia.
Qed.

Lemma add_neighbour_mines_knowledge_eq (cell : Cell) (n : Z) (ai : MinesweeperAI) :
  add_neighbour_mines_knowledge cell n ai
  = append_sentence
      (mkSentence (list_to_set (neighbour_cells cell ai))
                  (n - Z.of_nat (length (known_neighbour_mines cell ai)))) ai.
Proof. unfold add_neighbour_mines_knowledge. by rewrite foldl_scan. Qed.

(** ** Resolved cells are purged from the sentences *)

Lemma cells_mark_mine (c : Cell) (s : Sentence) :
  cells (Sent.mark_mine c s) = cells s ∖ {[c]}.
Proof. unfold Sent.mark_mine. case_decide; simpl; set_solver. Qed.

Lemma count_mark_mine (c : Cell) (s : Sentence) :
  count (Sent.mark_mine c s) = count s - (if decide (c ∈ cells s) then 1 else 0).
Proof. unfold Sent.mark_mine. case_decide; simpl; lia. Qed.

Lemma cells_mark_safe (c : Cell) (s : Sentence) :
  cells (Sent.mark_safe c s) = cells s ∖ {[c]}.
Proof. unfold Sent.mark_safe. case_decide; simpl; set_solver. Qed.

Lemma count_mark_safe (c : Cell) (s : Sentence) :
  count (Sent.mark_safe c s) = count s.
Proof. unfold Sent.mark_safe. by case_decide. Qed.

Lemma fields_mark_safe (c : Cell) (ai : MinesweeperAI) :
  height (mark_safe c ai) = height ai ∧ width (mark_safe c ai) = width ai
  ∧ mines (mark_safe c ai) = mines ai ∧ moves_made (mark_safe c ai) = moves_made ai.
Proof. unfold mark_safe. by case_decide. Qed.

Lemma elem_of_sentences_drop (ai : MinesweeperAI) (k' : list ref) (s : Sentence) :
  k' `sublist_of` knowledge ai → s ∈ sentences (set_knowledge k' ai) → s ∈ sentences ai.
Proof.
  intros Hs Hin. unfold sentences in *. simpl in Hin.
  eapply elem_of_sublist; [done|]. by apply fmap_sublist.
Qed.

Lemma elem_of_sentences_derive (ai : MinesweeperAI) (p : ref * ref) (s : Sentence) :
  valid ai → s ∈ sentences (derive ai p) →
  s ∈ sentences ai ∨ s = difference (heap ai) p.
Proof.
  intros Hv. rewrite derive_eq, sentences_append by done.
  rewrite elem_of_app, list_elem_of_singleton. done.
Qed.

Lemma elem_of_sentences_knowledge (ai : MinesweeperAI) (r : ref) :
  r ∈ knowledge ai → deref (heap ai) r ∈ sentences ai.
Proof. intros Hr. by apply list_elem_of_fmap_2. Qed.

Lemma purged_drop (ai : MinesweeperAI) (k' : list ref) :
  purged ai → k' `sublist_of` knowledge ai → purged (set_knowledge k' ai).
Proof. intros Hp Hs s Hin. apply (Hp s). by eapply elem_of_sentences_drop. Qed.

Lemma purged_mark_mine (c : Cell) (ai : MinesweeperAI) :
  purged ai → purged (mark_mine c ai).
Proof.
  intros Hp s. rewrite sentences_mark_mine.
  intros (s0 & -> & Hin)%list_elem_of_fmap. apply Hp in Hin.
  rewrite cells_mark_mine. simpl. set_solver.
Qed.

Lemma purged_mark_safe (c : Cell) (ai : MinesweeperAI) :
  purged ai → purged (mark_safe c ai).
Proof.
  intros Hp. destruct (decide (c ∈ safes ai)) as [Hc|Hc].
  - by rewrite mark_safe_known.
  - intros s. rewrite sentences_mark_safe by done.
    intros (s0 & -> & Hin)%list_elem_of_fmap. apply Hp in Hin.
    rewrite cells_mark_safe. unfold mark_safe. rewrite decide_False by done.
    simpl. set_solver.
Qed.

Lemma purged_resolve_mines (ai : MinesweeperAI) (k' : list ref) (l : list Cell) :
  purged ai → k' `sublist_of` knowledge ai →
  purged (foldl (λ a mine, mark_mine mine a) (set_knowledge k' ai) l).
Proof.
  intros Hp Hs.
  apply (foldl_mark_mine_ind purged (λ _, True)); [by auto using purged_mark_mine| |].
  - by apply Forall_true.
  - by apply purged_drop.
Qed.

Lemma purged_resolve_safes (ai : MinesweeperAI) (k' : list ref) (l : list Cell) :
  purged ai → k' `sublist_of` knowledge ai →
  purged (foldl (λ a safe, mark_safe safe a) (set_knowledge k' ai) l).
Proof.
  intros Hp Hs.
  apply (foldl_mark_safe_ind purged (λ _, True)); [by auto using purged_mark_safe| |].
  - by apply Forall_true.
  - by apply purged_drop.
Qed.

Lemma purged_derive (ai : MinesweeperAI) (p : ref * ref) :
  valid ai → purged ai → p.2 ∈ knowledge ai → purged (derive ai p).
Proof.
  intros Hv Hp H2 s Hin. apply elem_of_sentences_derive in Hin as [Hin| ->]; [| |done].
  - by apply Hp.
  - apply elem_of_sentences_knowledge, Hp in H2.
    unfold difference, derive, append_sentence; simpl in *. set_solver.
Qed.

Lemma elem_of_neighbour_cells (cell c : Cell) (ai : MinesweeperAI) :
  c ∈ neighbour_cells cell ai →
  in_bounds (height ai) (width ai) c ∧ c ∉ mines ai ∧ c ∉ moves_made ai ∪ safes ai.
Proof. unfold neighbour_cells. by intros [? _]%list_elem_of_filter. Qed.

Lemma purged_observe (cell : Cell) (n : Z) (ai : MinesweeperAI) :
  valid ai → purged ai →
  purged (add_neighbour_mines_knowledge cell n
            (mark_safe cell (set_moves_made ({[cell]} ∪ moves_made ai) ai))).
Proof.
  intros Hv Hp. rewrite add_neighbour_mines_knowledge_eq.
  set (ai1 := mark_safe cell (set_moves_made ({[cell]} ∪ moves_made ai) ai)).
  assert (purged ai1) as Hp1 by (by apply purged_mark_safe).
  assert (valid ai1) as Hv1 by (by apply valid_mark_safe).
  intros s. rewrite sentences_append by done.
  intros [Hin| ->%list_elem_of_singleton]%elem_of_app; [by apply Hp1|].
  simpl. intros c Hc. rewrite elem_of_list_to_set in Hc.
  apply elem_of_neighbour_cells in Hc. set_solver.
Qed.

(** After [add_knowledge] the knowledge list is normalised, whatever was
    observed. *)
Lemma extract_from_problem_normal (fuel : nat) :
  ∀ ai ai', extract_from_problem fuel ai = Done ai' →
    no_empty ai → no_empty ai' ∧ NoDup (sentences ai').
Proof.
  induction fuel as [|fuel IH]; intros ai ai' Hrun Hne; [done|].
  cbn [extract_from_problem] in Hrun.
  destruct (knowledge_remove_same_sentence ai) as [Hsub Hnd].
  case_bool_decide as He; simpl in Hrun.
  - rewrite He in Hrun. simpl in Hrun. simplify_eq.
    split; [|done]. by apply (no_empty_drop ai (knowledge (remove_same_sentence ai))).
  - destruct (mark_safe_and_mine fuel _) as [ai3| |] eqn:E; simpl in Hrun; try done.
    apply IH in Hrun; [done|].
    by apply (mark_safe_and_mine_preserves (λ _, True)) in E as [_ ?].
Qed.

Lemma add_knowledge_normalized (fuel : nat) (cell : Cell) (n : Z)
    (ai ai' : MinesweeperAI) :
  add_knowledge fuel cell n ai = Done ai' →
  valid ai → purged ai → valid ai' ∧ normalized ai'.
Proof.
  intros Hrun Hv Hp.
  pose proof Hrun as Hrun'.
  apply (add_knowledge_preserves purged) in Hrun' as [Hv' Hp'];
    [|apply purged_drop
     |intros; by apply purged_resolve_mines
     |intros; by apply purged_resolve_safes
     |intros; by apply purged_derive
     |done
     |by apply purged_observe].
  split; [done|]. split; [done|].
  unfold add_knowledge in Hrun.
  destruct (mark_safe_and_mine fuel _) as [ai1| |] eqn:E; simpl in Hrun; try done.
  apply (mark_safe_and_mine_preserves (λ _, True)) in E as [_ Hne]; [|done..].
  apply extract_from_problem_normal in Hrun as [??]; done.
Qed.

Lemma observe_all_normalized (fuel : nat) (obs : list (Cell * Z)) :
  ∀ ai ai', observe_all fuel obs ai = Done ai' →
    valid ai → normalized ai → valid ai' ∧ normalized ai'.
Proof.
  induction obs as [|[cell n] obs IH]; intros ai ai' Hrun Hv Hn.
  - by simplify_eq/=.
  - cbn [observe_all] in Hrun.
    destruct (add_knowledge fuel cell n ai) as [ai1| |] eqn:E; simpl in Hrun; try done.
    apply add_knowledge_normalized in E as [Hv1 Hn1]; [|done|by destruct Hn].
    by apply (IH ai1).
Qed.

Lemma normalized_init (h w : Z) : normalized (init h w).
Proof.
  split; [|split].
  - by intros s ?%elem_of_nil.
  - apply NoDup_nil_2.
  - by intros s ?%elem_of_nil.
Qed.

(** C4: after every completed [add_knowledge] call of a game the knowledge
    list is normalised: no sentence mentions a cell of [mines] or [safes],
    no two sentences are equal, and no sentence is without cells.  Every
    sequence of observations is covered, those of a consistent board in
    particular, and each call completes. *)
Theorem knowledge_normalized (h w : Z) (obs : list (Cell * Z)) :
  ∃ fuel ai, observe_all fuel obs (init h w) = Done ai ∧ normalized ai.
Proof.
  destruct (observe_all_total obs (init h w) (valid_init h w)) as (fuel & ai & Hrun & _).
  exists fuel, ai. split; [done|].
  by apply observe_all_normalized in Hrun as [_ ?];
    [|apply valid_init|apply normalized_init].
Qed.

(** C5: every [add_knowledge] call of a game terminates, without raising:
    with enough fuel for the [while] loop of [mark_safe_and_mine] and for
    the recursion of [extract_from_problem], the whole sequence of calls
    runs to completion.  This holds for every sequence of observations,
    those of a consistent board in particular. *)
Theorem add_knowledge_terminates (h w : Z) (obs : list (Cell * Z)) :
  ∃ fuel ai, observe_all fuel obs (init h w) = Done ai.
Proof.
  destruct (observe_all_total obs (init h w) (valid_init h w)) as (fuel & ai & Hrun & _).
  by exists fuel, ai.
Qed.

(** ** Cells stay on the board *)

Section on_board.

Variables h w : Z.

Lemma on_board_drop (ai : MinesweeperAI) (k' : list ref) :
  on_board h w ai → k' `sublist_of` knowledge ai → on_board h w (set_knowledge k' ai).
Proof.
  intros (Hd & Hs & Hm) Hsub. split; [done|]. split; [|done].
  intros s Hin. apply (Hs s). by eapply elem_of_sentences_drop.
Qed.

Lemma on_board_mark_mine (c : Cell) (ai : MinesweeperAI) :
  on_board h w ai → in_bounds h w c → on_board h w (mark_mine c ai).
Proof.
  intros (Hd & Hs & Hm) Hc. split; [done|]. split.
  - intros s. rewrite sentences_mark_mine.
    intros (s0 & -> & Hin)%list_elem_of_fmap c'. rewrite cells_mark_mine.
    intros Hc'. apply (Hs s0 Hin). set_solver.
  - intros c'. simpl. intros [->%elem_of_singleton|Hc']%elem_of_union; [done|].
    by apply Hm.
Qed.

Lemma on_board_mark_safe (c : Cell) (ai : MinesweeperAI) :
  on_board h w ai → on_board h w (mark_safe c ai).
Proof.
  intros (Hd & Hs & Hm). destruct (decide (c ∈ safes ai)) as [Hc|Hc].
  - by rewrite mark_safe_known.
  - destruct (fields_mark_safe c ai) as (Hh & Hw & Hmi & _).
    split; [by rewrite Hh, Hw|]. split; [|by rewrite Hmi].
    intros s. rewrite sentences_mark_safe by done.
    intros (s0 & -> & Hin)%list_elem_of_fmap c'. rewrite cells_mark_safe.
    intros Hc'. apply (Hs s0 Hin). set_solver.
Qed.

Lemma on_board_resolve_mines (ai : MinesweeperAI) (r : ref) (k' : list ref) :
  on_board h w ai → r ∈ knowledge ai → k' `sublist_of` knowledge ai →
  on_board h w (foldl (λ a mine, mark_mine mine a) (set_knowledge k' ai)
                      (elements (cells (deref (heap ai) r)))).
Proof.
  intros Hb Hr Hsub.
  apply (foldl_mark_mine_ind (on_board h w) (in_bounds h w)).
  - intros a c. apply on_board_mark_mine.
  - apply Forall_elements_cells. intros c Hc.
    destruct Hb as (_ & Hs & _). eapply Hs; [|done].
    by apply elem_of_sentences_knowledge.
  - by apply on_board_drop.
Qed.

Lemma on_board_resolve_safes (ai : MinesweeperAI) (k' : list ref) (l : list Cell) :
  on_board h w ai → k' `sublist_of` knowledge ai →
  on_board h w (foldl (λ a safe, mark_safe safe a) (set_knowledge k' ai) l).
Proof.
  intros Hb Hsub.
  apply (foldl_mark_safe_ind (on_board h w) (λ _, True));
    [by auto using on_board_mark_safe|by apply Forall_true|].
  by apply on_board_drop.
Qed.

Lemma on_board_derive (ai : MinesweeperAI) (p : ref * ref) :
  valid ai → on_board h w ai → p.2 ∈ knowledge ai → on_board h w (derive ai p).
Proof.
  intros Hv (Hd & Hs & Hm) H2. split; [done|]. split; [|done].
  intros s Hin. apply elem_of_sentences_derive in Hin as [Hin| ->]; [| |done].
  - by apply Hs.
  - apply elem_of_sentences_knowledge in H2. intros c Hc.
    apply (Hs _ H2). unfold difference in Hc. simpl in Hc. set_solver.
Qed.

Lemma on_board_observe (cell : Cell) (n : Z) (ai : MinesweeperAI) :
  valid ai → on_board h w ai →
  on_board h w (add_neighbour_mines_knowledge cell n
                  (mark_safe cell (set_moves_made ({[cell]} ∪ moves_made ai) ai))).
Proof.
  intros Hv Hb. rewrite add_neighbour_mines_knowledge_eq.
  set (ai1 := mark_safe cell (set_moves_made ({[cell]} ∪ moves_made ai) ai)).
  assert (on_board h w ai1) as ([Hh1 Hw1] & Hs1 & Hm1).
  { apply on_board_mark_safe. by destruct Hb as (? & ? & ?). }
  assert (valid ai1) as Hv1 by (by apply valid_mark_safe).
  split; [done|]. split; [|done].
  intros s. rewrite sentences_append by done.
  intros [Hin| ->%list_elem_of_singleton]%elem_of_app; [by apply Hs1|].
  simpl. intros c Hc. rewrite elem_of_list_to_set in Hc.
  apply elem_of_neighbour_cells in Hc as (Hc & _). by rewrite Hh1, Hw1 in Hc.
Qed.

Lemma add_knowledge_on_board (fuel : nat) (cell : Cell) (n : Z)
    (ai ai' : MinesweeperAI) :
  add_knowledge fuel cell n ai = Done ai' →
  valid ai → on_board h w ai → valid ai' ∧ on_board h w ai'.
Proof.
  intros Hrun Hv Hb.
  apply (add_knowledge_preserves (on_board h w)) in Hrun; [done|..].
  - apply on_board_drop.
  - intros. by apply on_board_resolve_mines.
  - intros. by apply on_board_resolve_safes.
  - intros. by apply on_board_derive.
  - done.
  - by apply on_board_observe.
Qed.

Lemma observe_all_on_board (fuel : nat) (obs : list (Cell * Z)) :
  ∀ ai ai', observe_all fuel obs ai = Done ai' →
    valid ai → on_board h w ai → valid ai' ∧ on_board h w ai'.
Proof.
  induction obs as [|[cell n] obs IH]; intros ai ai' Hrun Hv Hb.
  - by simplify_eq/=.
  - cbn [observe_all] in Hrun.
    destruct (add_knowledge fuel cell n ai) as [ai1| |] eqn:E; simpl in Hrun;
      try done.
    apply add_knowledge_on_board in E as [Hv1 Hb1]; [|done..].
    by apply (IH ai1).
Qed.

Lemma on_board_init : on_board h w (init h w).
Proof.
  split; [done|]. split; [by intros s ?%elem_of_nil|by intros c ?%elem_of_empty].
Qed.

End on_board.

(** C10: starting from a fresh AI of any height and width, after any
    sequence of [add_knowledge] calls, with arbitrary cells and counts,
    every cell of every sentence of the knowledge list lies within the
    board, and so does every cell of [mines]; each call completes. *)
Theorem cells_within_bounds (h w : Z) (obs : list (Cell * Z)) :
  ∃ fuel ai,
    observe_all fuel obs (init h w) = Done ai
    ∧ (∀ s c, s ∈ sentences ai → c ∈ cells s → (0 ≤ c.1 ∧ c.1 < h) ∧ (0 ≤ c.2 ∧ c.2 < w))
    ∧ (∀ c, c ∈ mines ai → (0 ≤ c.1 ∧ c.1 < h) ∧ (0 ≤ c.2 ∧ c.2 < w)).
Proof.
  destruct (observe_all_total obs (init h w) (valid_init h w)) as (fuel & ai & Hrun & _).
  exists fuel, ai. split; [done|].
  apply (observe_all_on_board h w) in Hrun as [_ (_ & Hs & Hm)];
    [|apply valid_init|apply on_board_init].
  split; [|done]. intros s c Hin Hc. by apply (Hs s).
Qed.

(** ** What the AI knows is true of a consistent board *)

Lemma size_inter_remove_mine (X M : gset Cell) (c : Cell) :
  c ∈ M →
  Z.of_nat (size ((X ∖ {[c]}) ∩ M))
  = Z.of_nat (size (X ∩ M)) - (if decide (c ∈ X) then 1 else 0).
Proof.
  intros Hc. case_decide as Hx.
  - replace ((X ∖ {[c]}) ∩ M) with ((X ∩ M) ∖ {[c]}) by set_solver.
    rewrite size_difference by set_solver. rewrite size_singleton.
    assert (size (X ∩ M) ≠ 0%nat); [|lia].
    apply size_non_empty_iff. set_solver.
  - replace ((X ∖ {[c]}) ∩ M) with (X ∩ M) by set_solver. lia.
Qed.

Lemma size_inter_remove_safe (X M : gset Cell) (c : Cell) :
  c ∉ M → size ((X ∖ {[c]}) ∩ M) = size (X ∩ M).
Proof. intros Hc. f_equal. set_solver. Qed.

Lemma size_inter_difference (X Y M : gset Cell) :
  Y ⊆ X →
  Z.of_nat (size ((X ∖ Y) ∩ M)) = Z.of_nat (size (X ∩ M)) - Z.of_nat (size (Y ∩ M)).
Proof.
  intros Hsub. replace ((X ∖ Y) ∩ M) with ((X ∩ M) ∖ (Y ∩ M)) by set_solver.
  rewrite size_difference by set_solver.
  assert (size (Y ∩ M) ≤ size (X ∩ M))%nat by (apply subseteq_size; set_solver).
  lia.
Qed.

Section sound.

Variable b : Minesweeper.t.

Lemma sound_drop (ai : MinesweeperAI) (k' : list ref) :
  sound b ai → k' `sublist_of` knowledge ai → sound b (set_knowledge k' ai).
Proof.
  intros (Hd & Hs & Hrest) Hsub. split; [done|]. split; [|done].
  intros s Hin. apply (Hs s). by eapply elem_of_sentences_drop.
Qed.

Lemma sound_mark_mine (c : Cell) (ai : MinesweeperAI) :
  sound b ai → c ∈ Minesweeper.mines b → sound b (mark_mine c ai).
Proof.
  intros (Hd & Hs & Hm & Hsf & Hmv) Hc. split; [done|]. split.
  - intros s. rewrite sentences_mark_mine.
    intros (s0 & -> & Hin)%list_elem_of_fmap.
    rewrite cells_mark_mine, count_mark_mine, size_inter_remove_mine by done.
    by rewrite (Hs s0 Hin).
  - simpl. split; [set_solver|done].
Qed.

Lemma sound_mark_safe (c : Cell) (ai : MinesweeperAI) :
  sound b ai → c ∉ Minesweeper.mines b → sound b (mark_safe c ai).
Proof.
  intros (Hd & Hs & Hm & Hsf & Hmv) Hc. destruct (decide (c ∈ safes ai)) as [Hin|Hin].
  - by rewrite mark_safe_known.
  - destruct (fields_mark_safe c ai) as (Hh & Hw & Hmi & Hmo).
    split; [by rewrite Hh, Hw|]. split.
    + intros s. rewrite sentences_mark_safe by done.
      intros (s0 & -> & Hs0)%list_elem_of_fmap.
      rewrite cells_mark_safe, count_mark_safe, size_inter_remove_safe by done.
      by apply Hs.
    + rewrite Hmi, Hmo. split; [done|]. split; [|done].
      unfold mark_safe. rewrite decide_False by done. simpl. set_solver.
Qed.

Lemma sound_resolve_mines (ai : MinesweeperAI) (r : ref) (k' : list ref) :
  sound b ai → r ∈ knowledge ai →
  Z.of_nat (size (cells (deref (heap ai) r))) = count (deref (heap ai) r) →
  k' `sublist_of` knowledge ai →
  sound b (foldl (λ a mine, mark_mine mine a) (set_knowledge k' ai)
                 (elements (cells (deref (heap ai) r)))).
Proof.
  intros Hb Hr Hsize Hsub.
  apply (foldl_mark_mine_ind (sound b) (λ c, c ∈ Minesweeper.mines b)).
  - intros a c. apply sound_mark_mine.
  - apply Forall_elements_cells. intros c Hc.
    destruct Hb as (_ & Hs & _).
    apply elem_of_sentences_knowledge, Hs in Hr. rewrite Hr in Hsize.
    assert (cells (deref (heap ai) r) ∩ Minesweeper.mines b
            = cells (deref (heap ai) r)) as Heq.
    { apply set_subseteq_size_eq; [set_solver|lia]. }
    set_solver.
  - by apply sound_drop.
Qed.

Lemma sound_resolve_safes (ai : MinesweeperAI) (r : ref) (k' : list ref) :
  sound b ai → r ∈ knowledge ai →
  count (deref (heap ai) r) = 0 →
  k' `sublist_of` knowledge ai →
  sound b (foldl (λ a safe, mark_safe safe a) (set_knowledge k' ai)
                 (elements (cells (deref (heap ai) r)))).
Proof.
  intros Hb Hr Hcount Hsub.
  apply (foldl_mark_safe_ind (sound b) (λ c, c ∉ Minesweeper.mines b)).
  - intros a c. apply sound_mark_safe.
  - apply Forall_elements_cells. intros c Hc.
    destruct Hb as (_ & Hs & _).
    apply elem_of_sentences_knowledge, Hs in Hr. rewrite Hr in Hcount.
    assert (cells (deref (heap ai) r) ∩ Minesweeper.mines b = ∅) as Heq.
    { apply leibniz_equiv, size_empty_inv. lia. }
    set_solver.
  - by apply sound_drop.
Qed.

Lemma sound_derive (ai : MinesweeperAI) (p : ref * ref) :
  valid ai → sound b ai →
  p.1 ∈ knowledge ai → p.2 ∈ knowledge ai →
  cells (deref (heap ai) p.1) ⊆ cells (deref (heap ai) p.2) →
  sound b (derive ai p).
Proof.
  intros Hv (Hd & Hs & Hrest) H1 H2 Hsub. split; [done|]. split; [|done].
  intros s Hin. apply elem_of_sentences_derive in Hin as [Hin| ->]; [| |done].
  - by apply Hs.
  - apply elem_of_sentences_knowledge, Hs in H1, H2.
    unfold difference; simpl. rewrite H1, H2.
    by rewrite size_inter_difference.
Qed.

End sound.

(** *** The sentence of a truthful observation *)

Lemma NoDup_square (cell : Cell) : NoDup (square cell).
Proof.
  unfold square. apply NoDup_bind; [| |apply NoDup_zrange].
  - intros i1 i2 c _ _ (j1 & Hc1 & _)%list_elem_of_bind (j2 & Hc2 & _)%list_elem_of_bind.
    apply list_elem_of_singleton in Hc1, Hc2. by simplify_eq.
  - intros i _. apply NoDup_bind; [| |apply NoDup_zrange].
    + intros j1 j2 c _ _ Hc1%list_elem_of_singleton Hc2%list_elem_of_singleton.
      by simplify_eq.
    + intros j _. apply NoDup_singleton.
Qed.

Lemma nearby_mines_eq (b : Minesweeper.t) (cell : Cell) :
  Minesweeper.nearby_mines b cell
  = Z.of_nat (length (filter
      (λ c, c ≠ cell
            ∧ in_bounds (Minesweeper.height b) (Minesweeper.width b) c
            ∧ c ∈ Minesweeper.mines b) (square cell))).
Proof.
  unfold Minesweeper.nearby_mines.
  assert (∀ l n,
    foldl (λ count c,
             if decide (c = cell) then count
             else if decide (in_bounds (Minesweeper.height b) (Minesweeper.width b) c)
                  then (if Minesweeper.is_mine b c then count + 1 else count)
                  else count) n l
    = n + Z.of_nat (length (filter
          (λ c, c ≠ cell
                ∧ in_bounds (Minesweeper.height b) (Minesweeper.width b) c
                ∧ c ∈ Minesweeper.mines b) l))) as Hfold.
  { induction l as [|c l IH]; intros n; cbn [foldl].
    - simpl. lia.
    - rewrite IH, filter_cons. unfold Minesweeper.is_mine.
      destruct (decide (c = cell)) as [Hc|Hc].
      + rewrite decide_False by tauto. done.
      + destruct (decide (in_bounds _ _ c)) as [Hb|Hb].
        * case_bool_decide as Hm.
          -- rewrite decide_True by done. simpl. lia.
          -- rewrite decide_False by tauto. done.
        * rewrite decide_False by tauto. done. }
  by rewrite Hfold.
Qed.

Lemma length_filter_split {A : Type} (P1 P2 P3 : A → Prop)
    `{!∀ x, Decision (P1 x), !∀ x, Decision (P2 x), !∀ x, Decision (P3 x)}
    (l : list A) :
  (∀ x, P1 x ↔ P2 x ∨ P3 x) → (∀ x, ¬ (P2 x ∧ P3 x)) →
  length (filter P1 l) = (length (filter P2 l) + length (filter P3 l))%nat.
Proof.
  intros Hiff Hex. induction l as [|x l IH]; [done|].
  rewrite !filter_cons.
  pose proof (Hiff x). pose proof (Hex x).
  repeat case_decide; simpl; rewrite IH; try lia; tauto.
Qed.

Lemma size_list_to_set_inter (l : list Cell) (M : gset Cell) :
  NoDup l → size (list_to_set l ∩ M : gset Cell) = length (filter (.∈ M) l).
Proof.
  intros Hnd. rewrite <- (size_list_to_set (C := gset Cell)) by by apply NoDup_filter.
  f_equal. apply set_eq. intros c.
  rewrite elem_of_intersection, !elem_of_list_to_set, list_elem_of_filter. tauto.
Qed.

Lemma sound_observe (b : Minesweeper.t) (cell : Cell) (ai : MinesweeperAI) :
  valid ai → sound b ai →
  Minesweeper.is_mine b cell = false →
  sound b (add_neighbour_mines_knowledge cell (Minesweeper.nearby_mines b cell)
             (mark_safe cell (set_moves_made ({[cell]} ∪ moves_made ai) ai))).
Proof.
  intros Hv Hb Hcell. unfold Minesweeper.is_mine in Hcell.
  apply bool_decide_eq_false in Hcell.
  rewrite add_neighbour_mines_knowledge_eq.
  set (ai1 := mark_safe cell (set_moves_made ({[cell]} ∪ moves_made ai) ai)).
  assert (sound b ai1) as Hb1.
  { apply sound_mark_safe; [|done].
    destruct Hb as (Hd & Hs & Hm & Hsf & Hmv). split; [done|]. split; [done|].
    simpl. split; [done|]. split; [done|]. set_solver. }
  assert (valid ai1) as Hv1 by (by apply valid_mark_safe).
  clearbody ai1. clear Hb Hv ai.
  destruct Hb1 as ([Hh Hw] & Hs & Hm & Hsf & Hmv).
  split; [done|]. split; [|done].
  intros s. rewrite sentences_append by done.
  intros [Hin| ->%list_elem_of_singleton]%elem_of_app; [by apply Hs|].
  simpl. rewrite nearby_mines_eq.
  rewrite size_list_to_set_inter by apply NoDup_filter, NoDup_square.
  unfold neighbour_cells, known_neighbour_mines. rewrite list_filter_filter.
  rewrite (length_filter_split _
             (λ c, in_bounds (height ai1) (width ai1) c ∧ c ∈ mines ai1)
             (λ c, c ∈ Minesweeper.mines b
                   ∧ in_bounds (height ai1) (width ai1) c
                   ∧ c ∉ mines ai1 ∧ c ∉ moves_made ai1 ∪ safes ai1)).
  - lia.
  - intros c. rewrite Hh, Hw. split.
    + intros (Hne & Hin & Hc).
      destruct (decide (c ∈ mines ai1)); [by left|right].
      split; [done|]. split; [done|]. split; [done|].
      intros [Hmv'|Hsf']%elem_of_union; [by apply (Hmv c)|by apply (Hsf c)].
    + intros [[Hin Hc]|(Hc & Hin & _)].
      * apply Hm in Hc. split; [by intros ->|]. by split.
      * split; [by intros ->|]. by split.
  - intros c [[_ Hc] (_ & _ & Hc' & _)]. done.
Qed.

Lemma add_knowledge_sound (b : Minesweeper.t) (fuel : nat) (cell : Cell)
    (ai ai' : MinesweeperAI) :
  add_knowledge fuel cell (Minesweeper.nearby_mines b cell) ai = Done ai' →
  Minesweeper.is_mine b cell = false →
  valid ai → sound b ai → valid ai' ∧ sound b ai'.
Proof.
  intros Hrun Hcell Hv Hb.
  apply (add_knowledge_preserves (sound b)) in Hrun; [done|..].
  - apply sound_drop.
  - intros. by apply sound_resolve_mines.
  - intros. by apply sound_resolve_safes.
  - intros. by apply sound_derive.
  - done.
  - by apply sound_observe.
Qed.

Lemma observe_all_sound (b : Minesweeper.t) (fuel : nat) (obs : list (Cell * Z)) :
  truthful b obs →
  ∀ ai ai', observe_all fuel obs ai = Done ai' →
    valid ai → sound b ai → valid ai' ∧ sound b ai'.
Proof.
  induction 1 as [|[cell n] obs [Hcell Hn] _ IH]; intros ai ai' Hrun Hv Hb.
  - by simplify_eq/=.
  - cbn [observe_all] in Hrun. simpl in Hcell, Hn. subst n.
    destruct (add_knowledge fuel cell _ ai) as [ai1| |] eqn:E; simpl in Hrun; try done.
    apply add_knowledge_sound in E as [Hv1 Hb1]; [|done..].
    by apply (IH ai1).
Qed.

Lemma sound_init (b : Minesweeper.t) :
  sound b (init (Minesweeper.height b) (Minesweeper.width b)).
Proof.
  split; [done|]. split; [by intros s ?%elem_of_nil|]. simpl. set_solver.
Qed.

(** C1: for the observations of a consistent board (each reveals a cell
    that is not a mine, with the board's count of the mines around it, to
    an AI of the board's dimensions), every [add_knowledge] call completes
    and every sentence of the knowledge list afterwards has
    [0 <= count <= len(cells)].  Every prefix of such a sequence is one, so
    this holds after each call. *)
Theorem sentence_count_bounds (b : Minesweeper.t) (obs : list (Cell * Z)) :
  truthful b obs →
  ∃ fuel ai,
    observe_all fuel obs (init (Minesweeper.height b) (Minesweeper.width b)) = Done ai
    ∧ ∀ s, s ∈ sentences ai → 0 ≤ count s ∧ count s ≤ Z.of_nat (size (cells s)).
Proof.
  intros Hobs.
  destruct (observe_all_total obs (init (Minesweeper.height b) (Minesweeper.width b))
              (valid_init _ _)) as (fuel & ai & Hrun & _).
  exists fuel, ai. split; [done|].
  apply (observe_all_sound b) in Hrun as [_ (_ & Hs & _)];
    [|done|apply valid_init|apply sound_init].
  intros s Hin. rewrite (Hs s Hin). split; [lia|].
  apply inj_le, subseteq_size. set_solver.
Qed.

(** ** Mines and safes only grow, and stay apart *)

Lemma grows_refl (ai : MinesweeperAI) : grows ai ai.
Proof. by repeat split. Qed.

Lemma grows_mark_mine (ai0 ai : MinesweeperAI) (c : Cell) :
  grows ai0 ai → grows ai0 (mark_mine c ai).
Proof. intros (Hm & Hs & Hv). repeat split; simpl; set_solver. Qed.

Lemma grows_mark_safe (ai0 ai : MinesweeperAI) (c : Cell) :
  grows ai0 ai → grows ai0 (mark_safe c ai).
Proof.
  intros (Hm & Hs & Hv). unfold mark_safe. case_decide; [done|].
  repeat split; simpl; set_solver.
Qed.

Lemma grows_drop (ai0 ai : MinesweeperAI) (k' : list ref) :
  grows ai0 ai → grows ai0 (set_knowledge k' ai).
Proof. done. Qed.

Lemma add_knowledge_grows (fuel : nat) (cell : Cell) (n : Z) (ai ai' : MinesweeperAI) :
  valid ai → add_knowledge fuel cell n ai = Done ai' → grows ai ai'.
Proof.
  intros Hv Hrun.
  apply (add_knowledge_preserves (grows ai)) in Hrun as [_ ?]; [done|..].
  - intros. by apply grows_drop.
  - intros a r k' Hg _ _ _.
    apply (foldl_mark_mine_ind (grows ai) (λ _, True));
      [by auto using grows_mark_mine|by apply Forall_true|done].
  - intros a r k' Hg _ _ _.
    apply (foldl_mark_safe_ind (grows ai) (λ _, True));
      [by auto using grows_mark_safe|by apply Forall_true|done].
  - intros a p _ Hg _ _ _. done.
  - done.
  - rewrite add_neighbour_mines_knowledge_eq.
    assert (grows ai (mark_safe cell (set_moves_made ({[cell]} ∪ moves_made ai) ai)))
      as Hg; [|done].
    apply grows_mark_safe. repeat split; simpl; set_solver.
Qed.

Lemma apart_drop (ai : MinesweeperAI) (k' : list ref) :
  apart ai → k' `sublist_of` knowledge ai → apart (set_knowledge k' ai).
Proof. intros [Hp Hd] Hsub. split; [by apply purged_drop|done]. Qed.

Lemma apart_mark_mine (c : Cell) (ai : MinesweeperAI) :
  apart ai → c ∉ safes ai → apart (mark_mine c ai).
Proof.
  intros [Hp Hd] Hc. split; [by apply purged_mark_mine|]. simpl. set_solver.
Qed.

Lemma apart_mark_safe (c : Cell) (ai : MinesweeperAI) :
  apart ai → c ∉ mines ai → apart (mark_safe c ai).
Proof.
  intros [Hp Hd] Hc. split; [by apply purged_mark_safe|].
  unfold mark_safe. case_decide; [done|]. simpl. set_solver.
Qed.

Lemma apart_resolve_mines (ai : MinesweeperAI) (r : ref) (k' : list ref) :
  apart ai → r ∈ knowledge ai → k' `sublist_of` knowledge ai →
  apart (foldl (λ a mine, mark_mine mine a) (set_knowledge k' ai)
               (elements (cells (deref (heap ai) r)))).
Proof.
  intros Ha Hr Hsub.
  apply (foldl_mark_mine_ind (λ a, apart a ∧ safes a = safes ai) (λ c, c ∉ safes ai)).
  - intros a c [Hap Hs] Hc. split; [|done]. apply apart_mark_mine; [done|].
    by rewrite Hs.
  - apply Forall_elements_cells. intros c Hc.
    destruct Ha as [Hp _]. apply elem_of_sentences_knowledge, Hp in Hr. set_solver.
  - split; [by apply apart_drop|done].
Qed.

Lemma apart_resolve_safes (ai : MinesweeperAI) (r : ref) (k' : list ref) :
  apart ai → r ∈ knowledge ai → k' `sublist_of` knowledge ai →
  apart (foldl (λ a safe, mark_safe safe a) (set_knowledge k' ai)
               (elements (cells (deref (heap ai) r)))).
Proof.
  intros Ha Hr Hsub.
  apply (foldl_mark_safe_ind (λ a, apart a ∧ mines a = mines ai) (λ c, c ∉ mines ai)).
  - intros a c [Hap Hm] Hc. split.
    + apply apart_mark_safe; [done|]. by rewrite Hm.
    + by destruct (fields_mark_safe c a) as (_ & _ & -> & _).
  - apply Forall_elements_cells. intros c Hc.
    destruct Ha as [Hp _]. apply elem_of_sentences_knowledge, Hp in Hr. set_solver.
  - split; [by apply apart_drop|done].
Qed.

Lemma add_knowledge_apart (fuel : nat) (cell : Cell) (n : Z) (ai ai' : MinesweeperAI) :
  add_knowledge fuel cell n ai = Done ai' →
  cell ∉ mines ai → valid ai → apart ai → valid ai' ∧ apart ai'.
Proof.
  intros Hrun Hcell Hv Ha.
  apply (add_knowledge_preserves apart) in Hrun; [done|..].
  - apply apart_drop.
  - intros. by apply apart_resolve_mines.
  - intros. by apply apart_resolve_safes.
  - intros a p Hva [Hp Hd] _ H2 _. split; [by apply purged_derive|done].
  - done.
  - destruct Ha as [Hp Hd]. split; [by apply purged_observe|].
    rewrite add_neighbour_mines_knowledge_eq. simpl.
    assert (apart (mark_safe cell (set_moves_made ({[cell]} ∪ moves_made ai) ai)))
      as [_ ?]; [|done].
    by apply apart_mark_safe.
Qed.

Lemma played_valid_apart (h w : Z) (ai : MinesweeperAI) :
  played h w ai → valid ai ∧ apart ai.
Proof.
  induction 1 as [|ai ai' fuel cell n _ [IHv IHa] Hcell Hrun].
  - split; [apply valid_init|]. split; [by intros s ?%elem_of_nil|done].
  - by eapply add_knowledge_apart.
Qed.

(** C2, as amended: every operation only adds to [mines], [safes] and
    [moves_made] (the AI-level [mark_mine] and [mark_safe], and
    [add_knowledge] on any state whose references are allocated, as all
    states the class builds are); and along any sequence of [add_knowledge]
    calls on a fresh AI in which no call observes a cell that is in [mines]
    at the time of the call, [mines] and [safes] are disjoint after every
    call, and the next call completes. *)
Theorem mines_safes_grow_and_stay_apart :
  (∀ c ai, grows ai (mark_mine c ai) ∧ grows ai (mark_safe c ai))
  ∧ (∀ fuel cell n ai ai',
       valid ai → add_knowledge fuel cell n ai = Done ai' → grows ai ai')
  ∧ (∀ h w ai,
       played h w ai →
       mines ai ## safes ai
       ∧ ∀ cell n, ∃ fuel ai', add_knowledge fuel cell n ai = Done ai').
Proof.
  split; [|split].
  - intros c ai. split; [apply grows_mark_mine|apply grows_mark_safe]; apply grows_refl.
  - intros fuel cell n ai ai'. apply add_knowledge_grows.
  - intros h w ai [Hv [_ Hd]]%played_valid_apart. split; [done|].
    intros cell n. destruct (add_knowledge_total cell n ai Hv) as (fuel & ai' & ? & _).
    by exists fuel, ai'.
Qed.

Lemma mines_safes_grow_and_stay_apart_witness :
  ∃ ai, add_knowledge 3 (0, 0) 1 (init 1 2) = Done ai
        ∧ grows (init 1 2) ai
        ∧ mines ai ## safes ai.
Proof.
  eexists. split; [vm_compute; reflexivity|]. split.
  - eapply (proj1 (proj2 mines_safes_grow_and_stay_apart) 3%nat (0, 0) 1).
    + apply valid_init.
    + vm_compute; reflexivity.
  - eapply (λ H, proj1 (proj2 (proj2 mines_safes_grow_and_stay_apart) 1 2 _ H)).
    eapply (played_observe 1 2 (init 1 2) _ 3 (0, 0) 1).
    + apply played_init.
    + apply not_elem_of_empty.
    + vm_compute; reflexivity.
Defined.

(** C2, as stated, fails: observing a cell that the AI holds to be a mine
    puts it into [safes] as well.  On a 1 by 2 board, the observation
    [((0, 0), 1)] makes [(0, 1)] a known mine, and the observation
    [((0, 1), 0)] then marks it safe. *)
Lemma mines_safes_overlap :
  ∃ ai, observe_all 3 [((0, 0), 1); ((0, 1), 0)] (init 1 2) = Done ai
        ∧ (0, 1) ∈ mines ai ∧ (0, 1) ∈ safes ai.
Proof.
  eexists. split; [vm_compute; reflexivity|].
  split; apply (bool_decide_unpack _); vm_compute; exact I.
Qed.

Lemma sentence_count_bounds_witness :
  truthful (Minesweeper.mk 3 3 {[ (0, 0) ]}) [((1, 1), 1); ((2, 2), 0)]
  ∧ ∃ fuel ai,
      observe_all fuel [((1, 1), 1); ((2, 2), 0)] (init 3 3) = Done ai
      ∧ ∀ s, s ∈ sentences ai → 0 ≤ count s ∧ count s ≤ Z.of_nat (size (cells s)).
Proof.
  assert (truthful (Minesweeper.mk 3 3 {[ (0, 0) ]}) [((1, 1), 1); ((2, 2), 0)]) as H.
  { repeat constructor; vm_compute; reflexivity. }
  split; [exact H|].
  exact (sentence_count_bounds (Minesweeper.mk 3 3 {[ (0, 0) ]}) _ H).
Defined.

(** C3: when the knowledge list holds exactly the sentences
    [A = {(0,0),(0,1),(0,2)} = 1] and
    [B = {(0,0),(0,1),(0,2),(1,0),(1,1)} = 2], in either order,
    [extract_from_problem] completes with a knowledge list that holds [A]
    and the derived sentence [{(1,0),(1,1)} = 1], and no longer holds [B];
    the other fields of the AI do not matter. *)
Theorem subset_rule_example (h w : Z) (mv mn sf : gset Cell) :
  (∃ fuel ai',
     extract_from_problem fuel
       (mkAI h w mv mn sf [0; 1]%nat [sentence_A; sentence_B]) = Done ai'
     ∧ sentences ai' = [sentence_A; sentence_B_minus_A]
     ∧ sentence_B ∉ sentences ai')
  ∧ (∃ fuel ai',
       extract_from_problem fuel
         (mkAI h w mv mn sf [0; 1]%nat [sentence_B; sentence_A]) = Done ai'
       ∧ sentences ai' = [sentence_A; sentence_B_minus_A]
       ∧ sentence_B ∉ sentences ai').
Proof.
  split.
  - exists 2%nat. eexists. split; [vm_compute; reflexivity|].
    split; [vm_compute; reflexivity|].
    apply (bool_decide_unpack _). vm_compute. exact I.
  - exists 2%nat. eexists. split; [vm_compute; reflexivity|].
    split; [vm_compute; reflexivity|].
    apply (bool_decide_unpack _). vm_compute. exact I.
Qed.

(** ** Worked examples *)

(** Direct resolution: [{(2,2)} = 1] makes [(2,2)] a known mine, and
    [{(3,3),(3,4)} = 0] makes both cells known safes; both sentences leave
    the knowledge list. *)
Example direct_resolution_example :
  ∃ ai, mark_safe_and_mine 3
          (mkAI 8 8 ∅ ∅ ∅ [0; 1]%nat
                [mkSentence {[ (2, 2) ]} 1; mkSentence {[ (3, 3); (3, 4) ]} 0])
        = Done ai
        ∧ mines ai = {[ (2, 2) ]} ∧ safes ai = {[ (3, 3); (3, 4) ]}
        ∧ knowledge ai = [].
Proof.
  eexists. split; [vm_compute; reflexivity|].
  repeat split; apply (bool_decide_unpack _); vm_compute; exact I.
Qed.

(** Sharing: with the list [[A; X; B]] where [A] and [B] are distinct
    objects that are both [{(0,0),(0,1)} = 1] and [X] is [{(0,0)} = 1],
    resolving [X] rewrites [A] and [B] in place to [{(0,1)} = 0]; when the
    loop reaches [B], [remove] drops the first equal sentence, the object
    [A], and the marking that follows empties [B], which the final loop
    drops. *)
Example shared_sentences_example :
  ∃ ai, mark_safe_and_mine 4
          (mkAI 1 2 ∅ ∅ ∅ [0; 1; 2]%nat
                [mkSentence {[ (0, 0); (0, 1) ]} 1; mkSentence {[ (0, 0) ]} 1;
                 mkSentence {[ (0, 0); (0, 1) ]} 1])
        = Done ai
        ∧ mines ai = {[ (0, 0) ]} ∧ safes ai = {[ (0, 1) ]}
        ∧ knowledge ai = []
        ∧ heap ai = [mkSentence {[ (0, 1) ]} 0; mkSentence {[ (0, 0) ]} 1;
                     mkSentence ∅ 0].
Proof.
  eexists. split; [vm_compute; reflexivity|].
  repeat split; apply (bool_decide_unpack _); vm_compute; exact I.
Qed.

(** * Further properties *)

(** ** The operations of a sentence *)

(** X1: a sentence that is true of a mine set stays true when one of the mines
    is marked in it with [mark_mine], and when a cell that is no mine is
    marked with [mark_safe]. *)
Theorem sentence_marks_keep_truth (M : gset Cell) (c : Cell) (s : Sentence) :
  holds_of M s →
  (c ∈ M → holds_of M (Sent.mark_mine c s))
  ∧ (c ∉ M → holds_of M (Sent.mark_safe c s)).
Proof.
  unfold holds_of. intros Hs. split; intros Hc.
  - by rewrite cells_mark_mine, count_mark_mine, size_inter_remove_mine, Hs.
  - by rewrite cells_mark_safe, count_mark_safe, size_inter_remove_safe.
Qed.

Lemma sentence_marks_keep_truth_witness :
  holds_of {[ (0, 0) ]} (mkSentence {[ (0, 0); (0, 1) ]} 1)
  ∧ holds_of {[ (0, 0) ]} (Sent.mark_mine (0, 0) (mkSentence {[ (0, 0); (0, 1) ]} 1))
  ∧ holds_of {[ (0, 0) ]} (Sent.mark_safe (0, 1) (mkSentence {[ (0, 0); (0, 1) ]} 1)).
Proof.
  assert (holds_of {[ (0, 0) ]} (mkSentence {[ (0, 0); (0, 1) ]} 1)) as H
    by (vm_compute; reflexivity).
  split; [exact H|]. split.
  - apply (proj1 (sentence_marks_keep_truth _ (0, 0) _ H)).
    apply (bool_decide_unpack _). vm_compute. exact I.
  - apply (proj2 (sentence_marks_keep_truth _ (0, 1) _ H)).
    apply (bool_decide_unpack _). vm_compute. exact I.
Defined.

(** X2: marking removes the cell from the sentence, whichever of the two
    operations is used; marks of different cells can be applied in either
    order, and a mark on a cell the sentence does not hold changes
    nothing. *)
Theorem sentence_marks_commute (c1 c2 : Cell) (s : Sentence) :
  c1 ∉ cells (Sent.mark_mine c1 s) ∧ c1 ∉ cells (Sent.mark_safe c1 s)
  ∧ Sent.mark_mine c1 (Sent.mark_mine c2 s) = Sent.mark_mine c2 (Sent.mark_mine c1 s)
  ∧ Sent.mark_safe c1 (Sent.mark_safe c2 s) = Sent.mark_safe c2 (Sent.mark_safe c1 s)
  ∧ (c1 ≠ c2 →
     Sent.mark_mine c1 (Sent.mark_safe c2 s) = Sent.mark_safe c2 (Sent.mark_mine c1 s))
  ∧ (c1 ∉ cells s → Sent.mark_mine c1 s = s ∧ Sent.mark_safe c1 s = s).
Proof.
  assert (∀ s1 s2 : Sentence, cells s1 = cells s2 → count s1 = count s2 → s1 = s2)
    as Heq by (intros [??] [??]; simpl; congruence).
  split; [rewrite cells_mark_mine; set_solver|].
  split; [rewrite cells_mark_safe; set_solver|].
  split; [|split; [|split]].
  - apply Heq.
    + rewrite !cells_mark_mine. set_solver.
    + rewrite !count_mark_mine, !cells_mark_mine.
      destruct (decide (c1 = c2)) as [->|Hne]; [done|].
      repeat case_decide; set_solver || lia.
  - apply Heq.
    + rewrite !cells_mark_safe. set_solver.
    + by rewrite !count_mark_safe.
  - intros Hne. apply Heq.
    + rewrite !cells_mark_mine, !cells_mark_safe, cells_mark_mine. set_solver.
    + rewrite count_mark_mine, !count_mark_safe, count_mark_mine, cells_mark_safe.
      repeat case_decide; set_solver || lia.
  - intros Hc. unfold Sent.mark_mine, Sent.mark_safe. by rewrite !decide_False.
Qed.

(** ** The board *)

Lemma elem_of_square (cell c : Cell) : c ∈ square cell ↔ adjacent cell c.
Proof.
  unfold square, adjacent. destruct c as [i j]; simpl.
  rewrite list_elem_of_bind. split.
  - intros (i' & Hin & Hi'). apply list_elem_of_bind in Hin as (j' & Hin & Hj').
    apply elem_of_zrange in Hi', Hj'. apply list_elem_of_singleton in Hin.
    simplify_eq. lia.
  - intros [Hi Hj]. exists i. split; [|apply elem_of_zrange; lia].
    apply list_elem_of_bind. exists j. split; [|apply elem_of_zrange; lia].
    by apply list_elem_of_singleton.
Qed.

Lemma length_square (cell : Cell) : length (square cell) = 9%nat.
Proof.
  unfold square, zrange.
  replace (cell.1 + 2 - (cell.1 - 1)) with 3 by lia.
  replace (cell.2 + 2 - (cell.2 - 1)) with 3 by lia.
  done.
Qed.

Lemma length_filter_others (cell : Cell) (P : Cell → Prop) `{!∀ c, Decision (P c)} :
  (∀ c, P c → c ≠ cell) → (length (filter P (square cell)) ≤ 8)%nat.
Proof.
  intros HP.
  assert (length (filter P (square cell)) < length (square cell))%nat as Hlt.
  { apply (length_filter_lt _ _ cell).
    - apply elem_of_square. unfold adjacent. lia.
    - intros Hc. by apply (HP cell). }
  rewrite length_square in Hlt. lia.
Qed.

(** X3: [nearby_mines] returns the number of mines of the board that lie within
    one row and one column of the cell, the cell itself left out; the
    result is between 0 and 8. *)
Theorem nearby_mines_spec (b : Minesweeper.t) (cell : Cell) :
  Minesweeper.nearby_mines b cell
  = Z.of_nat (size (filter (λ c, c ≠ cell ∧ adjacent cell c
                                 ∧ in_bounds (Minesweeper.height b)
                                             (Minesweeper.width b) c)
                           (Minesweeper.mines b)))
  ∧ 0 ≤ Minesweeper.nearby_mines b cell ≤ 8.
Proof.
  rewrite nearby_mines_eq. split.
  - rewrite <- (size_list_to_set (C := gset Cell))
      by apply NoDup_filter, NoDup_square.
    do 2 f_equal. apply set_eq. intros c.
    rewrite elem_of_list_to_set, list_elem_of_filter, elem_of_filter, elem_of_square.
    tauto.
  - split; [lia|].
    assert (length (filter (λ c, c ≠ cell
                     ∧ in_bounds (Minesweeper.height b) (Minesweeper.width b) c
                     ∧ c ∈ Minesweeper.mines b) (square cell)) ≤ 8)%nat; [|lia].
    apply length_filter_others. tauto.
Qed.

Lemma randrange_Done (n : Z) (draw : nat) (i : Z) :
  randrange n draw = Done i → 0 ≤ i ∧ i < n.
Proof.
  unfold randrange. case_decide; [|done]. intros [= <-].
  by apply Z.mod_pos_bound.
Qed.

Lemma place_mines_Done (h w m : Z) (draws : list (nat * nat)) :
  ∀ placed ms,
    place_mines h w m draws placed = Done ms →
    (∀ c, c ∈ placed → in_bounds h w c) →
    Z.of_nat (size ms) = m ∧ placed ⊆ ms ∧ ∀ c, c ∈ ms → in_bounds h w c.
Proof.
  induction draws as [|d draws IH]; intros placed ms; cbn [place_mines].
  - case_decide; [|done]. by intros [= <-] Hb.
  - case_decide; [by intros [= <-] Hb|].
    destruct (randrange h d.1) as [i| |] eqn:Ei; simpl; try done.
    destruct (randrange w d.2) as [j| |] eqn:Ej; simpl; try done.
    apply randrange_Done in Ei, Ej. intros Hrun Hb.
    apply IH in Hrun as (Hsize & Hsub & Hin).
    + split; [done|]. split; [|done]. case_decide; set_solver.
    + intros c. case_decide; [by apply Hb|].
      intros [->%elem_of_singleton|Hc]%elem_of_union; [|by apply Hb].
      unfold in_bounds. simpl. lia.
Qed.

Lemma length_zrange (a b : Z) : length (zrange a b) = Z.to_nat (b - a).
Proof. unfold zrange. by rewrite length_fmap, length_seq. Qed.

Lemma length_bind_const {A B : Type} (f : A → list B) (n : nat) (l : list A) :
  (∀ x, length (f x) = n) → length (l ≫= f) = (length l * n)%nat.
Proof.
  intros Hf. induction l as [|x l IH]; [done|].
  rewrite bind_cons, length_app, IH, Hf. simpl. lia.
Qed.

(** A set of cells of an [h] by [w] board has at most [h * w] elements. *)
Lemma size_in_bounds (h w : Z) (ms : gset Cell) :
  (∀ c, c ∈ ms → in_bounds h w c) →
  Z.of_nat (size ms) ≤ Z.max 0 h * Z.max 0 w.
Proof.
  intros Hb.
  set (board := i ← range h; j ← range w; [(i, j)]).
  assert (NoDup board) as Hnd.
  { unfold board, range. apply NoDup_bind; [| |apply NoDup_zrange].
    - intros i1 i2 c _ _ (j1 & Hc1 & _)%list_elem_of_bind
        (j2 & Hc2 & _)%list_elem_of_bind.
      apply list_elem_of_singleton in Hc1, Hc2. by simplify_eq.
    - intros i _. apply NoDup_bind; [| |apply NoDup_zrange].
      + intros j1 j2 c _ _ Hc1%list_elem_of_singleton Hc2%list_elem_of_singleton.
        by simplify_eq.
      + intros j _. apply NoDup_singleton. }
  assert (length board = (Z.to_nat h * Z.to_nat w)%nat) as Hlen.
  { unfold board, range.
    rewrite (length_bind_const _ (Z.to_nat w)), length_zrange.
    - f_equal. lia.
    - intros i. rewrite (length_bind_const _ 1%nat), length_zrange by done. lia. }
  assert (ms ⊆ list_to_set board) as Hsub.
  { intros [i j] Hc. apply Hb in Hc as [Hi Hj]. simpl in *.
    apply elem_of_list_to_set. unfold board, range.
    apply list_elem_of_bind. exists i. split; [|apply elem_of_zrange; lia].
    apply list_elem_of_bind. exists j. split; [|apply elem_of_zrange; lia].
    by apply list_elem_of_singleton. }
  apply subseteq_size in Hsub. rewrite size_list_to_set, Hlen in Hsub by done.
  apply inj_le in Hsub. rewrite Nat2Z.inj_mul in Hsub.
  assert (Z.of_nat (Z.to_nat h) = Z.max 0 h) as Hh by lia.
  assert (Z.of_nat (Z.to_nat w) = Z.max 0 w) as Hw by lia.
  by rewrite Hh, Hw in Hsub.
Qed.

(** X4: when [Minesweeper(height, width, mines)] completes, the board has the
    given dimensions and exactly [mines] mines, all of them on the board;
    so it completes only if [0 <= mines <= height * width]. *)
Theorem Minesweeper_init_spec (h w m : Z) (draws : list (nat * nat))
    (b : Minesweeper.t) :
  Minesweeper_init h w m draws = Done b →
  (Minesweeper.height b = h ∧ Minesweeper.width b = w)
  ∧ Z.of_nat (size (Minesweeper.mines b)) = m
  ∧ (∀ c, c ∈ Minesweeper.mines b → in_bounds h w c)
  ∧ (0 ≤ m ∧ m ≤ Z.max 0 h * Z.max 0 w).
Proof.
  unfold Minesweeper_init.
  destruct (place_mines h w m draws ∅) as [ms| |] eqn:E; simpl; try done.
  intros [= <-]. simpl.
  apply place_mines_Done in E as (Hsize & _ & Hin); [|by intros c ?%elem_of_empty].
  split; [done|]. split; [done|]. split; [done|].
  pose proof (size_in_bounds h w ms Hin). lia.
Qed.

Lemma Minesweeper_init_spec_witness :
  ∃ b, Minesweeper_init 2 2 2 [(0, 1); (2, 3); (1, 0)]%nat = Done b
       ∧ Z.of_nat (size (Minesweeper.mines b)) = 2
       ∧ (∀ c, c ∈ Minesweeper.mines b → in_bounds 2 2 c).
Proof.
  assert (∃ b, Minesweeper_init 2 2 2 [(0, 1); (2, 3); (1, 0)]%nat = Done b) as [b Hb]
    by (eexists; vm_compute; reflexivity).
  exists b. split; [exact Hb|].
  destruct (Minesweeper_init_spec _ _ _ _ _ Hb) as (_ & H1 & H2 & _).
  exact (conj H1 H2).
Defined.


Lemma place_mines_reaches (h w : Z) (l : list Cell) :
  ∀ placed : gset Cell,
    NoDup l → (∀ c, c ∈ l → in_bounds h w c ∧ c ∉ placed) →
    place_mines h w (Z.of_nat (size placed + length l))
      ((λ c : Cell, (Z.to_nat c.1, Z.to_nat c.2)) <$> l) placed
    = Done (list_to_set l ∪ placed).
Proof.
  induction l as [|[i j] l IH]; intros placed Hnd Hl.
  - cbn [place_mines fmap list_fmap length].
    rewrite decide_True by (f_equal; lia).
    by rewrite list_to_set_nil, (left_id_L ∅ (∪)).
  - apply NoDup_cons in Hnd as [Hnotin Hnd].
    destruct (Hl (i, j)) as [[Hi Hj] Hnew]; [left|]. simpl in Hi, Hj.
    rewrite fmap_cons. cbn [place_mines length fst snd].
    rewrite decide_False by lia.
    unfold randrange. rewrite !decide_True by lia. simpl.
    rewrite !Z2Nat.id, !Z.mod_small by lia.
    rewrite decide_False by done.
    assert (size ({[(i, j)]} ∪ placed) = S (size placed)) as Hsize.
    { rewrite size_union by set_solver. by rewrite size_singleton. }
    replace (size placed + S (length l))%nat
      with (size ({[(i, j)]} ∪ placed) + length l)%nat by lia.
    rewrite IH; [|done|].
    + f_equal. simpl. set_solver.
    + intros c Hc. destruct (Hl c) as [Hin Hc']; [by right|]. split; [done|].
      apply not_elem_of_union. split; [|done].
      intros ->%elem_of_singleton. done.
Qed.

(** X6: every board can come out of the constructor: for each set of cells of
    the board there are draws for which [Minesweeper(height, width, mines)],
    asked for as many mines as the set has cells, completes with exactly
    these mines. *)
Theorem Minesweeper_init_reaches (h w : Z) (ms : gset Cell) :
  (∀ c, c ∈ ms → in_bounds h w c) →
  ∃ draws,
    Minesweeper_init h w (Z.of_nat (size ms)) draws = Done (Minesweeper.mk h w ms).
Proof.
  intros Hb. exists ((λ c : Cell, (Z.to_nat c.1, Z.to_nat c.2)) <$> elements ms).
  unfold Minesweeper_init.
  pose proof (place_mines_reaches h w (elements ms) ∅ (NoDup_elements ms)) as Hrun.
  rewrite size_empty in Hrun. simpl in Hrun.
  unfold size, set_size. simpl. rewrite Hrun.
  - simpl. do 2 f_equal. rewrite (right_id_L ∅ (∪)). apply list_to_set_elements_L.
  - intros c Hc%elem_of_elements. split; [by apply Hb|]. apply not_elem_of_empty.
Qed.

Lemma Minesweeper_init_reaches_witness :
  ∃ draws,
    Minesweeper_init 3 3 (Z.of_nat (size ({[ (0, 0); (2, 1) ]} : gset Cell))) draws
    = Done (Minesweeper.mk 3 3 {[ (0, 0); (2, 1) ]}).
Proof.
  apply (Minesweeper_init_reaches 3 3 {[ (0, 0); (2, 1) ]}).
  intros c Hc.
  assert (c = (0, 0) ∨ c = (2, 1)) as [-> | ->] by set_solver; vm_compute; intuition congruence.
Defined.

(** ** The order of marking does not matter *)

Lemma Sentence_eq (s1 s2 : Sentence) :
  cells s1 = cells s2 → count s1 = count s2 → s1 = s2.
Proof. destruct s1, s2; simpl; congruence. Qed.

Lemma Sent_mark_mine_comm (c1 c2 : Cell) (s : Sentence) :
  Sent.mark_mine c1 (Sent.mark_mine c2 s) = Sent.mark_mine c2 (Sent.mark_mine c1 s).
Proof.
  apply Sentence_eq.
  - rewrite !cells_mark_mine. set_solver.
  - rewrite !count_mark_mine, !cells_mark_mine.
    destruct (decide (c1 = c2)) as [->|Hne]; [done|].
    repeat case_decide; set_solver || lia.
Qed.

Lemma Sent_mark_safe_comm (c1 c2 : Cell) (s : Sentence) :
  Sent.mark_safe c1 (Sent.mark_safe c2 s) = Sent.mark_safe c2 (Sent.mark_safe c1 s).
Proof.
  apply Sentence_eq.
  - rewrite !cells_mark_safe. set_solver.
  - by rewrite !count_mark_safe.
Qed.

Lemma update_all_comm (f g : Sentence → Sentence) (k : list ref) (h : list Sentence) :
  (∀ s, f (f s) = f s) → (∀ s, g (g s) = g s) → (∀ s, f (g s) = g (f s)) →
  update_all f k (update_all g k h) = update_all g k (update_all f k h).
Proof.
  intros Hf Hg Hfg. apply list_eq. intros i. rewrite !lookup_update_all by done.
  destruct (h !! i) as [s|]; simpl; [|done].
  case_decide; simpl; by rewrite ?Hfg.
Qed.

Lemma mark_mine_comm (c1 c2 : Cell) (ai : MinesweeperAI) :
  mark_mine c1 (mark_mine c2 ai) = mark_mine c2 (mark_mine c1 ai).
Proof.
  unfold mark_mine, set_heap, set_mines; simpl. f_equal.
  - set_solver.
  - apply update_all_comm; auto using mark_mine_idemp, Sent_mark_mine_comm.
Qed.

Lemma mark_safe_comm (c1 c2 : Cell) (ai : MinesweeperAI) :
  mark_safe c1 (mark_safe c2 ai) = mark_safe c2 (mark_safe c1 ai).
Proof.
  destruct (decide (c1 = c2)) as [->|Hne]; [done|].
  destruct (decide (c1 ∈ safes ai)) as [H1|H1].
  { rewrite (mark_safe_known c1 ai) by done. apply mark_safe_known.
    unfold mark_safe. case_decide; [done|]. simpl. set_solver. }
  destruct (decide (c2 ∈ safes ai)) as [H2|H2].
  { rewrite (mark_safe_known c2 ai) by done. symmetry. apply mark_safe_known.
    unfold mark_safe. case_decide; [done|]. simpl. set_solver. }
  unfold mark_safe. rewrite !(decide_False (P := _ ∈ safes ai)) by done. simpl.
  rewrite !decide_False by set_solver.
  unfold set_heap, set_safes; simpl. f_equal.
  - set_solver.
  - apply update_all_comm; auto using mark_safe_idemp, Sent_mark_safe_comm.
Qed.

(** X7: the loops [for mine in mines: self.mark_mine(mine)] and
    [for safe in safes: self.mark_safe(safe)] leave the same AI whatever
    the order in which the tuple lists the cells, so the iteration order
    of the Python set a tuple was made from does not affect the result. *)
Theorem marking_order_irrelevant (l l' : list Cell) :
  l ≡ₚ l' →
  ∀ ai,
    foldl (λ a mine, mark_mine mine a) ai l = foldl (λ a mine, mark_mine mine a) ai l'
    ∧ foldl (λ a safe, mark_safe safe a) ai l = foldl (λ a safe, mark_safe safe a) ai l'.
Proof.
  induction 1 as [|c l l' _ IH|c1 c2 l|l1 l2 l3 _ IH1 _ IH2]; intros ai; simpl.
  - done.
  - split; apply IH.
  - by rewrite mark_mine_comm, mark_safe_comm.
  - destruct (IH1 ai) as [-> ->]. apply IH2.
Qed.

Lemma marking_order_irrelevant_witness :
  foldl (λ a mine, mark_mine mine a) (init 2 2) [(0, 0); (0, 1)]
  = foldl (λ a mine, mark_mine mine a) (init 2 2) [(0, 1); (0, 0)].
Proof.
  apply (marking_order_irrelevant [(0, 0); (0, 1)] [(0, 1); (0, 0)]).
  apply perm_swap.
Defined.

(** ** Saturation *)

Lemma resolve_quiet (r : ref) (ai ai' : MinesweeperAI) (flag : bool) :
  resolve r (ai, flag) = Done (ai', false) →
  flag = false ∧ ai' = ai ∧ quiet (deref (heap ai) r).
Proof.
  unfold resolve, quiet.
  destruct (truthy (Sent.known_mines (deref (heap ai) r))) eqn:Em;
    destruct (truthy (Sent.known_safes (deref (heap ai) r))) eqn:Es; simpl;
    try (destruct (knowledge_remove r ai) as [ai1| |]; simpl; by intros [=]).
Qed.

Lemma for_each_resolve_quiet (rest : list ref) :
  ∀ ai ai' flag,
    for_each resolve rest (ai, flag) = Done (ai', false) →
    flag = false ∧ ai' = ai ∧ ∀ r, r ∈ rest → quiet (deref (heap ai) r).
Proof.
  induction rest as [|r rest IH]; intros ai ai' flag; cbn [for_each].
  - intros [= <- <-]. split; [done|]. split; [done|]. by intros r ?%elem_of_nil.
  - destruct (resolve r (ai, flag)) as [[ai1 flag1]| |] eqn:E; simpl; try done.
    intros (-> & -> & Hrest)%IH.
    apply resolve_quiet in E as (-> & -> & Hq).
    split; [done|]. split; [done|].
    intros r' [->|Hr']%elem_of_cons; [done|by apply Hrest].
Qed.

(** When the [while] loop of [mark_safe_and_mine] stops, its last round
    has found no sentence to resolve. *)
Lemma resolution_loop_quiet (fuel : nat) :
  ∀ ai ai', resolution_loop fuel ai = Done ai' →
    ∀ s, s ∈ sentences ai' → quiet s.
Proof.
  induction fuel as [|fuel IH]; intros ai ai'; [done|]. cbn [resolution_loop].
  destruct (for_each resolve (knowledge ai) (ai, false)) as [[ai1 [|]]| |] eqn:E;
    simpl; try done.
  - apply IH.
  - intros [= <-]. apply for_each_resolve_quiet in E as (_ & -> & Hq).
    intros s (r & -> & Hr)%list_elem_of_fmap. by apply Hq.
Qed.

Lemma quiet_unresolved (s : Sentence) : quiet s → cells s ≠ ∅ → unresolved s.
Proof.
  intros [Hm Hs] Hne. split; [done|].
  assert (elements (cells s) ≠ []) as He.
  { intros He. by apply Hne, leibniz_equiv, elements_empty_inv. }
  unfold Sent.known_mines, Sent.known_safes in *. split.
  - intros Hc. rewrite decide_True in Hs by done. simpl in Hs.
    by destruct (elements (cells s)).
  - intros Hc. rewrite decide_True in Hm by done. simpl in Hm.
    by destruct (elements (cells s)).
Qed.

Lemma mark_safe_and_mine_unresolved (fuel : nat) (ai ai' : MinesweeperAI) :
  mark_safe_and_mine fuel ai = Done ai' → ∀ s, s ∈ sentences ai' → unresolved s.
Proof.
  unfold mark_safe_and_mine.
  destruct (resolution_loop fuel ai) as [ai1| |] eqn:E; simpl; try done.
  intros Hrun. pose proof (resolution_loop_quiet _ _ _ E) as Hq.
  destruct (for_each_purge_spec (λ a, ∀ s, s ∈ sentences a → quiet s))
    with (rest := knowledge ai1) (kept := @nil ref) (ai := ai1)
    as (ai'' & Hrun' & Hq' & Hne); [|done|by intros r ?%elem_of_nil|done|].
  { intros a k' Ha Hsub s Hs. apply Ha. by eapply elem_of_sentences_drop. }
  rewrite Hrun in Hrun'. simplify_eq.
  intros s Hs. apply quiet_unresolved; [by apply Hq'|by apply Hne].
Qed.

Lemma elem_of_permutations2_2 {A : Type} (l : list A) (i j : nat) (x y : A) :
  i ≠ j → l !! i = Some x → l !! j = Some y → (x, y) ∈ permutations2 l.
Proof.
  intros Hne Hi Hj. unfold permutations2.
  apply list_elem_of_bind. exists (i, x). split.
  - apply list_elem_of_bind. exists (j, y). split.
    + simpl. rewrite decide_False by done. by apply list_elem_of_singleton.
    + apply elem_of_lookup_imap. by exists j, y.
  - apply elem_of_lookup_imap. by exists i, x.
Qed.

Lemma no_subset_pairs (ai : MinesweeperAI) :
  subset_pairs ai = [] →
  ∀ s1 s2, s1 ∈ sentences ai → s2 ∈ sentences ai → s1 ≠ s2 → ¬ cells s1 ⊆ cells s2.
Proof.
  intros He s1 s2 (r1 & -> & H1)%list_elem_of_fmap (r2 & -> & H2)%list_elem_of_fmap
    Hne Hsub.
  apply list_elem_of_lookup in H1 as [i Hi], H2 as [j Hj].
  assert (i ≠ j) as Hij by (intros ->; by simplify_eq).
  assert ((r1, r2) ∈ subset_pairs ai) as Hin.
  { unfold subset_pairs. apply list_elem_of_filter. split; [done|].
    by eapply elem_of_permutations2_2. }
  rewrite He in Hin. by apply elem_of_nil in Hin.
Qed.

Lemma extract_from_problem_saturated (fuel : nat) :
  ∀ ai ai', extract_from_problem fuel ai = Done ai' →
    (∀ s, s ∈ sentences ai → unresolved s) → saturated ai'.
Proof.
  induction fuel as [|fuel IH]; intros ai ai' Hrun Hu; [done|].
  cbn [extract_from_problem] in Hrun.
  destruct (knowledge_remove_same_sentence ai) as [Hsub _].
  case_bool_decide as He; simpl in Hrun.
  - rewrite He in Hrun. simpl in Hrun. simplify_eq. split.
    + intros s Hs. apply Hu.
      by apply (elem_of_sentences_drop ai (knowledge (remove_same_sentence ai))).
    + by apply no_subset_pairs.
  - destruct (mark_safe_and_mine fuel _) as [ai3| |] eqn:E; simpl in Hrun; try done.
    apply IH in Hrun; [done|]. by eapply mark_safe_and_mine_unresolved.
Qed.

Lemma add_knowledge_saturated (fuel : nat) (cell : Cell) (n : Z)
    (ai ai' : MinesweeperAI) :
  add_knowledge fuel cell n ai = Done ai' → saturated ai'.
Proof.
  unfold add_knowledge.
  destruct (mark_safe_and_mine fuel _) as [ai1| |] eqn:E; simpl; try done.
  intros Hrun. apply extract_from_problem_saturated in Hrun; [done|].
  by eapply mark_safe_and_mine_unresolved.
Qed.

Lemma observe_all_saturated (fuel : nat) (obs : list (Cell * Z)) (o : Cell * Z)
    (ai ai' : MinesweeperAI) :
  observe_all fuel (obs ++ [o]) ai = Done ai' → saturated ai'.
Proof.
  rewrite observe_all_app.
  destruct (observe_all fuel obs ai) as [ai1| |]; simpl; try done.
  destruct o as [cell n].
  destruct (add_knowledge fuel cell n ai1) as [ai2| |] eqn:E; simpl; try done.
  intros [= <-]. by eapply add_knowledge_saturated.
Qed.

(** X8: after every [add_knowledge] call of a game, whatever was observed, the
    knowledge list is saturated: every sentence has cells and a count that
    is neither zero nor the number of its cells, so neither [known_mines]
    nor [known_safes] yields anything, and the cells of no sentence are
    included in those of a different sentence. *)
Theorem knowledge_saturated (h w : Z) (obs : list (Cell * Z)) (cell : Cell) (n : Z) :
  ∃ fuel ai,
    observe_all fuel (obs ++ [(cell, n)]) (init h w) = Done ai
    ∧ saturated ai
    ∧ ∀ s, s ∈ sentences ai → Sent.known_mines s = None ∧ Sent.known_safes s = None.
Proof.
  destruct (observe_all_total (obs ++ [(cell, n)]) (init h w) (valid_init h w))
    as (fuel & ai & Hrun & _).
  exists fuel, ai. split; [done|].
  apply observe_all_saturated in Hrun. split; [done|].
  intros s Hs. destruct Hrun as [Hu _]. destruct (Hu s Hs) as (_ & H0 & Hn).
  unfold Sent.known_mines, Sent.known_safes. by rewrite !decide_False.
Qed.

(** X9: for the observations of a consistent board, every sentence left after an
    [add_knowledge] call has a count strictly between zero and the number
    of its cells. *)
Theorem sentence_count_strict (b : Minesweeper.t) (obs : list (Cell * Z))
    (cell : Cell) (n : Z) :
  truthful b (obs ++ [(cell, n)]) →
  ∃ fuel ai,
    observe_all fuel (obs ++ [(cell, n)])
      (init (Minesweeper.height b) (Minesweeper.width b)) = Done ai
    ∧ ∀ s, s ∈ sentences ai → 0 < count s ∧ count s < Z.of_nat (size (cells s)).
Proof.
  intros Hobs.
  destruct (observe_all_total (obs ++ [(cell, n)])
              (init (Minesweeper.height b) (Minesweeper.width b)) (valid_init _ _))
    as (fuel & ai & Hrun & _).
  exists fuel, ai. split; [done|].
  pose proof (observe_all_saturated _ _ _ _ _ Hrun) as [Hu _].
  apply (observe_all_sound b) in Hrun as [_ (_ & Hs & _)];
    [|done|apply valid_init|apply sound_init].
  intros s Hin. destruct (Hu s Hin) as (_ & H0 & Hn). rewrite (Hs s Hin) in *.
  assert (size (cells s ∩ Minesweeper.mines b) ≤ size (cells s))%nat
    by (apply subseteq_size; set_solver).
  lia.
Qed.

Lemma sentence_count_strict_witness :
  truthful (Minesweeper.mk 3 3 {[ (0, 0) ]}) ([((1, 1), 1)] ++ [((2, 2), 0)])
  ∧ ∃ fuel ai,
      observe_all fuel ([((1, 1), 1)] ++ [((2, 2), 0)]) (init 3 3) = Done ai
      ∧ ∀ s, s ∈ sentences ai → 0 < count s ∧ count s < Z.of_nat (size (cells s)).
Proof.
  assert (truthful (Minesweeper.mk 3 3 {[ (0, 0) ]}) ([((1, 1), 1)] ++ [((2, 2), 0)]))
    as H by (repeat constructor; vm_compute; reflexivity).
  split; [exact H|].
  exact (sentence_count_strict (Minesweeper.mk 3 3 {[ (0, 0) ]}) _ _ _ H).
Defined.

(** ** What a consistent game guarantees the player *)

Lemma make_safe_move_elem (pick : nat) (ai : MinesweeperAI) (c : Cell) :
  (make_safe_move pick ai).1 = Some c → c ∈ safes ai.
Proof.
  unfold make_safe_move.
  destruct (set_pop pick (safes ai ∖ moves_made ai)) as [[c' s']|] eqn:E; simpl;
    [|done].
  intros [= <-]. apply set_pop_Some in E as [Hc _]. set_solver.
Qed.

(** X10: for the observations of a consistent board: every cell the AI holds to
    be a mine is a mine of the board, no cell it holds to be safe is, and
    so a move returned by [make_safe_move] never hits a mine. *)
Theorem safe_moves_are_safe (b : Minesweeper.t) (obs : list (Cell * Z)) :
  truthful b obs →
  ∃ fuel ai,
    observe_all fuel obs (init (Minesweeper.height b) (Minesweeper.width b)) = Done ai
    ∧ (∀ c, c ∈ mines ai → Minesweeper.is_mine b c = true)
    ∧ (∀ c, c ∈ safes ai → Minesweeper.is_mine b c = false)
    ∧ (∀ pick c, (make_safe_move pick ai).1 = Some c → Minesweeper.is_mine b c = false).
Proof.
  intros Hobs.
  destruct (observe_all_total obs (init (Minesweeper.height b) (Minesweeper.width b))
              (valid_init _ _)) as (fuel & ai & Hrun & _).
  exists fuel, ai. split; [done|].
  apply (observe_all_sound b) in Hrun as [_ (_ & _ & Hm & Hs & _)];
    [|done|apply valid_init|apply sound_init].
  assert (∀ c, c ∈ safes ai → Minesweeper.is_mine b c = false) as Hsafe.
  { intros c Hc. apply bool_decide_eq_false. intros Hc'. by apply (Hs c). }
  split; [|split; [done|]].
  - intros c Hc. apply bool_decide_eq_true. by apply Hm.
  - intros pick c Hc. by apply Hsafe, (make_safe_move_elem pick).
Qed.

Lemma safe_moves_are_safe_witness :
  truthful (Minesweeper.mk 3 3 {[ (0, 0) ]}) [((1, 1), 1); ((2, 2), 0)]
  ∧ ∃ fuel ai,
      observe_all fuel [((1, 1), 1); ((2, 2), 0)] (init 3 3) = Done ai
      ∧ ∀ pick c, (make_safe_move pick ai).1 = Some c →
                  Minesweeper.is_mine (Minesweeper.mk 3 3 {[ (0, 0) ]}) c = false.
Proof.
  assert (truthful (Minesweeper.mk 3 3 {[ (0, 0) ]}) [((1, 1), 1); ((2, 2), 0)]) as H
    by (repeat constructor; vm_compute; reflexivity).
  split; [exact H|].
  destruct (safe_moves_are_safe (Minesweeper.mk 3 3 {[ (0, 0) ]}) _ H)
    as (fuel & ai & Hrun & _ & _ & Hmove).
  exact (ex_intro _ fuel (ex_intro _ ai (conj Hrun Hmove))).
Defined.

(** ** The moves made *)

Lemma recorded_marks (X : gset Cell) (ai : MinesweeperAI) (k' : list ref)
    (l : list Cell) :
  recorded X ai →
  recorded X (foldl (λ a mine, mark_mine mine a) (set_knowledge k' ai) l)
  ∧ recorded X (foldl (λ a safe, mark_safe safe a) (set_knowledge k' ai) l).
Proof.
  intros Hr. split.
  - apply (foldl_mark_mine_ind (recorded X) (λ _, True));
      [|by apply Forall_true|done].
    by intros a c [??] _.
  - apply (foldl_mark_safe_ind (recorded X) (λ _, True));
      [|by apply Forall_true|done].
    intros a c [Hm Hs] _. destruct (fields_mark_safe c a) as (_ & _ & _ & Hmv).
    split; [by rewrite Hmv|]. unfold mark_safe. case_decide; [done|].
    simpl. set_solver.
Qed.

Lemma add_knowledge_recorded (X : gset Cell) (fuel : nat) (cell : Cell) (n : Z)
    (ai ai' : MinesweeperAI) :
  add_knowledge fuel cell n ai = Done ai' →
  valid ai → recorded X ai → valid ai' ∧ recorded ({[cell]} ∪ X) ai'.
Proof.
  intros Hrun Hv [Hm Hs].
  apply (add_knowledge_preserves (recorded ({[cell]} ∪ X))) in Hrun; [done|..].
  - by intros a k' [??] _.
  - intros a r k' Hr _ _ _. by apply recorded_marks.
  - intros a r k' Hr _ _ _. by apply recorded_marks.
  - by intros a p _ [??] _ _ _.
  - done.
  - rewrite add_neighbour_mines_knowledge_eq.
    assert (recorded ({[cell]} ∪ X)
              (mark_safe cell (set_moves_made ({[cell]} ∪ moves_made ai) ai)))
      as [??]; [|done].
    destruct (fields_mark_safe cell (set_moves_made ({[cell]} ∪ moves_made ai) ai))
      as (_ & _ & _ & Hmv).
    split; [rewrite Hmv; simpl; by rewrite Hm|].
    unfold mark_safe. case_decide; simpl in *; set_solver.
Qed.

Lemma observe_all_recorded (fuel : nat) (obs : list (Cell * Z)) :
  ∀ X a a', observe_all fuel obs a = Done a' → valid a → recorded X a →
    recorded (list_to_set obs.*1 ∪ X) a'.
Proof.
  induction obs as [|[cell n] obs IH]; intros X a a' Hrun Hv Hr.
  - simplify_eq/=. by rewrite (left_id_L ∅ (∪)).
  - cbn [observe_all] in Hrun.
    destruct (add_knowledge fuel cell n a) as [a1| |] eqn:E; simpl in Hrun;
      try done.
    apply (add_knowledge_recorded X) in E as [Hv1 Hr1]; [|done..].
    apply (IH _ _ _ Hrun Hv1) in Hr1.
    replace (list_to_set ((cell, n) :: obs).*1 ∪ X)
      with (list_to_set obs.*1 ∪ ({[cell]} ∪ X) : gset Cell); [done|].
    rewrite fmap_cons, list_to_set_cons. simpl. set_solver.
Qed.

(** X11: after any sequence of [add_knowledge] calls on a fresh AI, [moves_made]
    holds exactly the cells that were observed, and each of them is in
    [safes]. *)
Theorem moves_made_recorded (h w : Z) (obs : list (Cell * Z)) :
  ∃ fuel ai,
    observe_all fuel obs (init h w) = Done ai
    ∧ moves_made ai = list_to_set obs.*1
    ∧ moves_made ai ⊆ safes ai.
Proof.
  destruct (observe_all_total obs (init h w) (valid_init h w)) as (fuel & ai & Hrun & _).
  exists fuel, ai. split; [done|].
  apply (observe_all_recorded _ _ ∅) in Hrun as [Hm Hs]; [|apply valid_init|done].
  rewrite (right_id_L ∅ (∪)) in Hm, Hs. split; [done|]. by rewrite Hm.
Qed.

(** ** [remove_same_sentence] *)

Lemma dedupe_elem (h : list Sentence) (k : list ref) :
  ∀ (new : list ref) (s : Sentence),
    s ∈ deref h <$> foldl (λ new sentence,
                             if sentence_in h sentence new then new
                             else new ++ [sentence]) new k
    ↔ s ∈ deref h <$> new ++ k.
Proof.
  induction k as [|r k IH]; intros new s; simpl.
  - by rewrite app_nil_r.
  - rewrite IH. unfold sentence_in. case_bool_decide as Hin.
    + rewrite !fmap_app, fmap_cons, !elem_of_app, elem_of_cons. naive_solver.
    + by rewrite <- (assoc_L _ new [r] k).
Qed.

Lemma dedupe_id (h : list Sentence) (k : list ref) :
  ∀ new : list ref,
    NoDup (deref h <$> new ++ k) →
    foldl (λ new sentence,
             if sentence_in h sentence new then new else new ++ [sentence]) new k
    = new ++ k.
Proof.
  induction k as [|r k IH]; intros new Hnd; simpl.
  - by rewrite app_nil_r.
  - unfold sentence_in at 2. rewrite bool_decide_eq_false_2.
    + rewrite IH; [by rewrite <- (assoc_L _ new [r] k)|].
      by rewrite <- (assoc_L _ new [r] k).
    + rewrite fmap_app in Hnd. apply NoDup_app in Hnd as (_ & Hdis & _).
      intros Hin. apply (Hdis _ Hin). rewrite fmap_cons. left.
Qed.

(** X12: [remove_same_sentence] keeps one sentence of each value, the first, in
    the order of the list: afterwards the list holds the same sentences by
    value, none of them twice; a list without duplicates is left as it is,
    so that applying the operation twice is the same as applying it once. *)
Theorem remove_same_sentence_spec (ai : MinesweeperAI) :
  (∀ s, s ∈ sentences (remove_same_sentence ai) ↔ s ∈ sentences ai)
  ∧ NoDup (sentences (remove_same_sentence ai))
  ∧ sentences (remove_same_sentence ai) `sublist_of` sentences ai
  ∧ (NoDup (sentences ai) → remove_same_sentence ai = ai)
  ∧ remove_same_sentence (remove_same_sentence ai) = remove_same_sentence ai.
Proof.
  destruct (knowledge_remove_same_sentence ai) as [Hsub Hnd].
  assert (∀ a, NoDup (sentences a) → remove_same_sentence a = a) as Hid.
  { intros a Ha. unfold remove_same_sentence.
    rewrite (dedupe_id (heap a) (knowledge a) []) by done. apply set_knowledge_same. }
  split; [|split; [done|split; [|split]]].
  - intros s. unfold remove_same_sentence, sentences; simpl.
    by rewrite dedupe_elem.
  - unfold sentences. by apply fmap_sublist.
  - apply Hid.
  - by apply Hid.
Qed.

(** ** Sentences are small *)

Lemma small_marks (ai : MinesweeperAI) (k' : list ref) (l : list Cell) :
  small ai → k' `sublist_of` knowledge ai →
  small (foldl (λ a mine, mark_mine mine a) (set_knowledge k' ai) l)
  ∧ small (foldl (λ a safe, mark_safe safe a) (set_knowledge k' ai) l).
Proof.
  intros Hs Hsub.
  assert (small (set_knowledge k' ai)) as Hs'.
  { intros s Hin. apply Hs. by eapply elem_of_sentences_drop. }
  split.
  - apply (foldl_mark_mine_ind small (λ _, True)); [|by apply Forall_true|done].
    intros a c Ha _ s. rewrite sentences_mark_mine.
    intros (s0 & -> & Hin)%list_elem_of_fmap. apply Ha in Hin.
    pose proof (subseteq_size _ _ (cells_mark_mine_subseteq c s0)). lia.
  - apply (foldl_mark_safe_ind small (λ _, True)); [|by apply Forall_true|done].
    intros a c Ha _. destruct (decide (c ∈ safes a)) as [Hc|Hc].
    + by rewrite mark_safe_known.
    + intros s. rewrite sentences_mark_safe by done.
      intros (s0 & -> & Hin)%list_elem_of_fmap. apply Ha in Hin.
      pose proof (subseteq_size _ _ (cells_mark_safe_subseteq c s0)). lia.
Qed.

Lemma small_observe (cell : Cell) (n : Z) (ai : MinesweeperAI) :
  valid ai → small ai →
  small (add_neighbour_mines_knowledge cell n
           (mark_safe cell (set_moves_made ({[cell]} ∪ moves_made ai) ai))).
Proof.
  intros Hv Hs. rewrite add_neighbour_mines_knowledge_eq.
  set (ai1 := mark_safe cell (set_moves_made ({[cell]} ∪ moves_made ai) ai)).
  assert (cell ∈ moves_made ai1) as Hcell.
  { unfold ai1.
    destruct (fields_mark_safe cell (set_moves_made ({[cell]} ∪ moves_made ai) ai))
      as (_ & _ & _ & ->). simpl. set_solver. }
  assert (small ai1) as Hs1.
  { destruct (small_marks (set_moves_made ({[cell]} ∪ moves_made ai) ai)
                (knowledge ai) [cell]) as [_ H]; [exact Hs|done|].
    exact H. }
  assert (valid ai1) as Hv1 by (by apply valid_mark_safe).
  clearbody ai1. clear Hs Hv ai.
  intros s. rewrite sentences_append by done.
  intros [Hin| ->%list_elem_of_singleton]%elem_of_app; [by apply Hs1|].
  simpl. rewrite size_list_to_set by apply NoDup_filter, NoDup_square.
  apply length_filter_others. intros c (_ & _ & Hc) ->. apply Hc.
  apply elem_of_union. by left.
Qed.

(** X13: after any sequence of [add_knowledge] calls on a fresh AI, no sentence
    of the knowledge list has more than eight cells. *)
Theorem sentences_small (h w : Z) (obs : list (Cell * Z)) :
  ∃ fuel ai,
    observe_all fuel obs (init h w) = Done ai
    ∧ ∀ s, s ∈ sentences ai → (size (cells s) ≤ 8)%nat.
Proof.
  destruct (observe_all_total obs (init h w) (valid_init h w)) as (fuel & ai & Hrun & _).
  exists fuel, ai. split; [done|].
  assert (∀ obs a a', observe_all fuel obs a = Done a' → valid a → small a →
            valid a' ∧ small a') as Hind.
  { clear. induction obs as [|[cell n] obs IH]; intros a a' Hrun Hv Hs.
    - by simplify_eq/=.
    - cbn [observe_all] in Hrun.
      destruct (add_knowledge fuel cell n a) as [a1| |] eqn:E; simpl in Hrun;
        try done.
      apply (add_knowledge_preserves small) in E as [Hv1 Hs1].
      + by apply (IH a1).
      + intros a0 k' Ha Hsub s Hin. apply Ha. by eapply elem_of_sentences_drop.
      + intros a0 r k' Ha _ _ Hsub. by apply small_marks.
      + intros a0 r k' Ha _ _ Hsub. by apply small_marks.
      + intros a0 p Hva Ha _ H2 _ s Hin.
        apply elem_of_sentences_derive in Hin as [Hin| ->]; [by apply Ha| |done].
        apply elem_of_sentences_knowledge, Ha in H2.
        assert (size (cells (difference (heap a0) p))
                ≤ size (cells (deref (heap a0) p.2)))%nat; [|lia].
        apply subseteq_size. unfold difference; simpl. set_solver.
      + done.
      + by apply small_observe. }
  apply Hind in Hrun as [_ Hs]; [done|apply valid_init|].
  by intros s ?%elem_of_nil.
Qed.

(** ** Direct resolution, step by step *)

Lemma list_remove_first_split (h : list Sentence) (s : Sentence) (k k' : list ref) :
  list_remove_first h s k = Some k' →
  ∃ k1 r k2, k = k1 ++ r :: k2 ∧ k' = k1 ++ k2 ∧ deref h r = s.
Proof.
  revert k'. induction k as [|r k IH]; intros k'; simpl; [done|].
  case_decide as Hr.
  - intros [= <-]. by exists [], r, k.
  - destruct (list_remove_first h s k) as [k''|]; simpl; [|done].
    intros [= <-]. destruct (IH k'' eq_refl) as (k1 & r0 & k2 & -> & -> & Hr0).
    by exists (r :: k1), r0, k2.
Qed.

Lemma knowledge_remove_split (r : ref) (ai ai' : MinesweeperAI) :
  knowledge_remove r ai = Done ai' →
  ∃ k1 r0 k2, knowledge ai = k1 ++ r0 :: k2 ∧ ai' = set_knowledge (k1 ++ k2) ai
              ∧ deref (heap ai) r0 = deref (heap ai) r.
Proof.
  unfold knowledge_remove.
  destruct (list_remove_first _ _ _) as [k'|] eqn:E; [|done]. intros [= <-].
  apply list_remove_first_split in E as (k1 & r0 & k2 & ? & -> & ?). by exists k1, r0, k2.
Qed.

Lemma resolve_steps (r : ref) (ai ai' : MinesweeperAI) (flag flag' : bool) :
  resolve r (ai, flag) = Done (ai', flag') → rtc resolution_step ai ai'.
Proof.
  unfold resolve.
  destruct (truthy (Sent.known_mines (deref (heap ai) r))) eqn:Em;
    destruct (truthy (Sent.known_safes (deref (heap ai) r))) eqn:Es; simpl.
  - destruct (truthy_exclusive _ Em Es).
  - destruct (knowledge_remove r ai) as [ai1| |] eqn:E; simpl; try done.
    intros [= <- <-].
    apply knowledge_remove_split in E as (k1 & r0 & k2 & Hk & -> & Hr0).
    apply truthy_known_mines in Em as (Hc & -> & _). simpl.
    apply rtc_once. rewrite <- Hr0 in *. by apply (resolve_mines_step ai k1 k2 r0).
  - destruct (knowledge_remove r ai) as [ai1| |] eqn:E; simpl; try done.
    intros [= <- <-].
    apply knowledge_remove_split in E as (k1 & r0 & k2 & Hk & -> & Hr0).
    apply truthy_known_safes in Es as (Hc & -> & _). simpl.
    apply rtc_once. rewrite <- Hr0 in *. by apply (resolve_safes_step ai k1 k2 r0).
  - by intros [= <- <-].
Qed.

Lemma for_each_resolve_steps (rest : list ref) :
  ∀ ai ai' flag flag',
    for_each resolve rest (ai, flag) = Done (ai', flag') → rtc resolution_step ai ai'.
Proof.
  induction rest as [|r rest IH]; intros ai ai' flag flag'; cbn [for_each].
  - by intros [= <- <-].
  - destruct (resolve r (ai, flag)) as [[ai1 flag1]| |] eqn:E; simpl; try done.
    intros Hrun. etrans; [by eapply resolve_steps|by eapply IH].
Qed.

Lemma resolution_loop_steps (fuel : nat) :
  ∀ ai ai', resolution_loop fuel ai = Done ai' → rtc resolution_step ai ai'.
Proof.
  induction fuel as [|fuel IH]; intros ai ai'; [done|]. cbn [resolution_loop].
  destruct (for_each resolve (knowledge ai) (ai, false)) as [[ai1 flag1]| |] eqn:E;
    simpl; try done.
  apply for_each_resolve_steps in E. destruct flag1.
  - intros Hrun. etrans; [done|by apply IH].
  - by intros [= <-].
Qed.

Lemma for_each_purge_steps (rest : list ref) :
  ∀ ai ai', for_each purge rest ai = Done ai' → rtc resolution_step ai ai'.
Proof.
  induction rest as [|r rest IH]; intros ai ai'; cbn [for_each].
  - by intros [= <-].
  - destruct (purge r ai) as [ai1| |] eqn:E; simpl; try done.
    intros Hrun. etrans; [|by eapply IH].
    unfold purge in E. case_decide as He; [|by simplify_eq].
    apply knowledge_remove_split in E as (k1 & r0 & k2 & Hk & -> & Hr0).
    apply rtc_once. apply (purge_step ai k1 k2 r0); [done|]. by rewrite Hr0.
Qed.

Lemma mark_safe_and_mine_steps (fuel : nat) (ai ai' : MinesweeperAI) :
  mark_safe_and_mine fuel ai = Done ai' → rtc resolution_step ai ai'.
Proof.
  unfold mark_safe_and_mine.
  destruct (resolution_loop fuel ai) as [ai1| |] eqn:E; simpl; try done.
  intros Hrun. etrans; [by eapply resolution_loop_steps|by eapply for_each_purge_steps].
Qed.

(** *** No cell is forgotten *)

Lemma grows_trans (ai1 ai2 ai3 : MinesweeperAI) :
  grows ai1 ai2 → grows ai2 ai3 → grows ai1 ai3.
Proof. intros (? & ? & ?) (? & ? & ?). repeat split; by etrans. Qed.

Lemma accounted_refl (ai : MinesweeperAI) : accounted ai ai.
Proof. split; [apply grows_refl|]. intros r. set_solver. Qed.

Lemma accounted_trans (ai1 ai2 ai3 : MinesweeperAI) :
  accounted ai1 ai2 → accounted ai2 ai3 → accounted ai1 ai3.
Proof.
  intros [Hg1 H1] [Hg2 H2]. split; [by eapply grows_trans|].
  intros r c Hc. apply H1 in Hc. destruct Hg2 as (Hm & Hs & _).
  apply elem_of_union in Hc as [Hc|Hc]; [by apply H2|].
  apply elem_of_union. right. set_solver.
Qed.

Lemma accounted_drop (ai : MinesweeperAI) (k' : list ref) :
  accounted ai (set_knowledge k' ai).
Proof. split; [exact (grows_refl ai)|]. intros r. simpl. set_solver. Qed.

Lemma accounted_mark_mine (c : Cell) (ai : MinesweeperAI) :
  accounted ai (mark_mine c ai).
Proof.
  split; [apply grows_mark_mine, grows_refl|].
  intros r. unfold mark_mine; simpl.
  rewrite deref_update_all; [|apply mark_mine_idemp|done].
  case_decide; [|set_solver]. rewrite cells_mark_mine.
  intros c' Hc'. destruct (decide (c' = c)) as [->|]; set_solver.
Qed.

Lemma accounted_mark_safe (c : Cell) (ai : MinesweeperAI) :
  accounted ai (mark_safe c ai).
Proof.
  destruct (decide (c ∈ safes ai)) as [Hc|Hc].
  { rewrite mark_safe_known by done. apply accounted_refl. }
  split; [apply grows_mark_safe, grows_refl|].
  intros r. unfold mark_safe. rewrite decide_False by done. simpl.
  rewrite deref_update_all; [|apply mark_safe_idemp|done].
  case_decide; [|set_solver]. rewrite cells_mark_safe.
  intros c' Hc'. destruct (decide (c' = c)) as [->|]; set_solver.
Qed.

Lemma foldl_mark_mine_accounted (l : list Cell) :
  ∀ ai, accounted ai (foldl (λ a mine, mark_mine mine a) ai l)
        ∧ list_to_set l ⊆ mines (foldl (λ a mine, mark_mine mine a) ai l).
Proof.
  induction l as [|c l IH]; intros ai; simpl.
  - split; [apply accounted_refl|set_solver].
  - destruct (IH (mark_mine c ai)) as [Ha Hl]. split.
    + eapply accounted_trans; [apply accounted_mark_mine|done].
    + destruct Ha as [(Hm & _) _]. simpl in Hm. set_solver.
Qed.

Lemma foldl_mark_safe_accounted (l : list Cell) :
  ∀ ai, accounted ai (foldl (λ a safe, mark_safe safe a) ai l)
        ∧ list_to_set l ⊆ safes (foldl (λ a safe, mark_safe safe a) ai l).
Proof.
  induction l as [|c l IH]; intros ai; simpl.
  - split; [apply accounted_refl|set_solver].
  - destruct (IH (mark_safe c ai)) as [Ha Hl]. split.
    + eapply accounted_trans; [apply accounted_mark_safe|done].
    + destruct Ha as [(_ & Hs & _) _].
      assert (c ∈ safes (mark_safe c ai)).
      { unfold mark_safe. case_decide; [done|]. simpl. set_solver. }
      set_solver.
Qed.

Lemma settled_step (ai0 ai ai' : MinesweeperAI) :
  settled ai0 ai → resolution_step ai ai' → settled ai0 ai'.
Proof.
  intros [Hacc Hset] Hstep.
  assert (∀ a k1 k2 r0,
            knowledge ai = k1 ++ r0 :: k2 → knowledge a = k1 ++ k2 →
            accounted ai a →
            cells (deref (heap ai) r0) ⊆ mines a ∪ safes a → settled ai0 a) as Hgen.
  { intros a k1 k2 r0 Hk Hk' Ha Hr0.
    split; [by eapply accounted_trans|].
    intros r Hr Hnot. destruct Ha as [(Hm & Hs & _) _].
    destruct (decide (r ∈ knowledge ai)) as [Hin|Hin].
    - assert (r = r0) as ->.
      { rewrite Hk in Hin. rewrite Hk' in Hnot.
        apply elem_of_app in Hin as [Hin|[->|Hin]%elem_of_cons]; [|done|];
          exfalso; apply Hnot, elem_of_app; auto. }
      destruct Hacc as [_ Hc]. intros c Hcell. apply Hc in Hcell.
      apply elem_of_union in Hcell as [Hcell|Hcell]; [by apply Hr0|]. set_solver.
    - specialize (Hset r Hr Hin). set_solver. }
  destruct Hstep as [a k1 k2 r Hk Hc|a k1 k2 r Hk Hc|a k1 k2 r Hk Hc].
  - destruct (foldl_mark_mine_accounted (elements (cells (deref (heap a) r)))
                (set_knowledge (k1 ++ k2) a)) as [Ha Hl].
    apply (Hgen _ k1 k2 r Hk); [by rewrite knowledge_mark_mines| |].
    + eapply accounted_trans; [apply (accounted_drop a (k1 ++ k2))|done].
    + intros c Hcell. apply elem_of_union. left. apply Hl.
      by apply elem_of_list_to_set, elem_of_elements.
  - destruct (foldl_mark_safe_accounted (elements (cells (deref (heap a) r)))
                (set_knowledge (k1 ++ k2) a)) as [Ha Hl].
    apply (Hgen _ k1 k2 r Hk); [by rewrite knowledge_mark_safes| |].
    + eapply accounted_trans; [apply (accounted_drop a (k1 ++ k2))|done].
    + intros c Hcell. apply elem_of_union. right. apply Hl.
      by apply elem_of_list_to_set, elem_of_elements.
  - apply (Hgen _ k1 k2 r Hk); [done|apply accounted_drop|].
    rewrite Hc. set_solver.
Qed.

Lemma settled_refl (ai : MinesweeperAI) : settled ai ai.
Proof. split; [apply accounted_refl|]. by intros r Hr Hn. Qed.

Lemma mark_safe_and_mine_settled (fuel : nat) (ai ai' : MinesweeperAI) :
  mark_safe_and_mine fuel ai = Done ai' → settled ai ai'.
Proof.
  intros Hrun%mark_safe_and_mine_steps.
  assert (∀ a a', rtc resolution_step a a' → settled ai a → settled ai a') as H.
  { clear. intros a a'. induction 1 as [a|a1 a2 a3 Hstep _ IH]; intros Ha; [done|].
    by eapply IH, settled_step. }
  apply (H ai ai' Hrun), settled_refl.
Qed.

(** X14: [mark_safe_and_mine] completes, and every cell that a sentence of
    the knowledge list mentions before it is afterwards a known mine, a
    known safe, or still mentioned by a sentence of the list; and the three
    sets have only grown. *)
Theorem resolution_forgets_no_cell (ai : MinesweeperAI) :
  valid ai →
  ∃ fuel ai',
    mark_safe_and_mine fuel ai = Done ai'
    ∧ grows ai ai'
    ∧ ∀ s c, s ∈ sentences ai → c ∈ cells s →
             c ∈ mines ai' ∨ c ∈ safes ai' ∨ ∃ s', s' ∈ sentences ai' ∧ c ∈ cells s'.
Proof.
  intros Hv. destruct (mark_safe_and_mine_total ai Hv) as (ai' & Hrun & _).
  exists (S (length (knowledge ai))), ai'. split; [done|].
  apply mark_safe_and_mine_settled in Hrun as [[Hg Hacc] Hset]. split; [done|].
  intros s c (r & -> & Hr)%list_elem_of_fmap Hc.
  destruct (decide (r ∈ knowledge ai')) as [Hin|Hin].
  - apply Hacc in Hc. apply elem_of_union in Hc as [Hc|Hc]; [|set_solver].
    right; right. exists (deref (heap ai') r). split; [|done].
    by apply elem_of_sentences_knowledge.
  - apply (Hset r Hr Hin) in Hc. set_solver.
Qed.

Lemma resolution_forgets_no_cell_witness :
  valid (mkAI 2 2 ∅ ∅ ∅ [0; 1]%nat
              [mkSentence {[ (0, 0) ]} 1; mkSentence {[ (0, 0); (0, 1); (1, 1) ]} 2])
  ∧ ∃ fuel ai',
      mark_safe_and_mine fuel
        (mkAI 2 2 ∅ ∅ ∅ [0; 1]%nat
              [mkSentence {[ (0, 0) ]} 1; mkSentence {[ (0, 0); (0, 1); (1, 1) ]} 2])
      = Done ai'
      ∧ grows (mkAI 2 2 ∅ ∅ ∅ [0; 1]%nat
                 [mkSentence {[ (0, 0) ]} 1;
                  mkSentence {[ (0, 0); (0, 1); (1, 1) ]} 2]) ai'
      ∧ ∀ s c,
          s ∈ sentences (mkAI 2 2 ∅ ∅ ∅ [0; 1]%nat
                           [mkSentence {[ (0, 0) ]} 1;
                            mkSentence {[ (0, 0); (0, 1); (1, 1) ]} 2]) →
          c ∈ cells s →
          c ∈ mines ai' ∨ c ∈ safes ai' ∨ ∃ s', s' ∈ sentences ai' ∧ c ∈ cells s'.
Proof.
  assert (valid (mkAI 2 2 ∅ ∅ ∅ [0; 1]%nat
                   [mkSentence {[ (0, 0) ]} 1;
                    mkSentence {[ (0, 0); (0, 1); (1, 1) ]} 2])) as Hv.
  { intros r Hr. simpl in *. apply list_elem_of_In in Hr. simpl in Hr. lia. }
  split; [exact Hv|]. exact (resolution_forgets_no_cell _ Hv).
Defined.

(** *** Direct resolution is complete on true knowledge *)

Lemma sound_mark_safe_and_mine (b : Minesweeper.t) (fuel : nat)
    (ai ai' : MinesweeperAI) :
  mark_safe_and_mine fuel ai = Done ai' → sound b ai → sound b ai'.
Proof.
  intros Hrun Hb.
  apply (mark_safe_and_mine_preserves (sound b)) in Hrun as [? _]; [done|..|done].
  - apply sound_drop.
  - intros. by apply sound_resolve_mines.
  - intros. by apply sound_resolve_safes.
Qed.

Lemma mark_safe_and_mine_complete (b : Minesweeper.t) (fuel : nat)
    (ai ai' : MinesweeperAI) (s : Sentence) :
  sound b ai → mark_safe_and_mine fuel ai = Done ai' → s ∈ sentences ai →
  (count s = 0 → cells s ⊆ safes ai')
  ∧ (count s = Z.of_nat (size (cells s)) → cells s ⊆ mines ai').
Proof.
  intros Hb Hrun (r & -> & Hr)%list_elem_of_fmap.
  pose proof (sound_mark_safe_and_mine b _ _ _ Hrun Hb) as (_ & Hs' & Hm' & Hsf' & _).
  pose proof (mark_safe_and_mine_unresolved _ _ _ Hrun) as Hu.
  pose proof (shrunk_mark_safe_and_mine _ _ _ Hrun) as [_ Hsh].
  pose proof (mark_safe_and_mine_settled _ _ _ Hrun) as [_ Hset].
  destruct Hb as (_ & Hs & _).
  pose proof (Hs _ (elem_of_sentences_knowledge ai r Hr)) as Hcount.
  assert (r ∈ knowledge ai' → unresolved (deref (heap ai') r)
          ∧ count (deref (heap ai') r)
            = Z.of_nat (size (cells (deref (heap ai') r) ∩ Minesweeper.mines b)))
    as Hstill.
  { intros Hin%elem_of_sentences_knowledge. split; [by apply Hu|by apply Hs']. }
  specialize (Hsh r). specialize (Hset r Hr).
  set (M := Minesweeper.mines b) in *.
  set (C := cells (deref (heap ai) r)) in *.
  set (C' := cells (deref (heap ai') r)) in *.
  split; intros Hc.
  - assert (C ∩ M = ∅) as Hno.
    { apply leibniz_equiv, size_empty_inv. lia. }
    destruct (decide (r ∈ knowledge ai')) as [Hin|Hin].
    + destruct (Hstill Hin) as [(_ & H0 & _) Hc']. exfalso. apply H0.
      rewrite Hc'. replace (C' ∩ M) with (∅ : gset Cell) by set_solver.
      by rewrite size_empty.
    + intros c Hcell. specialize (Hset Hin c Hcell). set_solver.
  - assert (C ∩ M = C) as Hall.
    { apply set_subseteq_size_eq; [set_solver|lia]. }
    destruct (decide (r ∈ knowledge ai')) as [Hin|Hin].
    + destruct (Hstill Hin) as [(_ & _ & Hn) Hc']. exfalso. apply Hn.
      rewrite Hc'. do 2 f_equal. set_solver.
    + intros c Hcell. specialize (Hset Hin c Hcell). set_solver.
Qed.

(** X15: on knowledge that is true of the board, [mark_safe_and_mine]
    completes and draws every direct conclusion: the cells of each sentence
    that had count zero are all in [safes] afterwards, and the cells of each
    sentence whose count was the number of its cells are all in [mines]. *)
Theorem direct_resolution_complete (b : Minesweeper.t) (ai : MinesweeperAI) :
  valid ai → sound b ai →
  ∃ fuel ai',
    mark_safe_and_mine fuel ai = Done ai'
    ∧ ∀ s, s ∈ sentences ai →
           (count s = 0 → cells s ⊆ safes ai')
           ∧ (count s = Z.of_nat (size (cells s)) → cells s ⊆ mines ai').
Proof.
  intros Hv Hb. destruct (mark_safe_and_mine_total ai Hv) as (ai' & Hrun & _).
  exists (S (length (knowledge ai))), ai'. split; [done|].
  intros s Hs. by eapply mark_safe_and_mine_complete.
Qed.

Lemma direct_resolution_complete_witness :
  (valid (mkAI 8 8 ∅ ∅ ∅ [0; 1]%nat
                [mkSentence {[ (2, 2) ]} 1; mkSentence {[ (3, 3); (3, 4) ]} 0])
   ∧ sound (Minesweeper.mk 8 8 {[ (2, 2) ]})
           (mkAI 8 8 ∅ ∅ ∅ [0; 1]%nat
                 [mkSentence {[ (2, 2) ]} 1; mkSentence {[ (3, 3); (3, 4) ]} 0]))
  ∧ ∃ fuel ai',
      mark_safe_and_mine fuel
        (mkAI 8 8 ∅ ∅ ∅ [0; 1]%nat
              [mkSentence {[ (2, 2) ]} 1; mkSentence {[ (3, 3); (3, 4) ]} 0])
      = Done ai'
      ∧ ∀ s,
          s ∈ sentences (mkAI 8 8 ∅ ∅ ∅ [0; 1]%nat
                           [mkSentence {[ (2, 2) ]} 1;
                            mkSentence {[ (3, 3); (3, 4) ]} 0]) →
          (count s = 0 → cells s ⊆ safes ai')
          ∧ (count s = Z.of_nat (size (cells s)) → cells s ⊆ mines ai').
Proof.
  assert (valid (mkAI 8 8 ∅ ∅ ∅ [0; 1]%nat
                   [mkSentence {[ (2, 2) ]} 1; mkSentence {[ (3, 3); (3, 4) ]} 0]))
    as Hv.
  { intros r Hr. simpl in *. apply list_elem_of_In in Hr. simpl in Hr. lia. }
  assert (sound (Minesweeper.mk 8 8 {[ (2, 2) ]})
            (mkAI 8 8 ∅ ∅ ∅ [0; 1]%nat
                  [mkSentence {[ (2, 2) ]} 1; mkSentence {[ (3, 3); (3, 4) ]} 0]))
    as Hb.
  { split; [done|]. split.
    - apply Forall_forall. repeat constructor; vm_compute; reflexivity.
    - simpl. repeat split; intros c Hc; by apply elem_of_empty in Hc. }
  split; [by split|]. exact (direct_resolution_complete _ _ Hv Hb).
Defined.

(** ** Observing a zero *)

Lemma extract_from_problem_grows (fuel : nat) (ai ai' : MinesweeperAI) :
  valid ai → extract_from_problem fuel ai = Done ai' → grows ai ai'.
Proof.
  intros Hv Hrun.
  apply (extract_from_problem_preserves (grows ai)) in Hrun as [_ ?];
    [done| | | | |done|apply grows_refl].
  - intros. by apply grows_drop.
  - intros a r k' Hg _ _ _.
    apply (foldl_mark_mine_ind (grows ai) (λ _, True));
      [by auto using grows_mark_mine|by apply Forall_true|done].
  - intros a r k' Hg _ _ _.
    apply (foldl_mark_safe_ind (grows ai) (λ _, True));
      [by auto using grows_mark_safe|by apply Forall_true|done].
  - intros a p _ Hg _ _ _. done.
Qed.

Lemma truthful_app (b : Minesweeper.t) (obs : list (Cell * Z)) (cell : Cell) (n : Z) :
  truthful b (obs ++ [(cell, n)]) →
  truthful b obs ∧ Minesweeper.is_mine b cell = false
  ∧ n = Minesweeper.nearby_mines b cell.
Proof.
  unfold truthful. rewrite Forall_app, Forall_singleton. simpl. tauto.
Qed.

Lemma zero_observation (b : Minesweeper.t) (fuel : nat) (cell : Cell)
    (ai ai' : MinesweeperAI) :
  valid ai → sound b ai → moves_made ai ⊆ safes ai →
  Minesweeper.is_mine b cell = false →
  Minesweeper.nearby_mines b cell = 0 →
  add_knowledge fuel cell 0 ai = Done ai' →
  ∀ c, adjacent cell c →
       in_bounds (Minesweeper.height b) (Minesweeper.width b) c → c ∈ safes ai'.
Proof.
  intros Hv Hb Hmoves Hcell Hzero Hrun c Hadj Hin.
  pose proof (sound_observe b cell ai Hv Hb Hcell) as Hb2.
  pose proof (valid_observe cell (Minesweeper.nearby_mines b cell) ai Hv) as Hv2.
  rewrite Hzero in Hb2, Hv2.
  unfold add_knowledge in Hrun.
  destruct (mark_safe_and_mine fuel _) as [ai3| |] eqn:E; simpl in Hrun; try done.
  pose proof (valid_mark_safe_and_mine _ _ _ E Hv2) as [Hv3 _].
  apply (extract_from_problem_grows _ _ _ Hv3) in Hrun as (_ & Hsafes & _).
  apply Hsafes. clear Hsafes ai' Hv3.
  pose proof (mark_safe_and_mine_settled _ _ _ E) as [[(_ & Hgrow & _) _] _].
  assert (∀ s, s ∈ sentences (add_neighbour_mines_knowledge cell 0
                 (mark_safe cell (set_moves_made ({[cell]} ∪ moves_made ai) ai))) →
               count s = 0 → cells s ⊆ safes ai3) as Hcomplete.
  { intros s Hs H0.
    exact (proj1 (mark_safe_and_mine_complete b fuel _ ai3 s Hb2 E Hs) H0). }
  clear E. revert Hb2 Hgrow Hcomplete. rewrite add_neighbour_mines_knowledge_eq.
  set (ai1 := mark_safe cell (set_moves_made ({[cell]} ∪ moves_made ai) ai)).
  assert (valid ai1) as Hv1 by (by apply valid_mark_safe).
  assert (moves_made ai1 ⊆ safes ai1) as Hmoves1.
  { unfold ai1.
    destruct (fields_mark_safe cell (set_moves_made ({[cell]} ∪ moves_made ai) ai))
      as (_ & _ & _ & ->).
    unfold mark_safe. case_decide; simpl in *; set_solver. }
  clearbody ai1. clear Hv Hb Hmoves Hv2 ai.
  intros (Hdims & Hs & Hm & _) Hgrow Hcomplete. simpl in Hdims, Hm, Hgrow.
  destruct Hdims as [Hh Hw].
  assert (mkSentence (list_to_set (neighbour_cells cell ai1))
                     (0 - Z.of_nat (length (known_neighbour_mines cell ai1)))
          ∈ sentences (append_sentence
               (mkSentence (list_to_set (neighbour_cells cell ai1))
                           (0 - Z.of_nat (length (known_neighbour_mines cell ai1))))
               ai1)) as Hnew.
  { rewrite sentences_append by done. apply elem_of_app. right. left. }
  pose proof (Hs _ Hnew) as Hcount. simpl in Hcount.
  assert (known_neighbour_mines cell ai1 = []) as Hnone.
  { apply length_zero_iff_nil. lia. }
  apply Hcomplete in Hnew; [|simpl; lia]. simpl in Hnew.
  destruct (decide (c ∈ mines ai1)) as [Hmine|Hmine].
  { assert (c ∈ known_neighbour_mines cell ai1) as Hk.
    { unfold known_neighbour_mines. apply list_elem_of_filter.
      rewrite Hh, Hw. split; [done|]. by apply elem_of_square. }
    rewrite Hnone in Hk. by apply elem_of_nil in Hk. }
  destruct (decide (c ∈ moves_made ai1 ∪ safes ai1)) as [Hknown|Hknown].
  { apply Hgrow. apply elem_of_union in Hknown as [?|?]; [by apply Hmoves1|done]. }
  apply Hnew, elem_of_list_to_set. unfold neighbour_cells.
  apply list_elem_of_filter. rewrite Hh, Hw. split; [done|]. by apply elem_of_square.
Qed.

(** X16: in a game on a consistent board, when the cell observed has no mine
    around it, [add_knowledge] leaves every cell of the board within one
    row and one column of it in [safes]. *)
Theorem zero_observation_clears_neighbours (b : Minesweeper.t)
    (obs : list (Cell * Z)) (cell : Cell) :
  truthful b (obs ++ [(cell, 0)]) →
  ∃ fuel ai,
    observe_all fuel (obs ++ [(cell, 0)])
      (init (Minesweeper.height b) (Minesweeper.width b)) = Done ai
    ∧ ∀ c, adjacent cell c →
           in_bounds (Minesweeper.height b) (Minesweeper.width b) c → c ∈ safes ai.
Proof.
  intros (Hobs & Hcell & Hzero)%truthful_app.
  destruct (observe_all_total (obs ++ [(cell, 0)])
              (init (Minesweeper.height b) (Minesweeper.width b)) (valid_init _ _))
    as (fuel & ai & Hrun & _).
  exists fuel, ai. split; [done|].
  rewrite observe_all_app in Hrun.
  destruct (observe_all fuel obs _) as [ai1| |] eqn:E1; simpl in Hrun; try done.
  destruct (add_knowledge fuel cell 0 ai1) as [ai2| |] eqn:E2; simpl in Hrun; try done.
  simplify_eq.
  pose proof (observe_all_sound b fuel obs Hobs _ _ E1 (valid_init _ _) (sound_init b))
    as [Hv1 Hb1].
  pose proof (observe_all_recorded fuel obs ∅ _ _ E1 (valid_init _ _)) as [Hm Hs];
    [done|].
  apply (zero_observation b fuel cell ai1); try done.
  by rewrite Hm.
Qed.

Lemma zero_observation_clears_neighbours_witness :
  truthful (Minesweeper.mk 3 3 {[ (0, 0) ]}) ([((1, 1), 1)] ++ [((2, 2), 0)])
  ∧ ∃ fuel ai,
      observe_all fuel ([((1, 1), 1)] ++ [((2, 2), 0)]) (init 3 3) = Done ai
      ∧ ∀ c, adjacent (2, 2) c → in_bounds 3 3 c → c ∈ safes ai.
Proof.
  assert (truthful (Minesweeper.mk 3 3 {[ (0, 0) ]}) ([((1, 1), 1)] ++ [((2, 2), 0)]))
    as H by (repeat constructor; vm_compute; reflexivity).
  split; [exact H|].
  exact (zero_observation_clears_neighbours (Minesweeper.mk 3 3 {[ (0, 0) ]}) _ _ H).
Defined.

(** ** The subset rule *)

(** X17: the subset rule loses nothing: when a sentence is true of a mine set
    and its cells are among those of a second sentence, the second sentence
    is true of the mine set exactly when the sentence derived from the pair
    is; and the derived sentence shares no cell with the first. *)
Theorem subset_rule_equivalent (M : gset Cell) (h : list Sentence) (p : ref * ref) :
  cells (deref h p.1) ⊆ cells (deref h p.2) →
  holds_of M (deref h p.1) →
  (holds_of M (deref h p.2) ↔ holds_of M (difference h p))
  ∧ cells (difference h p) ## cells (deref h p.1)
  ∧ cells (difference h p) ∪ cells (deref h p.1) = cells (deref h p.2).
Proof.
  unfold holds_of, difference. simpl. intros Hsub H1.
  rewrite size_inter_difference, H1 by done. split; [lia|]. split; [set_solver|].
  apply set_eq. intros c. rewrite elem_of_union, elem_of_difference.
  destruct (decide (c ∈ cells (deref h p.1))); set_solver.
Qed.

Lemma subset_rule_equivalent_witness :
  holds_of {[ (0, 0); (1, 1) ]} (deref [sentence_A; sentence_B] 1)
  ↔ holds_of {[ (0, 0); (1, 1) ]} (difference [sentence_A; sentence_B] (0, 1)%nat).
Proof.
  refine (proj1 (subset_rule_equivalent {[ (0, 0); (1, 1) ]}
                   [sentence_A; sentence_B] (0, 1)%nat _ _)).
  - apply (bool_decide_unpack _). vm_compute. exact I.
  - vm_compute; reflexivity.
Defined.

(** ** Cells stay in view *)

Lemma tracked_accounted (ai ai' : MinesweeperAI) (c : Cell) :
  accounted ai ai' → knowledge ai `sublist_of` knowledge ai' ∨ settled ai ai' →
  tracked ai c → tracked ai' c.
Proof.
  intros [(Hm & Hs & _) Hacc] Hk [Hc|[Hc|(s & (r & -> & Hr)%list_elem_of_fmap & Hc)]].
  - left. by apply Hm.
  - right; left. by apply Hs.
  - destruct (decide (r ∈ knowledge ai')) as [Hin|Hin].
    + apply Hacc in Hc. apply elem_of_union in Hc as [Hc|Hc].
      * right; right. exists (deref (heap ai') r).
        split; [by apply elem_of_sentences_knowledge|done].
      * apply elem_of_union in Hc as [?|?]; [by left|by right; left].
    + destruct Hk as [Hsub|[_ Hset]].
      * exfalso. apply Hin. by eapply elem_of_sublist.
      * apply (Hset r Hr Hin) in Hc.
        apply elem_of_union in Hc as [?|?]; [by left|by right; left].
Qed.

Lemma tracked_mark_safe_and_mine (fuel : nat) (ai ai' : MinesweeperAI) (c : Cell) :
  mark_safe_and_mine fuel ai = Done ai' → tracked ai c → tracked ai' c.
Proof.
  intros Hset%mark_safe_and_mine_settled. apply tracked_accounted; [by destruct Hset|].
  by right.
Qed.

Lemma elem_of_permutations2_inv {A : Type} (l : list A) (x y : A) :
  (x, y) ∈ permutations2 l → ∃ i j, i ≠ j ∧ l !! i = Some x ∧ l !! j = Some y.
Proof.
  unfold permutations2. intros ([i x'] & Hin & Hx)%list_elem_of_bind.
  apply list_elem_of_bind in Hin as ([j y'] & Hin & Hy). simpl in Hin.
  case_decide as Hij; [by apply elem_of_nil in Hin|].
  apply list_elem_of_singleton in Hin. simplify_eq.
  apply elem_of_lookup_imap in Hx as (i' & x'' & ? & Hx).
  apply elem_of_lookup_imap in Hy as (j' & y'' & ? & Hy). simplify_eq.
  by exists i', j'.
Qed.

Lemma elem_of_foldl_remove_other (v : Sentence) (vs : list Sentence) :
  ∀ l, v ∈ l → v ∉ vs → v ∈ foldl (λ l v, remove_first_value v l) l vs.
Proof.
  induction vs as [|v' vs IH]; intros l Hl Hvs; simpl; [done|].
  apply not_elem_of_cons in Hvs as [Hne Hvs].
  apply IH; [|done]. by apply elem_of_remove_other.
Qed.

Lemma fields_foldl_derive (pairs : list (ref * ref)) :
  ∀ ai, mines (foldl derive ai pairs) = mines ai
        ∧ safes (foldl derive ai pairs) = safes ai.
Proof.
  induction pairs as [|p pairs IH]; intros ai; simpl; [done|].
  by destruct (IH (derive ai p)) as [-> ->].
Qed.

Lemma fields_foldl_discard (rs : list ref) :
  ∀ ai, mines (foldl discard ai rs) = mines ai
        ∧ safes (foldl discard ai rs) = safes ai.
Proof.
  induction rs as [|r rs IH]; intros ai; simpl; [done|].
  destruct (IH (discard ai r)) as [-> ->].
  destruct (discard_drop ai r) as (k' & -> & _). done.
Qed.

(** One round of [extract_from_problem] on true knowledge keeps every cell
    of the sentences under some sentence. *)
Lemma tracked_round (b : Minesweeper.t) (ai : MinesweeperAI) (c : Cell) :
  valid ai → sound b ai → NoDup (sentences ai) → no_empty ai →
  tracked ai c →
  tracked (foldl discard (foldl derive ai (subset_pairs ai)) (subset_pairs ai).*2) c.
Proof.
  intros Hv Hb Hnd Hne Htr.
  set (pairs := subset_pairs ai).
  assert (∀ p, p ∈ pairs →
               (p.1 < length (heap ai))%nat ∧ (p.2 < length (heap ai))%nat
               ∧ deref (heap ai) p.1 ∈ sentences ai
               ∧ deref (heap ai) p.2 ∈ sentences ai
               ∧ cells (deref (heap ai) p.1) ⊂ cells (deref (heap ai) p.2)) as Hp.
  { intros [r1 r2] Hin. pose proof Hin as (H1 & H2 & Hs)%elem_of_subset_pairs.
    simpl in *.
    split; [by apply Hv|]. split; [by apply Hv|].
    pose proof (elem_of_sentences_knowledge ai r1 H1) as Hs1.
    pose proof (elem_of_sentences_knowledge ai r2 H2) as Hs2.
    split; [done|]. split; [done|]. split; [done|]. intros Hs'.
    apply list_elem_of_filter in Hin as [_ Hin].
    apply elem_of_permutations2_inv in Hin as (i & j & Hij & Hi & Hj).
    apply Hij. apply (NoDup_lookup (sentences ai) i j (deref (heap ai) r1)); [done| |].
    - unfold sentences. by rewrite list_lookup_fmap, Hi.
    - unfold sentences. rewrite list_lookup_fmap, Hj. simpl. f_equal.
      destruct Hb as (_ & Hcount & _). apply Sentence_eq.
      + apply (anti_symm (⊆)); done.
      + rewrite (Hcount _ Hs1), (Hcount _ Hs2). do 3 f_equal.
        apply (anti_symm (⊆)); done. }
  destruct (sentences_foldl_discard pairs.*2 (foldl derive ai pairs)) as [Hsent _].
  rewrite sentences_foldl_derive in Hsent by naive_solver.
  assert (deref (heap (foldl derive ai pairs)) <$> pairs.*2
          = deref (heap ai) <$> pairs.*2) as Heq.
  { apply list_fmap_ext. intros i r Hr. simpl. apply deref_foldl_derive.
    apply list_elem_of_lookup_2, list_elem_of_fmap in Hr as (p & -> & Hin).
    by apply Hp. }
  rewrite Heq in Hsent. clear Heq.
  destruct (fields_foldl_discard pairs.*2 (foldl derive ai pairs)) as [Hm Hs].
  destruct (fields_foldl_derive pairs ai) as [Hm' Hs']. rewrite Hm' in Hm.
  rewrite Hs' in Hs. clear Hm' Hs'.
  unfold tracked. rewrite Hm, Hs, Hsent.
  destruct Htr as [?|[?|(s & Hin & Hc)]]; [by left|by right; left|].
  right; right. clear Hm Hs Hsent.
  set (removed := deref (heap ai) <$> pairs.*2).
  remember (size (cells s)) as n eqn:Hn. revert s Hn Hin Hc.
  induction (lt_wf n) as [n _ IH]. intros s -> Hin Hc.
  destruct (decide (s ∈ removed)) as [Hrem|Hrem].
  - apply list_elem_of_fmap in Hrem as (r2 & -> & (p & -> & Hpin)%list_elem_of_fmap).
    destruct (Hp p Hpin) as (_ & _ & H1 & H2 & Hsub).
    assert (size (cells (deref (heap ai) p.1)) < size (cells (deref (heap ai) p.2)))%nat
      as Hlt by by apply subset_size.
    destruct (decide (c ∈ cells (deref (heap ai) p.1))) as [Hc1|Hc1].
    { by apply (IH _ Hlt (deref (heap ai) p.1)). }
    assert (c ∈ cells (difference (heap ai) p)) as Hcd
      by (unfold difference; simpl; set_solver).
    destruct (decide (difference (heap ai) p ∈ removed)) as [Hdrem|Hdrem].
    + assert (difference (heap ai) p ∈ sentences ai) as Hd_in.
      { apply list_elem_of_fmap in Hdrem
          as (r & -> & (q & -> & Hq)%list_elem_of_fmap).
        by apply Hp. }
      apply (IH (size (cells (difference (heap ai) p)))) with (difference (heap ai) p);
        [|done..].
      exact (weight_difference (heap ai) p (proj1 Hsub) (Hne _ H1)).
    + exists (difference (heap ai) p). split; [|done].
      apply elem_of_foldl_remove_other; [|done].
      apply elem_of_app. right. apply list_elem_of_fmap. by exists p.
  - exists s. split; [|done]. apply elem_of_foldl_remove_other; [|done].
    apply elem_of_app. by left.
Qed.

Lemma tracked_remove_same_sentence (ai : MinesweeperAI) (c : Cell) :
  tracked ai c → tracked (remove_same_sentence ai) c.
Proof.
  intros [?|[?|(s & Hs & Hc)]]; [by left|by right; left|].
  right; right. exists s. split; [|done].
  unfold remove_same_sentence, sentences. simpl. by apply dedupe_elem.
Qed.

Lemma tracked_extract_from_problem (b : Minesweeper.t) (c : Cell) (fuel : nat) :
  ∀ ai ai', extract_from_problem fuel ai = Done ai' →
    valid ai → sound b ai → no_empty ai → tracked ai c → tracked ai' c.
Proof.
  induction fuel as [|fuel IH]; intros ai ai' Hrun Hv Hb Hne Htr; [done|].
  cbn [extract_from_problem] in Hrun.
  destruct (knowledge_remove_same_sentence ai) as [Hsub Hnd].
  assert (valid (remove_same_sentence ai)) as Hv0
    by (by apply (valid_drop ai (knowledge (remove_same_sentence ai)))).
  assert (sound b (remove_same_sentence ai)) as Hb0
    by (by apply (sound_drop b ai (knowledge (remove_same_sentence ai)))).
  assert (no_empty (remove_same_sentence ai)) as Hne0
    by (by apply (no_empty_drop ai (knowledge (remove_same_sentence ai)))).
  apply tracked_remove_same_sentence in Htr.
  pose proof (tracked_round b _ c Hv0 Hb0 Hnd Hne0 Htr) as Htr2.
  destruct (foldl_derive_preserves (sound b) ltac:(intros; by apply sound_derive)
              (subset_pairs (remove_same_sentence ai))
              (remove_same_sentence ai) Hv0 Hb0) as [Hv1 Hb1].
  { intros p. apply elem_of_subset_pairs. }
  destruct (foldl_discard_preserves (sound b) (sound_drop b)
              ((subset_pairs (remove_same_sentence ai)).*2) _ Hv1 Hb1) as [Hv2 Hb2].
  case_bool_decide as He; simpl in Hrun.
  - by simplify_eq.
  - destruct (mark_safe_and_mine fuel _) as [ai3| |] eqn:E; simpl in Hrun; try done.
    apply (IH ai3); [done| | | |].
    + by apply (valid_mark_safe_and_mine _ _ _ E).
    + by eapply sound_mark_safe_and_mine.
    + by apply (mark_safe_and_mine_preserves (λ _, True)) in E as [_ ?].
    + by eapply tracked_mark_safe_and_mine.
Qed.

Lemma tracked_add_knowledge (b : Minesweeper.t) (fuel : nat) (cell c : Cell)
    (ai ai' : MinesweeperAI) :
  add_knowledge fuel cell (Minesweeper.nearby_mines b cell) ai = Done ai' →
  Minesweeper.is_mine b cell = false →
  valid ai → sound b ai → moves_made ai ⊆ safes ai →
  tracked ai c
  ∨ (adjacent cell c ∧ in_bounds (Minesweeper.height b) (Minesweeper.width b) c) →
  tracked ai' c.
Proof.
  intros Hrun Hcell Hv Hb Hmoves Hc.
  pose proof (sound_observe b cell ai Hv Hb Hcell) as Hb2.
  pose proof (valid_observe cell (Minesweeper.nearby_mines b cell) ai Hv) as Hv2.
  unfold add_knowledge in Hrun.
  destruct (mark_safe_and_mine fuel _) as [ai3| |] eqn:E; simpl in Hrun; try done.
  apply (tracked_extract_from_problem b c) in Hrun; [done| | | |].
  { by apply (valid_mark_safe_and_mine _ _ _ E). }
  { by eapply sound_mark_safe_and_mine. }
  { by apply (mark_safe_and_mine_preserves (λ _, True)) in E as [_ ?]. }
  apply (tracked_mark_safe_and_mine _ _ _ _ E). clear E Hrun ai3 ai'.
  revert Hb2 Hv2. rewrite add_neighbour_mines_knowledge_eq.
  set (ai1 := mark_safe cell (set_moves_made ({[cell]} ∪ moves_made ai) ai)).
  assert (valid ai1) as Hv1 by (by apply valid_mark_safe).
  assert (moves_made ai1 ⊆ safes ai1) as Hmoves1.
  { unfold ai1.
    destruct (fields_mark_safe cell (set_moves_made ({[cell]} ∪ moves_made ai) ai))
      as (_ & _ & _ & ->).
    unfold mark_safe. case_decide; simpl in *; set_solver. }
  assert (tracked ai c → tracked ai1 c) as Hkeep.
  { intros Htr. apply (tracked_accounted
                         (set_moves_made ({[cell]} ∪ moves_made ai) ai) ai1).
    - apply accounted_mark_safe.
    - left. unfold ai1, mark_safe. case_decide; done.
    - exact Htr. }
  assert (tracked ai1 c
          ∨ (adjacent cell c
             ∧ in_bounds (Minesweeper.height b) (Minesweeper.width b) c)) as Hc1
    by (destruct Hc as [Hc|Hc]; [left; by apply Hkeep|by right]).
  clear Hkeep Hc. clearbody ai1. clear Hv Hb Hmoves ai.
  intros (Hdims & _) _. simpl in Hdims. destruct Hdims as [Hh Hw].
  set (s := mkSentence (list_to_set (neighbour_cells cell ai1))
              (Minesweeper.nearby_mines b cell
               - Z.of_nat (length (known_neighbour_mines cell ai1)))).
  assert (tracked ai1 c → tracked (append_sentence s ai1) c) as Happ.
  { intros [?|[?|(s' & Hs' & Hc')]]; [by left|by right; left|].
    right; right. exists s'. split; [|done].
    rewrite sentences_append by done. apply elem_of_app. by left. }
  destruct Hc1 as [Hc|[Hadj Hin]]; [by apply Happ|].
  destruct (decide (c ∈ mines ai1)) as [Hmine|Hmine]; [by left|].
  destruct (decide (c ∈ moves_made ai1 ∪ safes ai1)) as [Hknown|Hknown].
  { right; left. apply elem_of_union in Hknown as [?|?]; [by apply Hmoves1|done]. }
  right; right. exists s. split.
  - rewrite sentences_append by done. apply elem_of_app. right. left.
  - unfold s; simpl. apply elem_of_list_to_set. unfold neighbour_cells.
    apply list_elem_of_filter. rewrite Hh, Hw. split; [done|]. by apply elem_of_square.
Qed.

Lemma tracked_observe_all (b : Minesweeper.t) (fuel : nat) (c : Cell)
    (obs : list (Cell * Z)) :
  truthful b obs →
  ∀ ai ai', observe_all fuel obs ai = Done ai' →
    valid ai → sound b ai → moves_made ai ⊆ safes ai →
    tracked ai c
    ∨ (∃ o, o ∈ obs ∧ adjacent o.1 c
            ∧ in_bounds (Minesweeper.height b) (Minesweeper.width b) c) →
    tracked ai' c.
Proof.
  induction 1 as [|[cell n] obs [Hcell Hn] _ IH]; intros ai ai' Hrun Hv Hb Hm Hc.
  - simplify_eq/=. destruct Hc as [?|(o & ?%elem_of_nil & _)]; done.
  - cbn [observe_all] in Hrun. simpl in Hcell, Hn. subst n.
    destruct (add_knowledge fuel cell _ ai) as [ai1| |] eqn:E; simpl in Hrun; try done.
    pose proof (add_knowledge_sound _ _ _ _ _ E Hcell Hv Hb) as [Hv1 Hb1].
    pose proof (add_knowledge_recorded (moves_made ai) _ _ _ _ _ E Hv) as [_ [Hm1 Hs1]];
      [done|].
    apply (IH ai1); [done..|by rewrite Hm1|].
    destruct Hc as [Hc|(o & [->|Ho]%elem_of_cons & Hadj & Hin)].
    + left. apply (tracked_add_knowledge b fuel cell c ai); auto.
    + left. apply (tracked_add_knowledge b fuel cell c ai); auto.
    + right. by exists o.
Qed.

(** X18: in a game on a consistent board, no cell around a revealed cell drops
    out of view: after any sequence of observations, every cell of the board
    within one row and one column of a revealed cell is a known mine, a
    known safe, or a cell of some sentence of the knowledge list. *)
Theorem neighbours_stay_tracked (b : Minesweeper.t) (obs : list (Cell * Z)) :
  truthful b obs →
  ∃ fuel ai,
    observe_all fuel obs (init (Minesweeper.height b) (Minesweeper.width b)) = Done ai
    ∧ ∀ o c, o ∈ obs → adjacent o.1 c →
             in_bounds (Minesweeper.height b) (Minesweeper.width b) c →
             tracked ai c.
Proof.
  intros Hobs.
  destruct (observe_all_total obs
              (init (Minesweeper.height b) (Minesweeper.width b)) (valid_init _ _))
    as (fuel & ai & Hrun & _).
  exists fuel, ai. split; [done|]. intros o c Ho Hadj Hin.
  apply (tracked_observe_all b fuel c obs Hobs _ _ Hrun);
    [apply valid_init|apply sound_init|done|].
  right. by exists o.
Qed.

Lemma neighbours_stay_tracked_witness :
  truthful (Minesweeper.mk 3 3 {[ (0, 0) ]}) [((1, 1), 1); ((2, 2), 0)]
  ∧ ∃ fuel ai,
      observe_all fuel [((1, 1), 1); ((2, 2), 0)] (init 3 3) = Done ai
      ∧ ∀ o c, o ∈ [((1, 1), 1); ((2, 2), 0)] → adjacent o.1 c →
               in_bounds 3 3 c → tracked ai c.
Proof.
  assert (truthful (Minesweeper.mk 3 3 {[ (0, 0) ]}) [((1, 1), 1); ((2, 2), 0)])
    as H by (repeat constructor; vm_compute; reflexivity).
  split; [exact H|].
  exact (neighbours_stay_tracked (Minesweeper.mk 3 3 {[ (0, 0) ]}) _ H).
Defined.

(** X19: in a game on a consistent board in which every cell of the board that
    is not a mine has been revealed, the knowledge list is empty, [mines]
    holds only mines of the board, and it holds every mine of the board
    within one row and one column of a revealed cell. *)
Theorem all_safe_cells_revealed (b : Minesweeper.t) (obs : list (Cell * Z)) :
  truthful b obs →
  (∀ c, in_bounds (Minesweeper.height b) (Minesweeper.width b) c →
        c ∉ Minesweeper.mines b → c ∈ obs.*1) →
  ∃ fuel ai,
    observe_all fuel obs (init (Minesweeper.height b) (Minesweeper.width b)) = Done ai
    ∧ knowledge ai = []
    ∧ mines ai ⊆ Minesweeper.mines b
    ∧ ∀ o c, o ∈ obs → adjacent o.1 c →
             in_bounds (Minesweeper.height b) (Minesweeper.width b) c →
             c ∈ Minesweeper.mines b → c ∈ mines ai.
Proof.
  intros Hobs Hall.
  destruct (observe_all_total obs
              (init (Minesweeper.height b) (Minesweeper.width b)) (valid_init _ _))
    as (fuel & ai & Hrun & _).
  exists fuel, ai. split; [done|].
  pose proof (observe_all_sound b fuel obs Hobs _ _ Hrun (valid_init _ _) (sound_init b))
    as [Hv (_ & Hcount & Hmines & Hsafes & _)].
  pose proof (observe_all_recorded fuel obs ∅ _ _ Hrun (valid_init _ _)) as [Hm Hs];
    [done|].
  pose proof (observe_all_normalized fuel obs _ _ Hrun (valid_init _ _)
                (normalized_init _ _)) as [_ (Hp & _ & _)].
  pose proof (observe_all_on_board _ _ fuel obs _ _ Hrun (valid_init _ _)
                (on_board_init _ _)) as [_ (_ & Hcells & _)].
  assert (sentences ai = []) as Hnil.
  { apply elem_of_nil_inv. intros s Hin.
    assert (unresolved s) as (_ & _ & Hu).
    { destruct obs as [|o obs _] using rev_ind.
      - simplify_eq/=. by apply elem_of_nil in Hin.
      - by apply (observe_all_saturated _ _ _ _ _ Hrun). }
    apply Hu. rewrite (Hcount s Hin). do 2 f_equal.
    apply set_eq. intros c. rewrite elem_of_intersection. split; [tauto|].
    intros Hc. split; [done|].
    destruct (decide (c ∈ Minesweeper.mines b)) as [|Hnot]; [done|]. exfalso.
    apply (Hp s Hin c Hc). apply elem_of_union. right. apply Hs.
    apply elem_of_union. left. apply elem_of_list_to_set.
    apply Hall; [|done]. by apply (Hcells s Hin). }
  split; [by apply fmap_nil_inv in Hnil|]. split; [done|].
  intros o c Ho Hadj Hin Hmine.
  assert (tracked ai c) as [?|[Hc|(s & Hs' & _)]].
  { apply (tracked_observe_all b fuel c obs Hobs _ _ Hrun);
      [apply valid_init|apply sound_init|done|].
    right. by exists o. }
  - done.
  - exfalso. by apply (Hsafes c).
  - rewrite Hnil in Hs'. by apply elem_of_nil in Hs'.
Qed.

Lemma all_safe_cells_revealed_witness :
  ∃ fuel ai,
    observe_all fuel [((0, 1), 1); ((1, 0), 1); ((1, 1), 1)] (init 2 2) = Done ai
    ∧ knowledge ai = []
    ∧ mines ai ⊆ {[ (0, 0) ]}
    ∧ ∀ o c, o ∈ [((0, 1), 1); ((1, 0), 1); ((1, 1), 1)] → adjacent o.1 c →
             in_bounds 2 2 c → c ∈ ({[ (0, 0) ]} : gset Cell) → c ∈ mines ai.
Proof.
  refine (all_safe_cells_revealed (Minesweeper.mk 2 2 {[ (0, 0) ]})
            [((0, 1), 1); ((1, 0), 1); ((1, 1), 1)] _ _).
  - repeat constructor; vm_compute; reflexivity.
  - intros [i j] [Hi Hj] Hc. simpl in *.
    assert (i = 0 ∨ i = 1) as [->| ->] by lia;
      (assert (j = 0 ∨ j = 1) as [->| ->] by lia);
      [exfalso; apply Hc; set_solver|set_solver..].
Defined.
